(** * Smart Money Concepts engine: a shallow embedding

    This development embeds the core of the [smc_engine] package:

    - [core/smc_primitives.py]: ATR, swing structure, BOS / ChoCH, order
      blocks, fair value gaps and liquidity grabs;
    - [core/strategy.py]: [SMCStrategy.generate_signals];
    - [backtest/simulator.py]: [OrderSimulator];
    - [backtest/backtester.py]: [Backtester.run] and the position lifecycle;
    - [backtest/metrics.py]: the rational part of [calculate_metrics].

    Conventions of the embedding.

    - A Python [float] is an exact rational ([Q]).  Comparisons are the
      boolean comparisons of [Q]; there is no NaN and no infinity, so the
      guards [pd.isna] / [np.isnan] / [np.isfinite] of the source always take
      their "value is a number" branch and are left out.  The one place where
      the source builds an infinity on purpose ([np.inf] as profit factor) is
      modelled with the explicit type [xfloat].
    - Rational arithmetic is exact: it never rounds, never absorbs a small
      term into a large one and never overflows, so an equation between
      computed values is one up to rounding in the source.  A binary64
      difference such as [edge - 0.3 * atr] can round back to [edge]: the
      stop of a signal is not claimed to lie strictly beyond its zone.
    - A [pandas.DataFrame] of bars is a [list Bar]; positional access
      [.iat[i]] / [.iloc[i]] is [iat], and the source only reads positions
      inside the frame.
    - The index of the frame (timestamps) is the field [bar_ts].
    - Python's process-global [random] module is an explicit stream of
      uniform draws threaded through the backtest state.
    - [Backtester] mutates [self]; here every method is a function from
      state to state. *)

From Stdlib Require Import QArith Qabs Lqa ZArith List String Lia Bool Arith Sorted.
From stdpp Require Import gmap.
Import ListNotations.
Close Scope Q_scope.
Open Scope nat_scope.

(** ** Floats as rationals *)

Definition Qleb (x y : Q) : bool := Qle_bool x y.
Definition Qltb (x y : Q) : bool := negb (Qle_bool y x).
Definition Qgtb (x y : Q) : bool := Qltb y x.
Definition Qgeb (x y : Q) : bool := Qle_bool y x.
Definition Qeqb (x y : Q) : bool := Qeq_bool x y.

(** Python's [max(x, y)] keeps [x] unless [y > x]; [min(x, y)] keeps [x]
    unless [y < x]. *)
Definition qmax (x y : Q) : Q := if Qgtb y x then y else x.
Definition qmin (x y : Q) : Q := if Qltb y x then y else x.

(** ** Data model ([smc_primitives.py], dataclasses and enums) *)

Record Bar := mkBar {
  bar_ts : Z;
  bar_open : Q;
  bar_high : Q;
  bar_low : Q;
  bar_close : Q
}.

Definition blank_bar : Bar := mkBar 0 0 0 0 0.

(** [ohlc.iloc[i]]: positional access; the default is never read by the
    source, whose loops stay inside the frame. *)
Definition iat (ohlc : list Bar) (i : nat) : Bar := nth i ohlc blank_bar.

Inductive SwingType := HIGH | LOW.

Inductive TrendDirection := BULLISH | BEARISH | RANGING.

(** [Literal["bullish", "bearish"]]. *)
Inductive Direction := bullish | bearish.

Definition SwingType_eqb (a b : SwingType) : bool :=
  match a, b with HIGH, HIGH | LOW, LOW => true | _, _ => false end.

Definition Direction_eqb (a b : Direction) : bool :=
  match a, b with bullish, bullish | bearish, bearish => true | _, _ => false end.

Record SwingPoint := mkSwing {
  sp_index : nat;
  sp_timestamp : Z;
  sp_price : Q;
  sp_swing_type : SwingType
}.

Record MarketStructure := mkStructure {
  ms_swings : list SwingPoint;
  ms_trend : TrendDirection;
  ms_last_swing_high : option SwingPoint;
  ms_last_swing_low : option SwingPoint
}.

Record OrderBlock := mkOrderBlock {
  ob_type : Direction;
  ob_start_idx : nat;
  ob_end_idx : nat;
  ob_start_ts : Z;
  ob_end_ts : Z;
  ob_price_top : Q;
  ob_price_bottom : Q;
  ob_strength : Q
}.

Record FairValueGap := mkFairValueGap {
  fvg_type : Direction;
  fvg_start_idx : nat;
  fvg_end_idx : nat;
  fvg_start_ts : Z;
  fvg_end_ts : Z;
  fvg_gap_top : Q;
  fvg_gap_bottom : Q;
  fvg_size_pips : Q
}.

Record LiquidityGrab := mkLiquidityGrab {
  lg_type : Direction;
  lg_swing_idx : nat;
  lg_grab_idx : nat;
  lg_timestamp : Z;
  lg_swing_price : Q;
  lg_grab_price : Q;
  lg_reclaim_bars : nat
}.

(** The property [LiquidityGrab.end_idx]. *)
Definition lg_end_idx (g : LiquidityGrab) : nat := lg_grab_idx g.

(** The strategy parameters.  The source keeps them in a [dict] and reads
    them with [params.get(key, default)]; the record holds the value each
    read yields, and [default_params] fills in the defaults of the source. *)
Record Params := mkParams {
  lookback : nat;
  risk_reward : Q;
  atr_period : nat;
  min_impulse_bars : nat;
  min_impulse_atr : Q;
  ob_expansion_atr : Q;
  max_age_bars : nat;
  detection_strict : bool;
  min_gap_atr : Q;
  fvg_expand_atr : Q;
  liquidity_grab_atr : Q;
  use_order_blocks : bool;
  use_fvg : bool;
  use_liquidity_grabs : bool
}.

Definition default_params (lb : nat) (rr : Q) (period : nat) : Params :=
  {| lookback := lb; risk_reward := rr; atr_period := period;
     min_impulse_bars := 3; min_impulse_atr := 2; ob_expansion_atr := 1 # 2;
     max_age_bars := 100; detection_strict := true;
     min_gap_atr := 1 # 2; fvg_expand_atr := 1 # 5;
     liquidity_grab_atr := 1;
     use_order_blocks := true; use_fvg := true; use_liquidity_grabs := true |}.

(** [SMCStrategy.validate_params] (the required keys are fields here). *)
Definition validate_params (P : Params) : bool :=
  (10 <=? lookback P) && Qltb 0 (risk_reward P).

(** ** [calculate_atr] *)

(** One row of [tr]: the row-wise maximum of the three absolute ranges.
    On the first row [close.shift()] is missing and [max(axis=1)] skips it. *)
Definition true_range (prev_close : option Q) (b : Bar) : Q :=
  let hl := Qabs (bar_high b - bar_low b) in
  match prev_close with
  | None => hl
  | Some pc => qmax (qmax hl (Qabs (bar_high b - pc))) (Qabs (bar_low b - pc))
  end.

Fixpoint tr_series (prev_close : option Q) (ohlc : list Bar) : list Q :=
  match ohlc with
  | [] => []
  | b :: rest => true_range prev_close b :: tr_series (Some (bar_close b)) rest
  end.

(** [ewm(span=period, adjust=False)]: smoothing factor [2 / (span + 1)].
    pandas raises [ValueError] for a span below one; the factor is that of
    the source for a span of at least one. *)
Definition ewm_alpha (span : nat) : Q := 2 / (inject_Z (Z.of_nat span) + 1).

Fixpoint ewm_from (alpha y : Q) (xs : list Q) : list Q :=
  match xs with
  | [] => []
  | x :: rest =>
      let y' := ((1 - alpha) * y + alpha * x)%Q in
      y' :: ewm_from alpha y' rest
  end.

Definition ewm_mean (alpha : Q) (xs : list Q) : list Q :=
  match xs with
  | [] => []
  | x :: rest => x :: ewm_from alpha x rest
  end.

(** [calculate_atr(ohlc, period)] for [period >= 1]; with [period = 0]
    the source raises in [ewm] and returns no series at all. *)
Definition calculate_atr (ohlc : list Bar) (period : nat) : list Q :=
  ewm_mean (ewm_alpha period) (tr_series None ohlc).

(** [atr.iloc[i]] / [atr.iat[i]]. *)
Definition atr_at (atr : list Q) (i : nat) : Q := nth i atr 0%Q.

(** [series.iloc[-1]] on a frame of bars. *)
Definition last_bar (ohlc : list Bar) : Bar := List.last ohlc blank_bar.

(** ** [detect_market_structure] *)

(** [pd.Series(xs).rolling(2 * lookback + 1, center=True)]: the window at
    [i] is [xs[i - lookback .. i + lookback]]; where the window does not fit
    the result is NaN (here [None]). *)
Definition rolling_window (xs : list Q) (lb i : nat) : option (list Q) :=
  if (lb <=? i) && (i + lb <? length xs)
  then Some (firstn (2 * lb + 1) (skipn (i - lb) xs))
  else None.

Definition rolling_max (xs : list Q) (lb i : nat) : option Q :=
  match rolling_window xs lb i with
  | Some (x :: rest) => Some (fold_left qmax rest x)
  | _ => None
  end.

Definition rolling_min (xs : list Q) (lb i : nat) : option Q :=
  match rolling_window xs lb i with
  | Some (x :: rest) => Some (fold_left qmin rest x)
  | _ => None
  end.

(** [np.roll(xs, 1)[i]] and [np.roll(xs, -1)[i]] (cyclic shifts). *)
Definition np_roll_prev (xs : list Q) (i : nat) : Q :=
  nth ((i + length xs - 1) mod length xs) xs 0%Q.

Definition np_roll_next (xs : list Q) (i : nat) : Q :=
  nth ((i + 1) mod length xs) xs 0%Q.

Definition is_swing_high (highs : list Q) (lb i : nat) : bool :=
  match rolling_max highs lb i with
  | Some m =>
      Qeqb (nth i highs 0%Q) m
      && Qgtb (nth i highs 0%Q) (np_roll_prev highs i)
      && Qgtb (nth i highs 0%Q) (np_roll_next highs i)
  | None => false
  end.

Definition is_swing_low (lows : list Q) (lb i : nat) : bool :=
  match rolling_min lows lb i with
  | Some m =>
      Qeqb (nth i lows 0%Q) m
      && Qltb (nth i lows 0%Q) (np_roll_prev lows i)
      && Qltb (nth i lows 0%Q) (np_roll_next lows i)
  | None => false
  end.

(** [swings.sort(key=lambda s: s.index)]: a stable sort. *)
Fixpoint insert_swing (s : SwingPoint) (l : list SwingPoint) : list SwingPoint :=
  match l with
  | [] => [s]
  | h :: t =>
      if sp_index s <=? sp_index h then s :: l else h :: insert_swing s t
  end.

Definition sort_swings (l : list SwingPoint) : list SwingPoint :=
  fold_right insert_swing [] l.

Definition swings_of_type (t : SwingType) (swings : list SwingPoint) : list SwingPoint :=
  List.filter (fun s => SwingType_eqb (sp_swing_type s) t) swings.

(** [seq[-1]] when the list is not empty. *)
Definition last_swing (l : list SwingPoint) : option SwingPoint :=
  match rev l with
  | s :: _ => Some s
  | [] => None
  end.

(** The trend rule, written twice in the source (in
    [detect_market_structure] and again in [detect_choch]). *)
Definition classify_trend (highs_seq lows_seq : list SwingPoint) : TrendDirection :=
  match rev highs_seq, rev lows_seq with
  | h1 :: h2 :: _, l1 :: l2 :: _ =>
      if Qgtb (sp_price h1) (sp_price h2) && Qgtb (sp_price l1) (sp_price l2)
      then BULLISH
      else if Qltb (sp_price h1) (sp_price h2) && Qltb (sp_price l1) (sp_price l2)
      then BEARISH
      else RANGING
  | _, _ => RANGING
  end.

Definition detect_swings (ohlc : list Bar) (lb : nat) : list SwingPoint :=
  let highs := map bar_high ohlc in
  let lows := map bar_low ohlc in
  let idx := seq 0 (length ohlc) in
  let swing_highs := List.filter (is_swing_high highs lb) idx in
  let swing_lows := List.filter (is_swing_low lows lb) idx in
  sort_swings
    (map (fun i => mkSwing i (bar_ts (iat ohlc i)) (nth i highs 0%Q) HIGH) swing_highs
     ++ map (fun i => mkSwing i (bar_ts (iat ohlc i)) (nth i lows 0%Q) LOW) swing_lows).

Definition detect_market_structure (ohlc : list Bar) (lb : nat) : MarketStructure :=
  if length ohlc <? lb * 2 + 1 then mkStructure [] RANGING None None
  else
    let swings := detect_swings ohlc lb in
    let highs_seq := swings_of_type HIGH swings in
    let lows_seq := swings_of_type LOW swings in
    mkStructure swings (classify_trend highs_seq lows_seq)
                (last_swing highs_seq) (last_swing lows_seq).

(** ** [is_bos] and [detect_choch] *)

Definition is_bos (ohlc : list Bar) (swing : SwingPoint)
    (bos_margin_atr : Q) (period : nat) : bool :=
  if length ohlc <? period then false
  else
    let atr := List.last (calculate_atr ohlc period) 0%Q in
    let margin := (bos_margin_atr * atr)%Q in
    let close := bar_close (last_bar ohlc) in
    match sp_swing_type swing with
    | HIGH => Qgtb close (sp_price swing + margin)
    | LOW => Qltb close (sp_price swing - margin)
    end.

(** [detect_choch] called with a list of swings: the branch
    [isinstance(ms_or_swings, list)] derives the structure from the list. *)
Definition detect_choch (ohlc : list Bar) (swings_list : list SwingPoint)
    (bos_margin_atr : Q) (period : nat) : bool :=
  let highs := swings_of_type HIGH swings_list in
  let lows := swings_of_type LOW swings_list in
  let trend := classify_trend highs lows in
  match trend with
  | RANGING => false
  | BULLISH =>
      match last_swing lows with
      | Some s => is_bos ohlc s bos_margin_atr period
      | None => false
      end
  | BEARISH =>
      match last_swing highs with
      | Some s => is_bos ohlc s bos_margin_atr period
      | None => false
      end
  end.

(** ** [find_order_blocks] *)

Definition is_bullish_candle (b : Bar) : bool := Qgtb (bar_close b) (bar_open b).

(** [bearish = ~bullish]: a doji counts as bearish. *)
Definition is_bearish_candle (b : Bar) : bool := negb (is_bullish_candle b).

(** [flag.iloc[i:i + n].all()]. *)
Definition all_candles (flag : Bar -> bool) (ohlc : list Bar) (i n : nat) : bool :=
  forallb flag (firstn n (skipn i ohlc)).

(** [flag[:i][::-1]] followed by [.any()] and [.idxmax()]: the position of
    the most recent flagged candle strictly before [i], if there is one. *)
Fixpoint last_flagged_before (flag : Bar -> bool) (ohlc : list Bar) (i : nat) : option nat :=
  match i with
  | O => None
  | S j => if flag (iat ohlc j) then Some j else last_flagged_before flag ohlc j
  end.

(** The closure [add_block] of the source, for the impulse starting at [i].
    With a zero ATR the [strength] of the source is a float division by
    zero ([inf] or [nan]); the quotient of [Q] is zero there.  The field is
    only copied into the [meta] of a signal. *)
Definition add_block (ohlc : list Bar) (P : Params) (i : nat) (current_atr : Q)
    (block_type : Direction) (ob_idx : nat) : OrderBlock :=
  let expansion := (ob_expansion_atr P * current_atr)%Q in
  let b := iat ohlc ob_idx in
  let end_idx := i + min_impulse_bars P - 1 in
  let ob_top :=
    if detection_strict P
    then (qmax (bar_open b) (bar_close b) + expansion)%Q
    else (bar_high b + expansion)%Q in
  let ob_bottom :=
    if detection_strict P
    then (qmin (bar_open b) (bar_close b) - expansion)%Q
    else (bar_low b - expansion)%Q in
  {| ob_type := block_type;
     ob_start_idx := ob_idx;
     ob_end_idx := end_idx;
     ob_start_ts := bar_ts (iat ohlc ob_idx);
     ob_end_ts := bar_ts (iat ohlc end_idx);
     ob_price_top := ob_top;
     ob_price_bottom := ob_bottom;
     ob_strength :=
       (Qabs (bar_close (iat ohlc end_idx) - bar_open (iat ohlc ob_idx)) / current_atr)%Q |}.

(** One iteration of the loop of [find_order_blocks]: the bullish impulse
    test, then the bearish one. *)
Definition order_blocks_at (ohlc : list Bar) (P : Params) (atr : list Q) (i : nat)
    : list OrderBlock :=
  let current_atr := atr_at atr i in
  let n := min_impulse_bars P in
  let threshold := (min_impulse_atr P * current_atr)%Q in
  (if all_candles is_bullish_candle ohlc i n
      && Qgeb (bar_high (iat ohlc (i + n - 1)) - bar_low (iat ohlc i)) threshold
   then match last_flagged_before is_bearish_candle ohlc i with
        | Some ob_idx =>
            if i - ob_idx <=? max_age_bars P
            then [add_block ohlc P i current_atr bullish ob_idx]
            else []
        | None => []
        end
   else [])
  ++
  (if all_candles is_bearish_candle ohlc i n
      && Qgeb (bar_high (iat ohlc i) - bar_low (iat ohlc (i + n - 1))) threshold
   then match last_flagged_before is_bullish_candle ohlc i with
        | Some ob_idx =>
            if i - ob_idx <=? max_age_bars P
            then [add_block ohlc P i current_atr bearish ob_idx]
            else []
        | None => []
        end
   else []).

(** [range(a, b)]. *)
Definition py_range (a b : nat) : list nat := seq a (b - a).

Definition find_order_blocks (ohlc : list Bar) (P : Params) : list OrderBlock :=
  if length ohlc <? atr_period P + min_impulse_bars P then []
  else
    let atr := calculate_atr ohlc (atr_period P) in
    flat_map (order_blocks_at ohlc P atr)
             (py_range (atr_period P) (length ohlc - min_impulse_bars P)).

(** ** [find_fvg] *)

(** One iteration of the loop of [find_fvg], for the triplet
    [(i, i + 1, i + 2)].  [FairValueGap] is built positionally: the sixth
    argument is [gap_top], the seventh [gap_bottom]. *)
Definition fvg_at (ohlc : list Bar) (P : Params) (atr : list Q) (i : nat)
    : list FairValueGap :=
  let current_atr := atr_at atr i in
  let expand := (fvg_expand_atr P * current_atr)%Q in
  let min_gap := (min_gap_atr P * current_atr)%Q in
  let high_i := bar_high (iat ohlc i) in
  let low_i2 := bar_low (iat ohlc (i + 2)) in
  let low_i := bar_low (iat ohlc i) in
  let high_i2 := bar_high (iat ohlc (i + 2)) in
  if Qltb high_i low_i2 && Qgeb (low_i2 - high_i) min_gap
  then [mkFairValueGap bullish i (i + 2) (bar_ts (iat ohlc i)) (bar_ts (iat ohlc (i + 2)))
                       (low_i2 + expand) (high_i - expand) ((low_i2 - high_i) * 10000)]
  else if Qgtb low_i high_i2 && Qgeb (low_i - high_i2) min_gap
  then [mkFairValueGap bearish i (i + 2) (bar_ts (iat ohlc i)) (bar_ts (iat ohlc (i + 2)))
                       (low_i + expand) (high_i2 - expand) ((low_i - high_i2) * 10000)]
  else [].

Definition find_fvg (ohlc : list Bar) (P : Params) : list FairValueGap :=
  if length ohlc <? atr_period P + 3 then []
  else
    let atr := calculate_atr ohlc (atr_period P) in
    flat_map (fvg_at ohlc P atr) (py_range (atr_period P) (length ohlc - 2)).

(** ** [detect_liquidity_grab] *)

(** The inner [for j in range(i + 1, min(i + grab_reclaim_bars + 1, len))]
    with its [break]: the first reclaiming bar. *)
Definition first_reclaim (reclaims : Bar -> bool) (ohlc : list Bar)
    (i grab_reclaim_bars : nat) : option nat :=
  find (fun j => reclaims (iat ohlc j))
       (py_range (i + 1) (Nat.min (i + grab_reclaim_bars + 1) (length ohlc))).

(** The body of [for i in range(start, end)] for one swing. *)
Definition grab_at (ohlc : list Bar) (atr : list Q) (lga : Q)
    (grab_reclaim_bars : nat) (swing : SwingPoint) (i : nat) : list LiquidityGrab :=
  let thresh := (lga * atr_at atr i)%Q in
  match sp_swing_type swing with
  | HIGH =>
      if Qgtb (bar_high (iat ohlc i)) (sp_price swing + thresh)
      then match first_reclaim (fun b => Qltb (bar_close b) (sp_price swing))
                               ohlc i grab_reclaim_bars with
           | Some j =>
               [mkLiquidityGrab bearish (sp_index swing) i (bar_ts (iat ohlc i))
                                (sp_price swing) (bar_high (iat ohlc i)) (j - i)]
           | None => []
           end
      else []
  | LOW =>
      if Qltb (bar_low (iat ohlc i)) (sp_price swing - thresh)
      then match first_reclaim (fun b => Qgtb (bar_close b) (sp_price swing))
                               ohlc i grab_reclaim_bars with
           | Some j =>
               [mkLiquidityGrab bullish (sp_index swing) i (bar_ts (iat ohlc i))
                                (sp_price swing) (bar_low (iat ohlc i)) (j - i)]
           | None => []
           end
      else []
  end.

Definition grabs_of_swing (ohlc : list Bar) (atr : list Q) (lga : Q)
    (grab_reclaim_bars : nat) (swing : SwingPoint) : list LiquidityGrab :=
  let start := sp_index swing + 1 in
  let stop := Nat.min (start + 50) (length ohlc) in
  flat_map (grab_at ohlc atr lga grab_reclaim_bars swing) (py_range start stop).

Definition detect_liquidity_grab (ohlc : list Bar) (swings : list SwingPoint)
    (lga : Q) (grab_reclaim_bars period : nat) : list LiquidityGrab :=
  if length ohlc <? period + grab_reclaim_bars then []
  else
    let atr := calculate_atr ohlc period in
    flat_map (grabs_of_swing ohlc atr lga grab_reclaim_bars) swings.

(** ** [SMCStrategy.generate_signals] ([core/strategy.py]) *)

(** ["buy"] / ["sell"].  Any other side makes [OrderSimulator.simulate_fill]
    raise before a position exists, so positions only ever carry these. *)
Inductive Side := buy | sell.

Definition Side_eqb (a b : Side) : bool :=
  match a, b with buy, buy | sell, sell => true | _, _ => false end.

(** The [meta] dictionary of a signal row. *)
Record Meta := mkMeta {
  meta_reason : string;
  meta_trend : TrendDirection;
  meta_strength : Q
}.

(** One row of the signal frame (columns [ts, signal, price, stop, tp, meta]). *)
Record Signal := mkSignal {
  sig_ts : Z;
  sig_side : Side;
  sig_price : Q;
  sig_stop : Q;
  sig_tp : Q;
  sig_meta : Meta
}.

(** What the strategy holds in [choch]: a Python value it probes with
    [hasattr].  [detect_choch] returns a plain [bool]; an object with named
    boolean attributes is what the probing code is written for. *)
Inductive pyvalue :=
| PyBool (b : bool)
| PyObject (attrs : list (string * bool)).

Definition attr_lookup (name : string) (attrs : list (string * bool)) : option bool :=
  option_map snd (find (fun kv => String.eqb (fst kv) name) attrs).

(** [hasattr(v, name)] for the two attribute names the strategy asks for
    ([is_bullish], [is_bearish]): a [bool] has neither. *)
Definition hasattr (v : pyvalue) (name : string) : bool :=
  match v with
  | PyBool _ => false
  | PyObject attrs =>
      match attr_lookup name attrs with Some _ => true | None => false end
  end.

Definition getattr (v : pyvalue) (name : string) : bool :=
  match v with
  | PyBool _ => false
  | PyObject attrs => default false (attr_lookup name attrs)
  end.

(** [choch.<name> if hasattr(choch, "<name>") else False]. *)
Definition choch_flag (choch : pyvalue) (name : string) : bool :=
  if hasattr choch name then getattr choch name else false.

(** [next((g for g in liquidity_grabs if g.end_idx == i), None)
     if liquidity_grabs else None]. *)
Definition recent_grab_at (liquidity_grabs : list LiquidityGrab) (i : nat)
    : option LiquidityGrab :=
  find (fun g => lg_end_idx g =? i) liquidity_grabs.

(** [recent_grab and recent_grab.type == d]. *)
Definition grab_confirms (recent_grab : option LiquidityGrab) (d : Direction) : bool :=
  match recent_grab with
  | Some g => Direction_eqb (lg_type g) d
  | None => false
  end.

Definition bullish_confirm (choch : pyvalue) (recent_grab : option LiquidityGrab) : bool :=
  choch_flag choch "is_bullish" || grab_confirms recent_grab bullish.

Definition bearish_confirm (choch : pyvalue) (recent_grab : option LiquidityGrab) : bool :=
  choch_flag choch "is_bearish" || grab_confirms recent_grab bearish.

(** The four zone loops share one shape:
    [for z in zones: if skip(z): continue; if hit(z): append(make(z)); break]. *)
Fixpoint scan_zones {A : Type} (skip hit : A -> bool) (make : A -> Signal)
    (zones : list A) : option Signal :=
  match zones with
  | [] => None
  | z :: rest =>
      if skip z then scan_zones skip hit make rest
      else if hit z then Some (make z)
      else scan_zones skip hit make rest
  end.

(** Everything the loop body reads at bar [i]. *)
Record BarView := mkBarView {
  bv_index : nat;
  bv_ts : Z;
  bv_price : Q;
  bv_high : Q;
  bv_low : Q;
  bv_atr_now : Q;
  bv_trend : TrendDirection
}.

Definition within (bottom x top : Q) : bool := Qleb bottom x && Qleb x top.

(** The [continue] test and the containment test of the zone loops. *)
Definition ob_skip (d : Direction) (v : BarView) (ob : OrderBlock) : bool :=
  negb (Direction_eqb (ob_type ob) d) || (bv_index v <=? ob_end_idx ob).

Definition fvg_skip (d : Direction) (v : BarView) (g : FairValueGap) : bool :=
  negb (Direction_eqb (fvg_type g) d) || (bv_index v <=? fvg_end_idx g).

Definition ob_hit (x : Q) (ob : OrderBlock) : bool :=
  within (ob_price_bottom ob) x (ob_price_top ob).

Definition fvg_hit (x : Q) (g : FairValueGap) : bool :=
  within (fvg_gap_bottom g) x (fvg_gap_top g).

(** The rows appended by the four loops.  The stop is the exact
    difference (or sum) of the zone edge and [0.3 * atr_now]; in binary64
    that operation can return the edge itself when the ATR is small
    against the price. *)
Definition bullish_ob_entry (P : Params) (v : BarView) (ob : OrderBlock) : Signal :=
  let entry := bv_price v in
  let stop := (qmin (ob_price_bottom ob) (bv_low v) - (3 # 10) * bv_atr_now v)%Q in
  let risk := (entry - stop)%Q in
  let tp := (entry + risk * risk_reward P)%Q in
  mkSignal (bv_ts v) buy entry stop tp
           (mkMeta "OB+ChoCH/LQ" (bv_trend v) (ob_strength ob)).

Definition bullish_fvg_entry (P : Params) (v : BarView) (g : FairValueGap) : Signal :=
  let entry := bv_price v in
  let stop := (fvg_gap_bottom g - (3 # 10) * bv_atr_now v)%Q in
  let risk := (entry - stop)%Q in
  let tp := (entry + risk * risk_reward P)%Q in
  mkSignal (bv_ts v) buy entry stop tp
           (mkMeta "FVG+ChoCH/LQ" (bv_trend v) (fvg_size_pips g)).

Definition bearish_ob_entry (P : Params) (v : BarView) (ob : OrderBlock) : Signal :=
  let entry := bv_price v in
  let stop := (qmax (ob_price_top ob) (bv_high v) + (3 # 10) * bv_atr_now v)%Q in
  let risk := (stop - entry)%Q in
  let tp := (entry - risk * risk_reward P)%Q in
  mkSignal (bv_ts v) sell entry stop tp
           (mkMeta "OB+ChoCH/LQ" (bv_trend v) (ob_strength ob)).

Definition bearish_fvg_entry (P : Params) (v : BarView) (g : FairValueGap) : Signal :=
  let entry := bv_price v in
  let stop := (fvg_gap_top g + (3 # 10) * bv_atr_now v)%Q in
  let risk := (stop - entry)%Q in
  let tp := (entry - risk * risk_reward P)%Q in
  mkSignal (bv_ts v) sell entry stop tp
           (mkMeta "FVG+ChoCH/LQ" (bv_trend v) (fvg_size_pips g)).

Definition bullish_ob_signal (P : Params) (v : BarView) (order_blocks : list OrderBlock)
    : option Signal :=
  scan_zones (ob_skip bullish v) (ob_hit (bv_low v)) (bullish_ob_entry P v) order_blocks.

Definition bullish_fvg_signal (P : Params) (v : BarView) (fvgs : list FairValueGap)
    : option Signal :=
  scan_zones (fvg_skip bullish v) (fvg_hit (bv_low v)) (bullish_fvg_entry P v) fvgs.

Definition bearish_ob_signal (P : Params) (v : BarView) (order_blocks : list OrderBlock)
    : option Signal :=
  scan_zones (ob_skip bearish v) (ob_hit (bv_high v)) (bearish_ob_entry P v) order_blocks.

Definition bearish_fvg_signal (P : Params) (v : BarView) (fvgs : list FairValueGap)
    : option Signal :=
  scan_zones (fvg_skip bearish v) (fvg_hit (bv_high v)) (bearish_fvg_entry P v) fvgs.

Definition option_list {A : Type} (o : option A) : list A :=
  match o with Some a => [a] | None => [] end.

(** The signals appended by the bullish context (order-block loop, then
    FVG loop: the [break] of the first loop does not skip the second). *)
Definition bullish_context (P : Params) (v : BarView)
    (order_blocks : list OrderBlock) (fvgs : list FairValueGap) : list Signal :=
  option_list (bullish_ob_signal P v order_blocks)
  ++ option_list (bullish_fvg_signal P v fvgs).

Definition bearish_context (P : Params) (v : BarView)
    (order_blocks : list OrderBlock) (fvgs : list FairValueGap) : list Signal :=
  option_list (bearish_ob_signal P v order_blocks)
  ++ option_list (bearish_fvg_signal P v fvgs).

Definition TrendDirection_eqb (a b : TrendDirection) : bool :=
  match a, b with
  | BULLISH, BULLISH | BEARISH, BEARISH | RANGING, RANGING => true
  | _, _ => false
  end.

(** [trend in [a, b]]. *)
Definition trend_in (t a b : TrendDirection) : bool :=
  TrendDirection_eqb t a || TrendDirection_eqb t b.

(** The part of the loop body after [choch] and [recent_grab] are known.
    A [continue] in the bullish context leaves the body before the bearish
    context is looked at. *)
Definition decide_bar (P : Params) (v : BarView) (choch : pyvalue)
    (recent_grab : option LiquidityGrab)
    (order_blocks : list OrderBlock) (fvgs : list FairValueGap) : list Signal :=
  let bull :=
    if trend_in (bv_trend v) BULLISH RANGING
    then if bullish_confirm choch recent_grab
         then Some (bullish_context P v order_blocks fvgs)
         else None
    else Some [] in
  match bull with
  | None => []
  | Some bs =>
      if trend_in (bv_trend v) BEARISH RANGING
      then if bearish_confirm choch recent_grab
           then bs ++ bearish_context P v order_blocks fvgs
           else bs
      else bs
  end.

(** [detect_choch(df_slice, ms.swings)]: the defaults of the callee apply
    ([bos_margin_atr = 0.5], [atr_period = 14]). *)
Definition choch_at (ohlc : list Bar) (P : Params) (i : nat) : bool :=
  let df_slice := firstn (i + 1) ohlc in
  let ms := detect_market_structure df_slice (lookback P) in
  detect_choch df_slice (ms_swings ms) (1 # 2) 14.

Definition bar_view (ohlc : list Bar) (P : Params) (atr : list Q) (i : nat) : BarView :=
  let df_slice := firstn (i + 1) ohlc in
  let b := last_bar df_slice in
  {| bv_index := i;
     bv_ts := bar_ts b;
     bv_price := bar_close b;
     bv_high := bar_high b;
     bv_low := bar_low b;
     bv_atr_now := atr_at atr i;
     bv_trend := ms_trend (detect_market_structure df_slice (lookback P)) |}.

(** The loop body for bar [i] (after the cooldown test). *)
Definition evaluate_bar (ohlc : list Bar) (P : Params) (atr : list Q)
    (order_blocks : list OrderBlock) (fvgs : list FairValueGap)
    (liquidity_grabs : list LiquidityGrab) (i : nat) : list Signal :=
  decide_bar P (bar_view ohlc P atr i) (PyBool (choch_at ohlc P i))
             (recent_grab_at liquidity_grabs i) order_blocks fvgs.

Definition cool_off : Z := 5.

(** The main loop: [last_signal_bar] is moved to [i] whenever bar [i]
    appended a signal. *)
Fixpoint signal_loop (body : nat -> list Signal) (bars : list nat)
    (last_signal_bar : Z) : list Signal :=
  match bars with
  | [] => []
  | i :: rest =>
      if (Z.of_nat i - last_signal_bar <? cool_off)%Z
      then signal_loop body rest last_signal_bar
      else
        let sigs := body i in
        sigs ++ signal_loop body rest
                  (match sigs with [] => last_signal_bar | _ => Z.of_nat i end)
  end.

Definition min_bars (P : Params) : nat := Nat.max (lookback P) (atr_period P) + 10.

Definition generate_signals (P : Params) (ohlc : list Bar) : list Signal :=
  if length ohlc <? min_bars P then []
  else
    let atr := calculate_atr ohlc (atr_period P) in
    let order_blocks := if use_order_blocks P then find_order_blocks ohlc P else [] in
    let fvgs := if use_fvg P then find_fvg ohlc P else [] in
    let liquidity_grabs :=
      if use_liquidity_grabs P
      then detect_liquidity_grab ohlc
             (ms_swings (detect_market_structure ohlc (lookback P)))
             (liquidity_grab_atr P) 3 (atr_period P)
      else [] in
    signal_loop (evaluate_bar ohlc P atr order_blocks fvgs liquidity_grabs)
                (py_range (min_bars P) (length ohlc)) (-9999).

(** The abstract base class [Strategy]: what [Backtester] needs of it. *)
Class Strategy (S : Type) := {
  strategy_generate_signals : S -> list Bar -> list Signal;
  strategy_validate_params : S -> bool
}.

#[export] Instance SMCStrategy : Strategy Params := {
  strategy_generate_signals := generate_signals;
  strategy_validate_params := validate_params
}.

(** ** [OrderSimulator] ([backtest/simulator.py]) *)

Record Config := mkConfig {
  initial_balance : Q;
  commission : Q;
  slippage : Q;
  spread : Q;
  position_size : Q;
  max_positions : Z;
  instrument_multiplier : Q
}.

(** The defaults of [Backtester.__init__]. *)
Definition default_config : Config :=
  {| initial_balance := 10000;
     commission := 1 # 10000;
     slippage := 1 # 10000;
     spread := 2 # 10000;
     position_size := 1 # 100;
     max_positions := 1;
     instrument_multiplier := 100000 |}.

(** The module-level generator of Python's [random]: the values
    [random.random()] will return, and how many were taken so far.  The
    source never seeds it. *)
Record RandomState := mkRandom {
  random_values : nat -> Q;
  random_taken : nat
}.

(** [random.uniform(a, b)] is [a + (b - a) * random()]. *)
Definition random_uniform (a b : Q) (r : RandomState) : Q * RandomState :=
  ((a + (b - a) * random_values r (random_taken r))%Q,
   mkRandom (random_values r) (S (random_taken r))).

Definition half_spread (cfg : Config) : Q := (spread cfg / 2)%Q.

Definition simulate_fill (cfg : Config) (side : Side) (price : Q)
    (add_randomness : bool) (r : RandomState) : Q * RandomState :=
  let '(slip, r') :=
    if add_randomness
    then let '(u, r') := random_uniform (1 # 2) (3 # 2) r in ((slippage cfg * u)%Q, r')
    else (slippage cfg, r) in
  match side with
  | buy => ((price + slip + half_spread cfg)%Q, r')
  | sell => ((price - slip - half_spread cfg)%Q, r')
  end.

Definition calculate_commission (cfg : Config) (price size : Q) : Q :=
  (commission cfg * price * size)%Q.

(** The dictionary [simulate_trade_costs] returns. *)
Record TradeCosts := mkTradeCosts {
  tc_fill_price : Q;
  tc_commission : Q;
  tc_total_cost : Q
}.

(** [OrderSimulator.simulate_trade_costs]: the fill, the commission on the
    fill, and as total cost the distance of the fill from the requested
    price times the size plus the commission. *)
Definition simulate_trade_costs (cfg : Config) (side : Side) (price size : Q)
    (add_randomness : bool) (r : RandomState) : TradeCosts * RandomState :=
  let '(fill_price, r') := simulate_fill cfg side price add_randomness r in
  let commission_cost := calculate_commission cfg fill_price size in
  let slippage_cost := (Qabs (fill_price - price) * size)%Q in
  let total_cost := (slippage_cost + commission_cost)%Q in
  (mkTradeCosts fill_price commission_cost total_cost, r').

(** ** [Backtester] ([backtest/backtester.py]) *)

(** An entry of [open_positions] (a [dict] in the source). *)
Record Position := mkPosition {
  pos_side : Side;
  pos_entry_ts : Z;
  pos_entry_price : Q;
  pos_size : Q;
  pos_stop : Q;
  pos_tp : Q;
  pos_commission : Q;
  pos_meta : Meta;
  pos_instrument_multiplier : Q;
  pos_risk_amount : Q;
  pos_risk_pct : Q
}.

Record Trade := mkTrade {
  tr_index : nat;
  tr_entry_ts : Z;
  tr_exit_ts : Z;
  tr_side : Side;
  tr_entry_price : Q;
  tr_exit_price : Q;
  tr_size : Q;
  tr_pnl : Q;
  tr_fees : Q;
  tr_cum_equity : Q;
  tr_exit_reason : string;
  tr_meta : Meta;
  tr_entry_balance : Q;
  tr_exit_balance : Q;
  tr_risk_amount : Q;
  tr_risk_pct : Q;
  tr_max_drawdown_at_exit : Q
}.

(** The mutable attributes of a [Backtester], with the random generator
    the simulator draws from. *)
Record State := mkState {
  balance : Q;
  equity : Q;
  trades : list Trade;
  open_positions : list Position;
  equity_curve_points : list (Z * Q);
  rng : RandomState
}.

Definition set_rng (st : State) (r : RandomState) : State :=
  mkState (balance st) (equity st) (trades st) (open_positions st)
          (equity_curve_points st) r.

(** Equality of two position dictionaries ([==] on every value). *)
Definition Meta_eqb (a b : Meta) : bool :=
  String.eqb (meta_reason a) (meta_reason b)
  && TrendDirection_eqb (meta_trend a) (meta_trend b)
  && Qeqb (meta_strength a) (meta_strength b).

Definition Position_eqb (a b : Position) : bool :=
  Side_eqb (pos_side a) (pos_side b)
  && (pos_entry_ts a =? pos_entry_ts b)%Z
  && Qeqb (pos_entry_price a) (pos_entry_price b)
  && Qeqb (pos_size a) (pos_size b)
  && Qeqb (pos_stop a) (pos_stop b)
  && Qeqb (pos_tp a) (pos_tp b)
  && Qeqb (pos_commission a) (pos_commission b)
  && Meta_eqb (pos_meta a) (pos_meta b)
  && Qeqb (pos_instrument_multiplier a) (pos_instrument_multiplier b)
  && Qeqb (pos_risk_amount a) (pos_risk_amount b)
  && Qeqb (pos_risk_pct a) (pos_risk_pct b).

(** [list.remove(x)] inside [try ... except ValueError: pass]: drop the
    first element equal to [x], if any. *)
Fixpoint list_remove (x : Position) (l : list Position) : list Position :=
  match l with
  | [] => []
  | y :: rest => if Position_eqb y x then rest else y :: list_remove x rest
  end.

Definition position_pnl (pos : Position) (price : Q) : Q :=
  match pos_side pos with
  | buy => ((price - pos_entry_price pos) * pos_size pos * pos_instrument_multiplier pos)%Q
  | sell => ((pos_entry_price pos - price) * pos_size pos * pos_instrument_multiplier pos)%Q
  end.

Definition _calculate_open_pnl (st : State) (bar : Bar) : Q :=
  fold_left (fun total pos => (total + position_pnl pos (bar_close bar))%Q)
            (open_positions st) 0%Q.

Definition _enter_position (cfg : Config) (signal : Signal) (bar : Bar) (ts : Z)
    (st : State) : State :=
  let side := sig_side signal in
  let stop_loss := sig_stop signal in
  let '(fill_price, r) := simulate_fill cfg side (sig_price signal) true (rng st) in
  let st := set_rng st r in
  let stop_distance := Qabs (fill_price - stop_loss) in
  if Qleb stop_distance 0 then st
  else
    let sized :=
      if Qleb (position_size cfg) 1
      then
        let risk_amount := (balance st * position_size cfg)%Q in
        let risk_per_unit := (stop_distance * instrument_multiplier cfg)%Q in
        if Qleb risk_per_unit 0 then None
        else Some ((risk_amount / risk_per_unit)%Q, risk_amount)
      else
        Some (position_size cfg,
              (stop_distance * position_size cfg * instrument_multiplier cfg)%Q) in
    match sized with
    | None => st
    | Some (size, risk_amount) =>
        if Qleb size 0 then st
        else
          let commission_cost := calculate_commission cfg fill_price size in
          let balance' := (balance st - commission_cost)%Q in
          let position :=
            {| pos_side := side;
               pos_entry_ts := ts;
               pos_entry_price := fill_price;
               pos_size := size;
               pos_stop := stop_loss;
               pos_tp := sig_tp signal;
               pos_commission := commission_cost;
               pos_meta := sig_meta signal;
               pos_instrument_multiplier := instrument_multiplier cfg;
               pos_risk_amount := risk_amount;
               pos_risk_pct :=
                 if Qgtb balance' 0
                 then (risk_amount / qmax balance' (1 # 1000000000000))%Q
                 else 0%Q |} in
          mkState balance' (equity st) (trades st)
                  (open_positions st ++ [position])
                  (equity_curve_points st) (rng st)
    end.

(** [es.cummax()] and [(es - running_max).min()]. *)
Fixpoint cummax_from (m : Q) (es : list Q) : list Q :=
  match es with
  | [] => []
  | e :: rest => let m' := qmax m e in m' :: cummax_from m' rest
  end.

Definition cummax (es : list Q) : list Q :=
  match es with
  | [] => []
  | e :: rest => e :: cummax_from e rest
  end.

Fixpoint series_sub (xs ys : list Q) : list Q :=
  match xs, ys with
  | x :: xs', y :: ys' => (x - y)%Q :: series_sub xs' ys'
  | _, _ => []
  end.

Definition series_min (xs : list Q) : option Q :=
  match xs with
  | [] => None
  | x :: rest => Some (fold_left qmin rest x)
  end.

Definition series_max (xs : list Q) : option Q :=
  match xs with
  | [] => None
  | x :: rest => Some (fold_left qmax rest x)
  end.

Definition min_drawdown (es : list Q) : Q :=
  default 0%Q (series_min (series_sub es (cummax es))).

Definition opposite (s : Side) : Side :=
  match s with buy => sell | sell => buy end.

Definition _exit_position (cfg : Config) (position : Position) (bar : Bar) (ts : Z)
    (reason : string) (st : State) : State :=
  let side := pos_side position in
  let entry_price := pos_entry_price position in
  let size := pos_size position in
  let entry_balance := (balance st + _calculate_open_pnl st bar)%Q in
  let '(exit_price, r) :=
    if String.eqb reason "stop_loss" then (pos_stop position, rng st)
    else if String.eqb reason "take_profit" then (pos_tp position, rng st)
    else simulate_fill cfg (opposite side) (bar_close bar) true (rng st) in
  let gross :=
    match side with
    | buy => ((exit_price - entry_price) * size * pos_instrument_multiplier position)%Q
    | sell => ((entry_price - exit_price) * size * pos_instrument_multiplier position)%Q
    end in
  let exit_commission := calculate_commission cfg exit_price size in
  let pnl := (gross - exit_commission)%Q in
  let balance' := (balance st + pnl)%Q in
  let total_fees := (pos_commission position + exit_commission)%Q in
  let max_dd_at_exit := min_drawdown (map snd (equity_curve_points st)) in
  let trade :=
    {| tr_index := length (trades st);
       tr_entry_ts := pos_entry_ts position;
       tr_exit_ts := ts;
       tr_side := side;
       tr_entry_price := entry_price;
       tr_exit_price := exit_price;
       tr_size := size;
       tr_pnl := pnl;
       tr_fees := total_fees;
       tr_cum_equity := balance';
       tr_exit_reason := reason;
       tr_meta := pos_meta position;
       tr_entry_balance := entry_balance;
       tr_exit_balance := balance';
       tr_risk_amount := pos_risk_amount position;
       tr_risk_pct := pos_risk_pct position;
       tr_max_drawdown_at_exit := Qabs max_dd_at_exit |} in
  mkState balance' (equity st) (trades st ++ [trade])
          (list_remove position (open_positions st))
          (equity_curve_points st) r.

(** The [if / elif] chain of [_check_exits] for one position. *)
Definition check_exit (cfg : Config) (bar : Bar) (ts : Z) (st : State) (pos : Position)
    : State :=
  let side := pos_side pos in
  if Side_eqb side buy && Qleb (bar_low bar) (pos_stop pos)
  then _exit_position cfg pos bar ts "stop_loss" st
  else if Side_eqb side sell && Qgeb (bar_high bar) (pos_stop pos)
  then _exit_position cfg pos bar ts "stop_loss" st
  else if Side_eqb side buy && Qgeb (bar_high bar) (pos_tp pos)
  then _exit_position cfg pos bar ts "take_profit" st
  else if Side_eqb side sell && Qleb (bar_low bar) (pos_tp pos)
  then _exit_position cfg pos bar ts "take_profit" st
  else st.

(** [for pos in self.open_positions[:]]: the loop runs over a copy taken
    before the first exit. *)
Definition _check_exits (cfg : Config) (bar : Bar) (ts : Z) (st : State) : State :=
  fold_left (check_exit cfg bar ts) (open_positions st) st.

(** ** [calculate_metrics] ([backtest/metrics.py]) *)

(** A float that may be [np.inf]. *)
Inductive xfloat :=
| Finite (q : Q)
| PosInf.

(** [np.isfinite]. *)
Definition isfinite (x : xfloat) : bool :=
  match x with Finite _ => true | PosInf => false end.

(** The fields of [MetricsResult] that are rational functions of the
    ledger and the equity series.  [sharpe_ratio] (a square root and a
    standard deviation) and [monthly_returns] (calendar arithmetic) are not
    embedded. *)
Record MetricsResult := mkMetrics {
  net_profit : Q;
  total_return_pct : Q;
  max_drawdown_pct : Q;
  max_drawdown_abs : Q;
  calmar_ratio : Q;
  win_rate : Q;
  profit_factor : xfloat;
  expectancy : Q;
  total_trades : nat;
  winning_trades : nat;
  losing_trades : nat;
  avg_win : Q;
  avg_loss : Q;
  largest_win : Q;
  largest_loss : Q;
  final_equity : Q
}.

Definition series_sum (xs : list Q) : Q := fold_left Qplus xs 0%Q.

Definition Qnat (n : nat) : Q := inject_Z (Z.of_nat n).

Definition series_mean (xs : list Q) : Q := (series_sum xs / Qnat (length xs))%Q.

(** The all-zero result shared by several paths; only [net_profit],
    [total_return_pct] and [final_equity] vary. *)
Definition flat_metrics (net ret final : Q) : MetricsResult :=
  {| net_profit := net; total_return_pct := ret;
     max_drawdown_pct := 0; max_drawdown_abs := 0; calmar_ratio := 0;
     win_rate := 0; profit_factor := Finite 0; expectancy := 0;
     total_trades := 0; winning_trades := 0; losing_trades := 0;
     avg_win := 0; avg_loss := 0; largest_win := 0; largest_loss := 0;
     final_equity := final |}.

(** The unguarded profit factor of line 127:
    [(gross_profit / gross_loss) if gross_loss > 0
     else (np.inf if gross_profit > 0 else 0.0)].
    A binary64 quotient too large for the format is [inf] as well, and
    [reported_profit_factor] then turns it into zero like the [np.inf] of
    the second branch; the quotient of [Q] is always finite. *)
Definition raw_profit_factor (gross_profit gross_loss : Q) : xfloat :=
  if Qgtb gross_loss 0 then Finite (gross_profit / gross_loss)
  else if Qgtb gross_profit 0 then PosInf
  else Finite 0.

(** [profit_factor if np.isfinite(profit_factor) else 0.0]. *)
Definition reported_profit_factor (pf : xfloat) : xfloat :=
  if isfinite pf then pf else Finite 0.

Definition gross_profit_of (pnls : list Q) : Q :=
  let wins := List.filter (fun p => Qgtb p 0) pnls in
  match wins with [] => 0%Q | _ => series_sum wins end.

Definition gross_loss_of (pnls : list Q) : Q :=
  let losses := List.filter (fun p => Qltb p 0) pnls in
  match losses with [] => 0%Q | _ => Qabs (series_sum losses) end.

(** [calculate_metrics(trades_df, equity_series, initial_balance)], with
    the frame of trades given by its [pnl] column. *)
Definition calculate_metrics (pnls : list Q) (equity_series : list Q)
    (initial : Q) : MetricsResult :=
  let final := List.last equity_series initial in
  let ret :=
    if Qeqb initial 0 then 0%Q else ((final - initial) / initial * 100)%Q in
  match pnls with
  | [] => flat_metrics (final - initial) ret final
  | _ =>
      let n := length pnls in
      let wins := List.filter (fun p => Qgtb p 0) pnls in
      let losses := List.filter (fun p => Qltb p 0) pnls in
      let rate :=
        if 0 <? n then (Qnat (length wins) / Qnat n * 100)%Q else 0%Q in
      let dd_abs :=
        match equity_series with [] => 0%Q | _ => min_drawdown equity_series end in
      let peak := default initial (series_max (cummax equity_series)) in
      let dd_pct :=
        match equity_series with
        | [] => 0%Q
        | _ => if Qeqb peak 0 then 0%Q else (Qabs dd_abs / peak * 100)%Q
        end in
      {| net_profit := series_sum pnls;
         total_return_pct := ret;
         max_drawdown_pct := dd_pct;
         max_drawdown_abs := Qabs dd_abs;
         calmar_ratio := if Qeqb dd_pct 0 then 0%Q else (ret / dd_pct)%Q;
         win_rate := rate;
         profit_factor :=
           reported_profit_factor
             (raw_profit_factor (gross_profit_of pnls) (gross_loss_of pnls));
         expectancy := if 0 <? n then series_mean pnls else 0%Q;
         total_trades := n;
         winning_trades := length wins;
         losing_trades := length losses;
         avg_win := match wins with [] => 0%Q | _ => series_mean wins end;
         avg_loss := match losses with [] => 0%Q | _ => series_mean losses end;
         largest_win := default 0%Q (series_max wins);
         largest_loss := default 0%Q (series_min losses);
         final_equity := final |}
  end.

(** ** [Backtester.run] *)

(** [Backtester._calculate_metrics]. *)
Definition _calculate_metrics (cfg : Config) (st : State) (equity_series : list Q)
    : MetricsResult :=
  match trades st with
  | [] => flat_metrics 0 0 (balance st)
  | _ =>
      let es :=
        match equity_series with
        | [] => map tr_cum_equity (trades st)
        | _ => equity_series
        end in
      calculate_metrics (map tr_pnl (trades st)) es (initial_balance cfg)
  end.

Record BacktestResult := mkResult {
  res_trades : list Trade;
  res_metrics : MetricsResult;
  res_equity_curve : list (Z * Q)
}.

(** [Backtester._empty_result]. *)
Definition _empty_result (cfg : Config) : BacktestResult :=
  {| res_trades := [];
     res_metrics := flat_metrics 0 0 (initial_balance cfg);
     res_equity_curve := [] |}.

(** [signals_by_ts.setdefault(ts, []).append(row)] over the rows. *)
Definition group_signals (signals : list Signal) : gmap Z (list Signal) :=
  fold_left
    (fun (m : gmap Z (list Signal)) row =>
       <[sig_ts row := default [] (m !! sig_ts row) ++ [row]]> m)
    signals ∅.

(** [for row in signals_by_ts[ts]], with the [break] on a full book. *)
Fixpoint enter_rows (cfg : Config) (rows : list Signal) (bar : Bar) (ts : Z)
    (st : State) : State :=
  match rows with
  | [] => st
  | row :: rest =>
      if (max_positions cfg <=? Z.of_nat (length (open_positions st)))%Z then st
      else enter_rows cfg rest bar ts (_enter_position cfg row bar ts st)
  end.

Definition enter_signals (cfg : Config) (signals_by_ts : gmap Z (list Signal))
    (bar : Bar) (ts : Z) (st : State) : State :=
  if (Z.of_nat (length (open_positions st)) <? max_positions cfg)%Z
  then match signals_by_ts !! ts with
       | Some rows => enter_rows cfg rows bar ts st
       | None => st
       end
  else st.

(** The equity update that closes an iteration. *)
Definition mark_to_market (bar : Bar) (ts : Z) (st : State) : State :=
  let eq := (balance st + _calculate_open_pnl st bar)%Q in
  mkState (balance st) eq (trades st) (open_positions st)
          (equity_curve_points st ++ [(ts, eq)]) (rng st).

(** One iteration of the main loop, up to the depletion test. *)
Definition process_bar (cfg : Config) (signals_by_ts : gmap Z (list Signal))
    (bar : Bar) (st : State) : State :=
  let ts := bar_ts bar in
  mark_to_market bar ts
    (enter_signals cfg signals_by_ts bar ts (_check_exits cfg bar ts st)).

Definition depleted (st : State) : bool :=
  Qleb (balance st) 0 || Qleb (equity st) 0.

(** [for i in range(len(ohlc))] with its [break]. *)
Fixpoint run_loop (cfg : Config) (signals_by_ts : gmap Z (list Signal))
    (bars : list Bar) (st : State) : State :=
  match bars with
  | [] => st
  | bar :: rest =>
      let st' := process_bar cfg signals_by_ts bar st in
      if depleted st' then st' else run_loop cfg signals_by_ts rest st'
  end.

(** The states at the end of each processed iteration, in order. *)
Fixpoint run_trace (cfg : Config) (signals_by_ts : gmap Z (list Signal))
    (bars : list Bar) (st : State) : list State :=
  match bars with
  | [] => []
  | bar :: rest =>
      let st' := process_bar cfg signals_by_ts bar st in
      st' :: (if depleted st' then [] else run_trace cfg signals_by_ts rest st')
  end.

(** The block under [# force close all]: [ohlc.iloc[-1]] is the last row of
    the frame. *)
Definition force_close (cfg : Config) (ohlc : list Bar) (st : State) : State :=
  let final_bar := last_bar ohlc in
  let final_ts := bar_ts final_bar in
  fold_left
    (fun s pos => _exit_position cfg pos final_bar final_ts "end_of_data" s)
    (open_positions st) st.

(** The state [run] starts its loop from. *)
Definition reset_state (cfg : Config) (r : RandomState) : State :=
  mkState (initial_balance cfg) (initial_balance cfg) [] [] [] r.

(** [Backtester.run] for a strategy that produced [signals].  The result is
    [None] where the source raises: an empty frame with a non-empty signal
    list reaches [pd.DataFrame([]).set_index("time")], a [KeyError]. *)
Definition run_with_signals (cfg : Config) (signals : list Signal)
    (ohlc : list Bar) (r : RandomState) : option BacktestResult :=
  match signals with
  | [] => Some (_empty_result cfg)
  | _ =>
      let st := run_loop cfg (group_signals signals) ohlc (reset_state cfg r) in
      let st := force_close cfg ohlc st in
      match equity_curve_points st with
      | [] => None
      | points =>
          Some {| res_trades := trades st;
                  res_metrics := _calculate_metrics cfg st (map snd points);
                  res_equity_curve := points |}
      end
  end.

Definition run {S : Type} `{Strategy S} (cfg : Config) (strategy : S)
    (ohlc : list Bar) (r : RandomState) : option BacktestResult :=
  run_with_signals cfg (strategy_generate_signals strategy ohlc) ohlc r.

(** ** The exit rule in the words of the design

    Stop-loss is looked at before take-profit; a long position stops out
    when the bar's low reaches the stop, a short one when the bar's high
    does; a long position takes profit when the bar's high reaches the
    target, a short one when the bar's low does. *)

Definition stop_hit (bar : Bar) (pos : Position) : bool :=
  match pos_side pos with
  | buy => Qleb (bar_low bar) (pos_stop pos)
  | sell => Qgeb (bar_high bar) (pos_stop pos)
  end.

Definition target_hit (bar : Bar) (pos : Position) : bool :=
  match pos_side pos with
  | buy => Qgeb (bar_high bar) (pos_tp pos)
  | sell => Qleb (bar_low bar) (pos_tp pos)
  end.

Definition exit_rule (bar : Bar) (pos : Position) : option string :=
  if stop_hit bar pos then Some "stop_loss"%string
  else if target_hit bar pos then Some "take_profit"%string
  else None.

(** [exit_reason] values the ledger may carry. *)
Definition exit_reasons : list string :=
  ["stop_loss"; "take_profit"; "end_of_data"; "signal_exit"]%string.

(** The risk of a signal as [generate_signals] computes it. *)
Definition signal_risk (s : Signal) : Q :=
  match sig_side s with
  | buy => (sig_price s - sig_stop s)%Q
  | sell => (sig_stop s - sig_price s)%Q
  end.

(** A strategy that hands back a prepared signal frame. *)
#[export] Instance PreparedSignals : Strategy (list Signal) := {
  strategy_generate_signals := fun signals _ => signals;
  strategy_validate_params := fun _ => true
}.

(** What one exit writes into the ledger, as the design words it: the
    position that left, why, and at which price (the stop level for a
    stop-loss, the target level for a take-profit). *)
Definition exit_event (bar : Bar) (pos : Position) : list (Z * Side * string * Q) :=
  match exit_rule bar pos with
  | Some r =>
      [(pos_entry_ts pos, pos_side pos, r,
        if String.eqb r "stop_loss" then pos_stop pos else pos_tp pos)]
  | None => []
  end.

Definition trade_event (t : Trade) : Z * Side * string * Q :=
  (tr_entry_ts t, tr_side t, tr_exit_reason t, tr_exit_price t).

Definition known_reason (t : Trade) : Prop := In (tr_exit_reason t) exit_reasons.

Definition ledger_known (st : State) : Prop := Forall known_reason (trades st).

Definition book_within_cap (cfg : Config) (st : State) : Prop :=
  (Z.of_nat (length (open_positions st)) <= max_positions cfg)%Z.

(** Bars whose close lies between low and high. *)
Definition well_formed_barb (b : Bar) : bool :=
  Qleb (bar_low b) (bar_close b) && Qleb (bar_close b) (bar_high b).

(** The stop distance of a position as [_enter_position] tests it,
    [abs(fill_price - stop_loss)] on the two values it then stores, and a
    book whose positions all have a positive one. *)
Definition positive_stop_distance (pos : Position) : Prop :=
  (0 < Qabs (pos_entry_price pos - pos_stop pos))%Q.

Definition book_guarded (st : State) : Prop :=
  Forall positive_stop_distance (open_positions st).

(** Positions the exit pass leaves in the book. *)
Definition stays_open (bar : Bar) (pos : Position) : bool :=
  match exit_rule bar pos with
  | Some _ => false
  | None => true
  end.

(** ** Scenarios *)

Definition bar_of (i : nat) (o h l c : Z) : Bar :=
  mkBar (Z.of_nat i) (inject_Z o) (inject_Z h) (inject_Z l) (inject_Z c).

(** A candle with equal open and close, one point of wick on each side. *)
Definition doji (i : nat) (c : Z) : Bar := bar_of i c (c + 1) (c - 1) c.

Fixpoint dojis (i : nat) (closes : list Z) : list Bar :=
  match closes with
  | [] => []
  | c :: rest => doji i c :: dojis (S i) rest
  end.

(** Scenario A.  A bearish candle (bar 2) followed by a three-candle bullish
    impulse (bars 3-5) that leaves both an order block and a fair value
    gap around 101; a plateau with a swing low of 108 at bar 16; bar 27
    sweeps below the swing low down to 101 and bar 28 closes back above. *)
Definition series_a : list Bar :=
  [ bar_of 0 100 101 99 100; bar_of 1 100 101 99 100; bar_of 2 101 101 99 99;
    bar_of 3 99 102 99 102; bar_of 4 103 106 103 106; bar_of 5 106 110 106 110 ]
  ++ dojis 6 (repeat 110%Z 10)
  ++ [ bar_of 16 110 111 108 110 ]
  ++ dojis 17 (repeat 110%Z 10)
  ++ [ bar_of 27 110 110 101 102; bar_of 28 102 110 102 110 ].

Definition params_a : Params :=
  {| lookback := 10; risk_reward := 2; atr_period := 1;
     min_impulse_bars := 3; min_impulse_atr := 2; ob_expansion_atr := 1 # 2;
     max_age_bars := 100; detection_strict := true;
     min_gap_atr := 1 # 2; fvg_expand_atr := 1 # 5;
     liquidity_grab_atr := 1 # 2;
     use_order_blocks := true; use_fvg := true; use_liquidity_grabs := true |}.

(** Scenario B.  A rising zig-zag (swing lows 104 and 108, swing highs 116
    and 120: a bullish structure), an early fair value gap around 99, and a
    last bar that falls into the gap and closes at 100, far below the last
    swing low: a change of character with no liquidity grab. *)
Definition closes_b : list Z :=
  [96; 96; 99; 102;
   115; 114; 113; 112; 111; 110; 109; 108; 107; 106;
   105;
   111; 112; 113; 114; 115;
   114; 113; 112; 111; 110;
   109;
   110; 111; 112; 113;
   119;
   118; 118; 117; 117; 117; 117; 117; 117; 117; 117]%Z.

Definition series_b : list Bar :=
  dojis 0 closes_b ++ [bar_of 41 117 117 99 100].

Definition params_b : Params := default_params 10 2 1.

(** Scenario C.  Four bars and one prepared buy signal on the second bar:
    entry 1.10, stop 1.00, target 1.50.  The third bar closes at 1.04
    without touching the stop; the fourth and last bar closes at 1.20.  The
    book holds a fixed size of two units. *)
Definition cents (i : nat) (o h l c : Z) : Bar :=
  mkBar (Z.of_nat i) (o # 100) (h # 100) (l # 100) (c # 100).

Definition series_c : list Bar :=
  [ cents 0 110 111 109 110; cents 1 110 111 109 110;
    cents 2 110 110 103 104; cents 3 104 121 104 120 ].

Definition signals_c : list Signal :=
  [ mkSignal 1 buy (110 # 100) (100 # 100) (150 # 100)
             (mkMeta "OB+ChoCH/LQ" RANGING 1) ].

Definition config_c : Config :=
  {| initial_balance := 10000;
     commission := 1 # 10000;
     slippage := 1 # 10000;
     spread := 2 # 10000;
     position_size := 2;
     max_positions := 1;
     instrument_multiplier := 100000 |}.

(** A generator whose every [random.random()] is [u]. *)
Definition constant_random (u : Q) : RandomState := mkRandom (fun _ => u) 0.

(** Scenario D.  Three bars, too few for the strategy to emit anything. *)
Definition series_d : list Bar :=
  [ cents 0 110 111 109 110; cents 1 110 111 109 110; cents 2 110 111 109 110 ].

(** Scenario E.  The bars of scenario A up to bar 26; bar 27 dips to 97 and
    closes at 100.6, the lower edge of the fair value gap left by bars 2-4;
    bar 28 does not move at all (open = high = low = close = 100.6); bar 29
    closes back at 110.  Order blocks are switched off. *)
Definition series_e : list Bar :=
  firstn 27 series_a
  ++ [ mkBar 27 110 110 97 (503 # 5);
       mkBar 28 (503 # 5) (503 # 5) (503 # 5) (503 # 5);
       mkBar 29 (503 # 5) 110 (503 # 5) 110 ].

Definition params_e : Params :=
  {| lookback := 10; risk_reward := 2; atr_period := 1;
     min_impulse_bars := 3; min_impulse_atr := 2; ob_expansion_atr := 1 # 2;
     max_age_bars := 100; detection_strict := true;
     min_gap_atr := 1 # 2; fvg_expand_atr := 1 # 5;
     liquidity_grab_atr := 1 # 2;
     use_order_blocks := false; use_fvg := true; use_liquidity_grabs := true |}.

(** Readable digests of signals, trades and results (prices reduced to
    lowest terms). *)
Definition signal_digest (s : Signal) : Z * Side * string :=
  (sig_ts s, sig_side s, meta_reason (sig_meta s)).

Definition signal_levels (s : Signal) : Q * Q * Q :=
  (Qred (sig_price s), Qred (sig_stop s), Qred (sig_tp s)).

Definition trade_digest (t : Trade) : Z * Z * string * Q * Q :=
  (tr_entry_ts t, tr_exit_ts t, tr_exit_reason t,
   Qred (tr_exit_price t), Qred (tr_pnl t)).

Definition curve_digest (res : BacktestResult) : list (Z * Q) :=
  map (fun p => (fst p, Qred (snd p))) (res_equity_curve res).

(** ** Notions used by the further properties *)

(** The order [swings.sort(key=lambda s: s.index)] establishes. *)
Definition swing_order (a b : SwingPoint) : Prop := sp_index a <= sp_index b.

(** The zone of a block around its candle [b]: the body in strict mode,
    the whole range otherwise. *)
Definition block_contains_candle (P : Params) (ob : OrderBlock) (b : Bar) : Prop :=
  if detection_strict P
  then (ob_price_bottom ob <= bar_open b)%Q /\ (bar_open b <= ob_price_top ob)%Q
       /\ (ob_price_bottom ob <= bar_close b)%Q /\ (bar_close b <= ob_price_top ob)%Q
  else (ob_price_bottom ob <= bar_low b)%Q /\ (bar_high b <= ob_price_top ob)%Q.

(** What [find_order_blocks] reports about one block. *)
Definition block_of_impulse (ohlc : list Bar) (P : Params) (ob : OrderBlock) : Prop :=
  exists i,
    atr_period P <= i /\ i + min_impulse_bars P < length ohlc
    /\ ob_start_idx ob < i /\ i - ob_start_idx ob <= max_age_bars P
    /\ ob_end_idx ob = i + min_impulse_bars P - 1
    /\ ob_start_ts ob = bar_ts (iat ohlc (ob_start_idx ob))
    /\ ob_end_ts ob = bar_ts (iat ohlc (ob_end_idx ob))
    /\ block_contains_candle P ob (iat ohlc (ob_start_idx ob))
    /\ match ob_type ob with
       | bullish =>
           is_bullish_candle (iat ohlc (ob_start_idx ob)) = false
           /\ (forall k, ob_start_idx ob < k <= ob_end_idx ob ->
                 is_bullish_candle (iat ohlc k) = true)
           /\ (min_impulse_atr P * atr_at (calculate_atr ohlc (atr_period P)) i
               <= bar_high (iat ohlc (ob_end_idx ob)) - bar_low (iat ohlc i))%Q
       | bearish =>
           is_bullish_candle (iat ohlc (ob_start_idx ob)) = true
           /\ (forall k, ob_start_idx ob < k <= ob_end_idx ob ->
                 is_bullish_candle (iat ohlc k) = false)
           /\ (min_impulse_atr P * atr_at (calculate_atr ohlc (atr_period P)) i
               <= bar_high (iat ohlc i) - bar_low (iat ohlc (ob_end_idx ob)))%Q
       end.

(** What [find_fvg] reports about one gap. *)
Definition gap_of_triplet (ohlc : list Bar) (P : Params) (g : FairValueGap) : Prop :=
  let i := fvg_start_idx g in
  atr_period P <= i /\ fvg_end_idx g = i + 2 /\ i + 2 < length ohlc
  /\ fvg_start_ts g = bar_ts (iat ohlc i)
  /\ fvg_end_ts g = bar_ts (iat ohlc (i + 2))
  /\ (0 < fvg_size_pips g)%Q
  /\ (fvg_gap_bottom g < fvg_gap_top g)%Q
  /\ match fvg_type g with
     | bullish =>
         (fvg_size_pips g == (bar_low (iat ohlc (i + 2)) - bar_high (iat ohlc i)) * 10000)%Q
     | bearish =>
         (fvg_size_pips g == (bar_low (iat ohlc i) - bar_high (iat ohlc (i + 2))) * 10000)%Q
     end.

(** What [detect_liquidity_grab] reports about one grab: the swing it
    sweeps, the breaching bar and the first bar that closes back. *)
Definition grab_of_swing (ohlc : list Bar) (atr : list Q) (lga : Q) (grb : nat)
    (sw : SwingPoint) (g : LiquidityGrab) : Prop :=
  let i := lg_grab_idx g in
  let j := i + lg_reclaim_bars g in
  lg_swing_idx g = sp_index sw /\ lg_swing_price g = sp_price sw
  /\ sp_index sw < i /\ i <= sp_index sw + 50
  /\ lg_timestamp g = bar_ts (iat ohlc i)
  /\ 1 <= lg_reclaim_bars g /\ lg_reclaim_bars g <= grb /\ j < length ohlc
  /\ match sp_swing_type sw with
     | HIGH =>
         lg_type g = bearish
         /\ lg_grab_price g = bar_high (iat ohlc i)
         /\ (sp_price sw + lga * atr_at atr i < lg_grab_price g)%Q
         /\ (bar_close (iat ohlc j) < sp_price sw)%Q
         /\ (forall k, i < k < j -> (sp_price sw <= bar_close (iat ohlc k))%Q)
     | LOW =>
         lg_type g = bullish
         /\ lg_grab_price g = bar_low (iat ohlc i)
         /\ (lg_grab_price g < sp_price sw - lga * atr_at atr i)%Q
         /\ (sp_price sw < bar_close (iat ohlc j))%Q
         /\ (forall k, i < k < j -> (bar_close (iat ohlc k) <= sp_price sw)%Q)
     end.

(** The grab type that confirms a side. *)
Definition grab_direction (side : Side) : Direction :=
  match side with buy => bullish | sell => bearish end.

(** What the loop body writes into a row emitted at bar view [v]. *)
Definition row_of_view (P : Params) (v : BarView) (s : Signal) : Prop :=
  sig_ts s = bv_ts v /\ sig_price s = bv_price v
  /\ meta_trend (sig_meta s) = bv_trend v
  /\ (sig_tp s - sig_price s == risk_reward P * (sig_price s - sig_stop s))%Q.

(** A signal of the frame, the bar [i] it is stamped with, and the sweep
    that confirmed it. *)
Definition confirmed_by_later_close (P : Params) (ohlc : list Bar) (s : Signal) : Prop :=
  exists i g sw,
    min_bars P <= i /\ i + 1 < length ohlc
    /\ sig_ts s = bar_ts (iat ohlc i)
    /\ sig_price s = bar_close (iat ohlc i)
    /\ (sig_tp s - sig_price s == risk_reward P * (sig_price s - sig_stop s))%Q
    /\ In sw (ms_swings (detect_market_structure ohlc (lookback P)))
    /\ grab_of_swing ohlc (calculate_atr ohlc (atr_period P)) (liquidity_grab_atr P) 3 sw g
    /\ lg_grab_idx g = i
    /\ lg_type g = grab_direction (sig_side s).

(** Two emitting bars, each with its rows, that respect the cool-off. *)
Definition five_bars_apart (a b : nat * list Signal) : Prop := fst a + 5 <= fst b.

(** What a fill costs against the mid price: paid above it by a buyer,
    received below it by a seller. *)
Definition fill_cost (side : Side) (price fill : Q) : Q :=
  match side with
  | buy => (fill - price)%Q
  | sell => (price - fill)%Q
  end.

(** [random.random()] lies in the unit interval. *)
Definition unit_draw (r : RandomState) : Prop :=
  (0 <= random_values r (random_taken r))%Q /\ (random_values r (random_taken r) <= 1)%Q.

(** The position [_enter_position] appends for [signal] in state [st]. *)
Definition opened_by (cfg : Config) (signal : Signal) (ts : Z) (st : State)
    (pos : Position) : Prop :=
  pos_side pos = sig_side signal /\ pos_entry_ts pos = ts
  /\ pos_entry_price pos
     = fst (simulate_fill cfg (sig_side signal) (sig_price signal) true (rng st))
  /\ pos_stop pos = sig_stop signal /\ pos_tp pos = sig_tp signal
  /\ pos_meta pos = sig_meta signal
  /\ pos_instrument_multiplier pos = instrument_multiplier cfg
  /\ pos_commission pos = calculate_commission cfg (pos_entry_price pos) (pos_size pos)
  /\ (0 < pos_size pos)%Q
  /\ (0 < Qabs (pos_entry_price pos - pos_stop pos))%Q
  /\ (pos_risk_amount pos
      == Qabs (pos_entry_price pos - pos_stop pos) * pos_size pos
         * instrument_multiplier cfg)%Q
  /\ (if Qleb (position_size cfg) 1
      then pos_risk_amount pos = (balance st * position_size cfg)%Q
      else pos_size pos = position_size cfg).

(** What a ledger entry says about itself: the result is the price move in
    the direction of the trade times size and instrument multiplier, less
    the exit commission; the fees are the commissions on the entry and on
    the exit notional. *)
Definition trade_recomputes (cfg : Config) (t : Trade) : Prop :=
  (tr_pnl t
   == match tr_side t with
      | buy => tr_exit_price t - tr_entry_price t
      | sell => tr_entry_price t - tr_exit_price t
      end * tr_size t * instrument_multiplier cfg
      - calculate_commission cfg (tr_exit_price t) (tr_size t))%Q
  /\ (tr_fees t
      == calculate_commission cfg (tr_entry_price t) (tr_size t)
         + calculate_commission cfg (tr_exit_price t) (tr_size t))%Q
  /\ tr_cum_equity t = tr_exit_balance t
  /\ (0 < tr_size t)%Q.

(** A position as [_enter_position] books it. *)
Definition booked_by (cfg : Config) (pos : Position) : Prop :=
  pos_instrument_multiplier pos = instrument_multiplier cfg
  /\ pos_commission pos = calculate_commission cfg (pos_entry_price pos) (pos_size pos)
  /\ (0 < pos_size pos)%Q.

(** [Trade.index] counts the ledger entries from zero. *)
Definition ledger_numbered (st : State) : Prop :=
  map tr_index (trades st) = seq 0 (length (trades st)).

(** The ledger is numbered and every entry recomputes. *)
Definition ledger_inv (cfg : Config) (st : State) : Prop :=
  ledger_numbered st /\ Forall (trade_recomputes cfg) (trades st).

(** The commission a ledger entry paid at its entry: its fees less the
    commission on its exit. *)
Definition entry_commission (cfg : Config) (t : Trade) : Q :=
  (tr_fees t - calculate_commission cfg (tr_exit_price t) (tr_size t))%Q.

(** The entry commissions of the positions still in the book. *)
Definition open_fees (st : State) : Q :=
  series_sum (map pos_commission (open_positions st)).

(** The balance, with the entry commissions of the open positions added
    back, is the initial balance plus the results of the ledger less the
    entry commissions of its entries. *)
Definition balance_inv (cfg : Config) (st : State) : Prop :=
  (balance st + open_fees st
   == initial_balance cfg + series_sum (map tr_pnl (trades st))
      - series_sum (map (entry_commission cfg) (trades st)))%Q.

(** The rows of the signal frame stamped [t], in frame order. *)
Definition rows_at (signals : list Signal) (t : Z) : list Signal :=
  List.filter (fun s => (sig_ts s =? t)%Z) signals.

(** A position of the book and the row of the signal frame it was opened
    for at time [ts]. *)
Definition entered_for (rows : list Signal) (ts : Z) (pos : Position) : Prop :=
  pos_entry_ts pos = ts
  /\ exists s,
       In s rows /\ pos_side pos = sig_side s
       /\ pos_stop pos = sig_stop s /\ pos_tp pos = sig_tp s.

(** The price of bar [b] a zone is tested against: the low for a buy, the
    high for a sell. *)
Definition touch_price (side : Side) (b : Bar) : Q :=
  match side with buy => bar_low b | sell => bar_high b end.

(** A row of the signal frame, the bar [i] it is stamped with and the zone
    it entered on. *)
Definition from_earlier_zone (P : Params) (ohlc : list Bar) (s : Signal) : Prop :=
  exists i,
    i < length ohlc /\ sig_ts s = bar_ts (iat ohlc i)
    /\ match sig_side s with
       | buy =>
           (sig_stop s
            <= bar_low (iat ohlc i)
               - (3 # 10) * atr_at (calculate_atr ohlc (atr_period P)) i)%Q
       | sell =>
           (bar_high (iat ohlc i)
            + (3 # 10) * atr_at (calculate_atr ohlc (atr_period P)) i
            <= sig_stop s)%Q
       end
    /\ ((exists ob,
           use_order_blocks P = true /\ In ob (find_order_blocks ohlc P)
           /\ ob_type ob = grab_direction (sig_side s) /\ ob_end_idx ob < i
           /\ (ob_price_bottom ob <= touch_price (sig_side s) (iat ohlc i))%Q
           /\ (touch_price (sig_side s) (iat ohlc i) <= ob_price_top ob)%Q
           /\ meta_reason (sig_meta s) = "OB+ChoCH/LQ"%string
           /\ meta_strength (sig_meta s) = ob_strength ob)
        \/ (exists g,
              use_fvg P = true /\ In g (find_fvg ohlc P)
              /\ fvg_type g = grab_direction (sig_side s) /\ fvg_end_idx g < i
              /\ (fvg_gap_bottom g <= touch_price (sig_side s) (iat ohlc i))%Q
              /\ (touch_price (sig_side s) (iat ohlc i) <= fvg_gap_top g)%Q
              /\ meta_reason (sig_meta s) = "FVG+ChoCH/LQ"%string
              /\ meta_strength (sig_meta s) = fvg_size_pips g)).

(** * Properties *)

(** ** Boolean comparisons of prices *)

Lemma Qleb_le (x y : Q) : Qleb x y = true <-> (x <= y)%Q.
Proof. unfold Qleb. apply Qle_bool_iff. Qed.

Lemma Qleb_gt (x y : Q) : Qleb x y = false <-> (y < x)%Q.
Proof.
  unfold Qleb. split; intros H.
  - apply Qnot_le_lt. intros Hle. apply Qle_bool_iff in Hle. congruence.
  - destruct (Qle_bool x y) eqn:E; [|reflexivity].
    apply Qle_bool_iff in E. exfalso. apply (Qlt_not_le _ _ H E).
Qed.

Lemma Qltb_lt (x y : Q) : Qltb x y = true <-> (x < y)%Q.
Proof.
  unfold Qltb. rewrite negb_true_iff. apply (Qleb_gt y x).
Qed.

Lemma Qltb_ge (x y : Q) : Qltb x y = false <-> (y <= x)%Q.
Proof.
  unfold Qltb. rewrite negb_false_iff. apply (Qleb_le y x).
Qed.

Lemma Qgtb_gt (x y : Q) : Qgtb x y = true <-> (y < x)%Q.
Proof. unfold Qgtb. apply Qltb_lt. Qed.

Lemma Qgtb_le (x y : Q) : Qgtb x y = false <-> (x <= y)%Q.
Proof. unfold Qgtb. apply Qltb_ge. Qed.

Lemma Qgeb_ge (x y : Q) : Qgeb x y = true <-> (y <= x)%Q.
Proof. unfold Qgeb. apply Qle_bool_iff. Qed.

Lemma Qgeb_lt (x y : Q) : Qgeb x y = false <-> (x < y)%Q.
Proof. unfold Qgeb. apply (Qleb_gt y x). Qed.

Lemma Qeqb_eq (x y : Q) : Qeqb x y = true <-> (x == y)%Q.
Proof. unfold Qeqb. apply Qeq_bool_iff. Qed.

Lemma qmax_cases (x y : Q) :
  ((x < y)%Q /\ qmax x y = y) \/ ((y <= x)%Q /\ qmax x y = x).
Proof.
  unfold qmax. destruct (Qgtb y x) eqn:E.
  - left. apply Qgtb_gt in E. auto.
  - right. apply Qgtb_le in E. auto.
Qed.

Lemma qmin_cases (x y : Q) :
  ((y < x)%Q /\ qmin x y = y) \/ ((x <= y)%Q /\ qmin x y = x).
Proof.
  unfold qmin. destruct (Qltb y x) eqn:E.
  - left. apply Qltb_lt in E. auto.
  - right. apply Qltb_ge in E. auto.
Qed.

Lemma Qabs_cases (x : Q) :
  ((0 <= x)%Q /\ (Qabs x == x)%Q) \/ ((x < 0)%Q /\ (Qabs x == - x)%Q).
Proof.
  destruct (Qlt_le_dec x 0) as [H | H].
  - right. split; [assumption|]. apply Qabs_neg. apply Qlt_le_weak. assumption.
  - left. split; [assumption|]. apply Qabs_pos. assumption.
Qed.

(** ** The metrics engine *)

Section Metrics.

Variables (pnls equity_series : list Q) (initial : Q).

Lemma reported_profit_factor_finite (pf : xfloat) :
  isfinite (reported_profit_factor pf) = true.
Proof. destruct pf; reflexivity. Qed.

Lemma reported_raw_profit_factor (gp gl : Q) :
  reported_profit_factor (raw_profit_factor gp gl)
  = if Qgtb gl 0 then Finite (gp / gl) else Finite 0.
Proof.
  unfold raw_profit_factor. destruct (Qgtb gl 0); [reflexivity|].
  destruct (Qgtb gp 0); reflexivity.
Qed.

Lemma gross_loss_of_nil : gross_loss_of [] = 0%Q.
Proof. reflexivity. Qed.

Lemma calculate_metrics_profit_factor :
  profit_factor (calculate_metrics pnls equity_series initial)
  = if Qgtb (gross_loss_of pnls) 0
    then Finite (gross_profit_of pnls / gross_loss_of pnls)
    else Finite 0.
Proof.
  unfold calculate_metrics. destruct pnls as [|p rest].
  - reflexivity.
  - cbn [profit_factor]. apply reported_raw_profit_factor.
Qed.

Lemma calculate_metrics_total_trades :
  total_trades (calculate_metrics pnls equity_series initial) = length pnls.
Proof. unfold calculate_metrics. destruct pnls; reflexivity. Qed.

End Metrics.

(** *** Gross profit and gross loss *)

Lemma series_sum_from (l : list Q) :
  forall a, (fold_left Qplus l a == a + series_sum l)%Q.
Proof.
  unfold series_sum. induction l as [|x rest IH]; intros a; cbn [fold_left].
  - ring.
  - rewrite (IH (a + x)%Q), (IH (0 + x)%Q). ring.
Qed.

Lemma series_sum_app (l1 l2 : list Q) :
  (series_sum (l1 ++ l2) == series_sum l1 + series_sum l2)%Q.
Proof.
  unfold series_sum at 1. rewrite fold_left_app. rewrite series_sum_from.
  fold (series_sum l1). reflexivity.
Qed.

Lemma series_sum_cons (x : Q) (l : list Q) : (series_sum (x :: l) == x + series_sum l)%Q.
Proof.
  change (x :: l) with ([x] ++ l). rewrite series_sum_app.
  unfold series_sum at 1. cbn [fold_left]. ring.
Qed.

Lemma series_sum_snoc (l : list Q) (x : Q) : (series_sum (l ++ [x]) == series_sum l + x)%Q.
Proof. rewrite series_sum_app. unfold series_sum at 2. cbn. ring. Qed.

Lemma series_sum_sign (l : list Q) :
  (Forall (fun p => (0 < p)%Q) l -> (0 <= series_sum l)%Q)
  /\ (Forall (fun p => (p < 0)%Q) l -> (series_sum l <= 0)%Q).
Proof.
  induction l as [|p rest [IH1 IH2]]; [unfold series_sum; cbn; split; intros _; lra|].
  split; intros H; inversion H as [|? ? Hp Hrest]; subst; rewrite series_sum_cons.
  - specialize (IH1 Hrest). lra.
  - specialize (IH2 Hrest). lra.
Qed.

Lemma filter_forall {A : Type} (f : A -> bool) (l : list A) :
  Forall (fun x => f x = true) (List.filter f l).
Proof. apply List.Forall_forall. intros x Hx. apply List.filter_In in Hx. tauto. Qed.

Lemma losses_negative (pnls : list Q) :
  Forall (fun p => (p < 0)%Q) (List.filter (fun p => Qltb p 0) pnls).
Proof.
  eapply List.Forall_impl; [|apply filter_forall].
  cbn. intros p Hp. apply Qltb_lt. exact Hp.
Qed.

Lemma gross_profit_filter (pnls : list Q) :
  gross_profit_of pnls = series_sum (List.filter (fun p => Qgtb p 0) pnls).
Proof. unfold gross_profit_of. destruct (List.filter _ pnls); reflexivity. Qed.

Lemma gross_loss_filter (pnls : list Q) :
  gross_loss_of pnls = Qabs (series_sum (List.filter (fun p => Qltb p 0) pnls)).
Proof. unfold gross_loss_of. destruct (List.filter _ pnls); reflexivity. Qed.

Lemma gross_profit_sum (pnls : list Q) :
  (gross_profit_of pnls == series_sum (List.filter (fun p => Qgtb p 0) pnls))%Q.
Proof. rewrite gross_profit_filter. reflexivity. Qed.

Lemma gross_loss_sum (pnls : list Q) :
  (gross_loss_of pnls == - series_sum (List.filter (fun p => Qltb p 0) pnls))%Q.
Proof.
  rewrite gross_loss_filter. apply Qabs_neg.
  apply series_sum_sign, losses_negative.
Qed.

Lemma gross_profit_cons (p : Q) (rest : list Q) :
  (gross_profit_of (p :: rest)
   == (if Qgtb p 0 then p else 0) + gross_profit_of rest)%Q.
Proof.
  rewrite !gross_profit_sum. cbn [List.filter].
  destruct (Qgtb p 0); [rewrite series_sum_cons|]; ring.
Qed.

Lemma gross_loss_cons (p : Q) (rest : list Q) :
  (gross_loss_of (p :: rest)
   == (if Qltb p 0 then - p else 0) + gross_loss_of rest)%Q.
Proof.
  rewrite !gross_loss_sum. cbn [List.filter].
  destruct (Qltb p 0); [rewrite series_sum_cons|]; ring.
Qed.

Lemma gross_loss_nonneg (pnls : list Q) : (0 <= gross_loss_of pnls)%Q.
Proof.
  induction pnls as [|p rest IH]; [cbn; lra|].
  rewrite gross_loss_cons. destruct (Qltb p 0) eqn:E; [|lra].
  apply Qltb_lt in E. lra.
Qed.

Lemma gross_loss_positive (pnls : list Q) :
  Qgtb (gross_loss_of pnls) 0 = true <-> exists p, In p pnls /\ (p < 0)%Q.
Proof.
  rewrite Qgtb_gt. induction pnls as [|p rest IH].
  - split; [cbn; intros H; lra | intros (p & [] & _)].
  - rewrite gross_loss_cons. pose proof (gross_loss_nonneg rest) as Hge.
    destruct (Qltb p 0) eqn:E.
    + apply Qltb_lt in E. split; [intros _; exists p; split; [left; reflexivity | exact E]|].
      intros _. lra.
    + apply Qltb_ge in E. split.
      * intros H. destruct (proj1 IH) as (q & Hq & Hneg); [lra|].
        exists q. split; [right; exact Hq | exact Hneg].
      * intros (q & [<- | Hq] & Hneg); [lra|].
        assert (H : (0 < gross_loss_of rest)%Q) by (apply IH; exists q; auto). lra.
Qed.

(** C9.  The reported profit factor is gross profit over gross loss when
    there are losses, is zero (and never infinite) when there are none,
    whatever the gross profit, and is zero with no trades at all; the win
    rate is zero when the number of trades is zero.  The same holds for the
    result the backtester builds when its ledger is empty.  Gross profit
    is the sum of the results above zero and gross loss the absolute value
    of the sum of the results below zero, that is the sum of their
    magnitudes; the loss is positive exactly when some result is below
    zero; and the backtester computes its metrics on the [pnl] column of
    its ledger. *)
Theorem C9_profit_factor_and_win_rate :
  forall (pnls equity_series : list Q) (initial : Q),
    let m := calculate_metrics pnls equity_series initial in
    profit_factor m
      = (if Qgtb (gross_loss_of pnls) 0
         then Finite (gross_profit_of pnls / gross_loss_of pnls)
         else Finite 0)
    /\ isfinite (profit_factor m) = true
    /\ (total_trades m = 0 -> profit_factor m = Finite 0 /\ win_rate m = 0%Q)
    /\ profit_factor (calculate_metrics [] equity_series initial) = Finite 0
    /\ win_rate (calculate_metrics [] equity_series initial) = 0%Q
    /\ (forall cfg st es,
          trades st = [] ->
          profit_factor (_calculate_metrics cfg st es) = Finite 0
          /\ win_rate (_calculate_metrics cfg st es) = 0%Q)
    /\ (forall cfg,
          profit_factor (res_metrics (_empty_result cfg)) = Finite 0
          /\ win_rate (res_metrics (_empty_result cfg)) = 0%Q)
    /\ gross_profit_of pnls
       = fold_left Qplus (List.filter (fun p => Qgtb p 0) pnls) 0%Q
    /\ gross_loss_of pnls
       = Qabs (fold_left Qplus (List.filter (fun p => Qltb p 0) pnls) 0%Q)
    /\ (forall p, Qgtb p 0 = true <-> (0 < p)%Q)
    /\ (forall p, Qltb p 0 = true <-> (p < 0)%Q)
    /\ gross_profit_of [] = 0%Q
    /\ gross_loss_of [] = 0%Q
    /\ (forall p rest,
          (gross_profit_of (p :: rest)
           == (if Qgtb p 0 then p else 0) + gross_profit_of rest)%Q)
    /\ (forall p rest,
          (gross_loss_of (p :: rest)
           == (if Qltb p 0 then - p else 0) + gross_loss_of rest)%Q)
    /\ (Qgtb (gross_loss_of pnls) 0 = true <-> exists p, In p pnls /\ (p < 0)%Q)
    /\ ((forall p, In p pnls -> (0 <= p)%Q) -> profit_factor m = Finite 0)
    /\ total_trades m = length pnls
    /\ (forall cfg st es,
          trades st <> [] ->
          profit_factor (_calculate_metrics cfg st es)
          = (if Qgtb (gross_loss_of (map tr_pnl (trades st))) 0
             then Finite (gross_profit_of (map tr_pnl (trades st))
                          / gross_loss_of (map tr_pnl (trades st)))
             else Finite 0)
          /\ total_trades (_calculate_metrics cfg st es) = length (trades st)).
Proof.
  intros pnls es initial m. subst m.
  split; [apply calculate_metrics_profit_factor|].
  split.
  { rewrite calculate_metrics_profit_factor.
    destruct (Qgtb (gross_loss_of pnls) 0); reflexivity. }
  split.
  { rewrite calculate_metrics_total_trades. intros Hlen.
    destruct pnls; [split; reflexivity | discriminate]. }
  split; [reflexivity|]. split; [reflexivity|]. split.
  { intros cfg st es' Hnil. unfold _calculate_metrics. rewrite Hnil.
    split; reflexivity. }
  split. { intros cfg. split; reflexivity. }
  split; [apply gross_profit_filter|].
  split; [apply gross_loss_filter|].
  split; [intros p; apply Qgtb_gt|].
  split; [intros p; apply Qltb_lt|].
  split; [reflexivity|]. split; [reflexivity|].
  split; [apply gross_profit_cons|].
  split; [apply gross_loss_cons|].
  split; [apply gross_loss_positive|].
  split.
  { intros Hall. rewrite calculate_metrics_profit_factor.
    destruct (Qgtb (gross_loss_of pnls) 0) eqn:E; [|reflexivity].
    apply gross_loss_positive in E. destruct E as (p & Hp & Hneg).
    specialize (Hall p Hp). lra. }
  split; [apply calculate_metrics_total_trades|].
  intros cfg st es' Hne. unfold _calculate_metrics.
  destruct (trades st) as [|t rest] eqn:Et; [exfalso; apply Hne; reflexivity|].
  split.
  - apply calculate_metrics_profit_factor.
  - rewrite calculate_metrics_total_trades. apply length_map.
Qed.

(** ** The position lifecycle *)

Section Lifecycle.

Variable cfg : Config.

Lemma list_remove_length (x : Position) (l : list Position) :
  length (list_remove x l) <= length l.
Proof.
  induction l as [|y rest IH]; simpl; [lia|].
  destruct (Position_eqb y x); simpl; lia.
Qed.

Lemma exit_position_trades pos bar ts reason st :
  exists t,
    trades (_exit_position cfg pos bar ts reason st) = trades st ++ [t]
    /\ tr_exit_reason t = reason
    /\ tr_entry_ts t = pos_entry_ts pos
    /\ tr_side t = pos_side pos
    /\ tr_exit_ts t = ts
    /\ (reason = "stop_loss"%string -> tr_exit_price t = pos_stop pos)
    /\ (reason = "take_profit"%string -> tr_exit_price t = pos_tp pos).
Proof.
  unfold _exit_position.
  destruct (String.eqb reason "stop_loss") eqn:E1.
  - eexists. cbn [trades]. split; [reflexivity|]. cbn.
    repeat split; try reflexivity.
    intros ->. discriminate.
  - destruct (String.eqb reason "take_profit") eqn:E2.
    + eexists. cbn [trades]. split; [reflexivity|]. cbn.
      repeat split; try reflexivity.
      intros ->. discriminate.
    + destruct (simulate_fill cfg (opposite (pos_side pos)) (bar_close bar) true (rng st))
        as [px r] eqn:Ef.
      eexists. cbn [trades]. split; [reflexivity|]. cbn.
      repeat split; try reflexivity.
      * intros ->. discriminate.
      * intros ->. discriminate.
Qed.

Lemma exit_position_open pos bar ts reason st :
  open_positions (_exit_position cfg pos bar ts reason st)
  = list_remove pos (open_positions st).
Proof.
  unfold _exit_position.
  destruct (String.eqb reason "stop_loss"); [reflexivity|].
  destruct (String.eqb reason "take_profit"); [reflexivity|].
  destruct (simulate_fill cfg (opposite (pos_side pos)) (bar_close bar) true (rng st)).
  reflexivity.
Qed.

Lemma exit_position_curve pos bar ts reason st :
  equity_curve_points (_exit_position cfg pos bar ts reason st)
  = equity_curve_points st.
Proof.
  unfold _exit_position.
  destruct (String.eqb reason "stop_loss"); [reflexivity|].
  destruct (String.eqb reason "take_profit"); [reflexivity|].
  destruct (simulate_fill cfg (opposite (pos_side pos)) (bar_close bar) true (rng st)).
  reflexivity.
Qed.

(** The [if / elif] chain is the rule "stop first, then target". *)
Lemma check_exit_rule bar ts st pos :
  check_exit cfg bar ts st pos
  = match exit_rule bar pos with
    | Some r => _exit_position cfg pos bar ts r st
    | None => st
    end.
Proof.
  unfold check_exit, exit_rule, stop_hit, target_hit.
  destruct (pos_side pos); cbn [Side_eqb andb].
  - destruct (Qleb (bar_low bar) (pos_stop pos)); [reflexivity|].
    destruct (Qgeb (bar_high bar) (pos_tp pos)); reflexivity.
  - destruct (Qgeb (bar_high bar) (pos_stop pos)); [reflexivity|].
    destruct (Qleb (bar_low bar) (pos_tp pos)); reflexivity.
Qed.

Lemma exit_rule_reason bar pos r :
  exit_rule bar pos = Some r -> r = "stop_loss"%string \/ r = "take_profit"%string.
Proof.
  unfold exit_rule. destruct (stop_hit bar pos).
  - intros [= <-]. auto.
  - destruct (target_hit bar pos); [intros [= <-]; auto | discriminate].
Qed.

Lemma check_exit_trades bar ts st pos :
  exists new,
    trades (check_exit cfg bar ts st pos) = trades st ++ new
    /\ map trade_event new = exit_event bar pos.
Proof.
  rewrite check_exit_rule. unfold exit_event.
  destruct (exit_rule bar pos) as [r|] eqn:E.
  - destruct (exit_position_trades pos bar ts r st)
      as (t & Ht & Hr & Hts & Hside & _ & Hstop & Htp).
    exists [t]. split; [assumption|].
    unfold trade_event. cbn. rewrite Hr, Hts, Hside.
    destruct (exit_rule_reason _ _ _ E) as [-> | ->].
    + rewrite (Hstop eq_refl). reflexivity.
    + rewrite (Htp eq_refl). reflexivity.
  - exists []. rewrite app_nil_r. auto.
Qed.

Lemma check_exits_fold_trades bar ts (l : list Position) :
  forall st, exists new,
    trades (fold_left (check_exit cfg bar ts) l st) = trades st ++ new
    /\ map trade_event new = flat_map (exit_event bar) l.
Proof.
  induction l as [|pos rest IH]; intros st; cbn [fold_left flat_map].
  - exists []. rewrite app_nil_r. auto.
  - destruct (check_exit_trades bar ts st pos) as (n1 & H1 & E1).
    destruct (IH (check_exit cfg bar ts st pos)) as (n2 & H2 & E2).
    exists (n1 ++ n2). rewrite H2, H1, <- app_assoc. split; [reflexivity|].
    rewrite map_app, E1, E2. reflexivity.
Qed.

Lemma check_exit_open_length bar ts st pos :
  length (open_positions (check_exit cfg bar ts st pos))
  <= length (open_positions st).
Proof.
  rewrite check_exit_rule. destruct (exit_rule bar pos); [|lia].
  rewrite exit_position_open. apply list_remove_length.
Qed.

Lemma fold_check_exit_open_length bar ts (l : list Position) :
  forall st,
    length (open_positions (fold_left (check_exit cfg bar ts) l st))
    <= length (open_positions st).
Proof.
  induction l as [|pos rest IH]; intros st; cbn [fold_left]; [lia|].
  etransitivity; [apply IH | apply check_exit_open_length].
Qed.

Lemma check_exits_open_length bar ts st :
  length (open_positions (_check_exits cfg bar ts st))
  <= length (open_positions st).
Proof. apply fold_check_exit_open_length. Qed.

Lemma fold_check_exit_curve bar ts (l : list Position) :
  forall st,
    equity_curve_points (fold_left (check_exit cfg bar ts) l st)
    = equity_curve_points st.
Proof.
  induction l as [|pos rest IH]; intros st; cbn [fold_left]; [reflexivity|].
  rewrite IH, check_exit_rule.
  destruct (exit_rule bar pos); [apply exit_position_curve | reflexivity].
Qed.

Lemma exit_event_length bar pos : length (exit_event bar pos) <= 1.
Proof. unfold exit_event. destruct (exit_rule bar pos); simpl; lia. Qed.

Lemma flat_map_exit_event_length bar (l : list Position) :
  length (flat_map (exit_event bar) l) <= length l.
Proof.
  induction l as [|p rest IH]; cbn [flat_map length]; [lia|].
  rewrite length_app. pose proof (exit_event_length bar p). lia.
Qed.

End Lifecycle.

(** ** The backtest loop *)

Section Loop.

Variable cfg : Config.

Lemma enter_position_cases signal bar ts st :
  let st' := _enter_position cfg signal bar ts st in
  trades st' = trades st
  /\ equity_curve_points st' = equity_curve_points st
  /\ (open_positions st' = open_positions st
      \/ exists pos,
           open_positions st' = open_positions st ++ [pos]
           /\ (0 < Qabs (pos_entry_price pos - pos_stop pos))%Q
           /\ pos_stop pos = sig_stop signal
           /\ pos_side pos = sig_side signal).
Proof.
  unfold _enter_position.
  destruct (simulate_fill cfg (sig_side signal) (sig_price signal) true (rng st))
    as [fill r] eqn:Ef.
  cbn zeta. cbn [balance equity trades open_positions equity_curve_points rng set_rng].
  destruct (Qleb (Qabs (fill - sig_stop signal)) 0) eqn:Hd.
  { cbn. auto. }
  apply Qleb_gt in Hd.
  match goal with
  | |- context [match ?s with Some _ => _ | None => _ end] => destruct s as [[size risk]|]
  end.
  - destruct (Qleb size 0).
    + cbn. auto.
    + cbn. split; [reflexivity|]. split; [reflexivity|]. right.
      eexists. split; [reflexivity|]. cbn. auto.
  - cbn. auto.
Qed.

Lemma enter_position_length signal bar ts st :
  length (open_positions (_enter_position cfg signal bar ts st))
  <= S (length (open_positions st)).
Proof.
  destruct (enter_position_cases signal bar ts st) as (_ & _ & [H | (pos & H & _)]);
    rewrite H; [lia|]. rewrite length_app. simpl. lia.
Qed.

Lemma enter_rows_trades rows bar ts :
  forall st,
    trades (enter_rows cfg rows bar ts st) = trades st
    /\ equity_curve_points (enter_rows cfg rows bar ts st) = equity_curve_points st.
Proof.
  induction rows as [|row rest IH]; intros st; cbn [enter_rows]; [auto|].
  destruct (max_positions cfg <=? Z.of_nat (length (open_positions st)))%Z; [auto|].
  destruct (IH (_enter_position cfg row bar ts st)) as [H1 H2].
  destruct (enter_position_cases row bar ts st) as (H3 & H4 & _).
  rewrite H1, H2. auto.
Qed.

Lemma enter_rows_cap rows bar ts :
  forall st, book_within_cap cfg st -> book_within_cap cfg (enter_rows cfg rows bar ts st).
Proof.
  unfold book_within_cap.
  induction rows as [|row rest IH]; intros st Hst; cbn [enter_rows]; [assumption|].
  destruct (max_positions cfg <=? Z.of_nat (length (open_positions st)))%Z eqn:E;
    [assumption|].
  apply Z.leb_gt in E. apply IH.
  pose proof (enter_position_length row bar ts st). lia.
Qed.

Lemma enter_signals_cap sbt bar ts st :
  book_within_cap cfg st -> book_within_cap cfg (enter_signals cfg sbt bar ts st).
Proof.
  intros Hst. unfold enter_signals.
  destruct (Z.of_nat (length (open_positions st)) <? max_positions cfg)%Z; [|assumption].
  destruct (sbt !! ts); [apply enter_rows_cap|]; assumption.
Qed.

(** A full book takes no entry. *)
Lemma enter_signals_full sbt bar ts st :
  (max_positions cfg <= Z.of_nat (length (open_positions st)))%Z ->
  enter_signals cfg sbt bar ts st = st.
Proof.
  intros H. unfold enter_signals.
  destruct (Z.of_nat (length (open_positions st)) <? max_positions cfg)%Z eqn:E;
    [|reflexivity].
  apply Z.ltb_lt in E. lia.
Qed.

Lemma enter_rows_full rows bar ts st :
  (max_positions cfg <= Z.of_nat (length (open_positions st)))%Z ->
  enter_rows cfg rows bar ts st = st.
Proof.
  intros H. destruct rows as [|row rest]; cbn [enter_rows]; [reflexivity|].
  destruct (max_positions cfg <=? Z.of_nat (length (open_positions st)))%Z eqn:E;
    [reflexivity|].
  apply Z.leb_gt in E. lia.
Qed.

Lemma enter_signals_trades sbt bar ts st :
  trades (enter_signals cfg sbt bar ts st) = trades st
  /\ equity_curve_points (enter_signals cfg sbt bar ts st) = equity_curve_points st.
Proof.
  unfold enter_signals.
  destruct (Z.of_nat (length (open_positions st)) <? max_positions cfg)%Z; [|auto].
  destruct (sbt !! ts); [apply enter_rows_trades | auto].
Qed.

Lemma check_exits_cap bar ts st :
  book_within_cap cfg st -> book_within_cap cfg (_check_exits cfg bar ts st).
Proof.
  unfold book_within_cap. intros H.
  pose proof (check_exits_open_length cfg bar ts st). lia.
Qed.

Lemma process_bar_cap sbt bar st :
  book_within_cap cfg st -> book_within_cap cfg (process_bar cfg sbt bar st).
Proof.
  intros H. unfold process_bar, mark_to_market, book_within_cap.
  cbn [open_positions].
  apply enter_signals_cap, check_exits_cap, H.
Qed.

Lemma process_bar_curve sbt bar st :
  exists e,
    equity_curve_points (process_bar cfg sbt bar st)
    = equity_curve_points st ++ [(bar_ts bar, e)]
    /\ equity (process_bar cfg sbt bar st) = e.
Proof.
  unfold process_bar, mark_to_market. cbn [equity_curve_points equity].
  eexists. split; [|reflexivity].
  destruct (enter_signals_trades sbt bar (bar_ts bar)
              (_check_exits cfg bar (bar_ts bar) st)) as [_ ->].
  unfold _check_exits. rewrite fold_check_exit_curve. reflexivity.
Qed.

Lemma run_trace_cap sbt bars :
  forall st, book_within_cap cfg st ->
    Forall (book_within_cap cfg) (run_trace cfg sbt bars st).
Proof.
  induction bars as [|bar rest IH]; intros st Hst; cbn [run_trace]; [constructor|].
  pose proof (process_bar_cap sbt bar st Hst) as H'.
  constructor; [assumption|].
  destruct (depleted (process_bar cfg sbt bar st)); [constructor | apply IH, H'].
Qed.

Lemma last_nonempty_default {A : Type} (l : list A) :
  forall (a d d' : A), List.last (a :: l) d = List.last (a :: l) d'.
Proof.
  induction l as [|b rest IH]; intros a d d'; [reflexivity|].
  change (List.last (b :: rest) d = List.last (b :: rest) d').
  apply IH.
Qed.

Lemma last_in_nonempty {A : Type} (l : list A) :
  forall (a d : A), In (List.last (a :: l) d) (a :: l).
Proof.
  induction l as [|b rest IH]; intros a d; [left; reflexivity|].
  right. apply (IH b d).
Qed.

Lemma last_skip_head {A : Type} (l : list A) (a b d d' : A) :
  List.last (a :: l) d = List.last (b :: a :: l) d'.
Proof.
  change (List.last (a :: l) d = List.last (a :: l) d').
  apply last_nonempty_default.
Qed.

(** The loop ends in the last state of its trace. *)
Lemma run_loop_trace sbt bars :
  forall st, run_loop cfg sbt bars st = List.last (run_trace cfg sbt bars st) st.
Proof.
  induction bars as [|bar rest IH]; intros st; [reflexivity|].
  cbn [run_loop run_trace].
  destruct (depleted (process_bar cfg sbt bar st)) eqn:E; [reflexivity|].
  rewrite IH. destruct rest as [|bar' rest']; [reflexivity|].
  cbn [run_trace]. apply last_skip_head.
Qed.

Lemma run_trace_length sbt bars :
  forall st, length (run_trace cfg sbt bars st) <= length bars.
Proof.
  induction bars as [|bar rest IH]; intros st; cbn [run_trace length]; [lia|].
  destruct (depleted (process_bar cfg sbt bar st)); cbn [length]; [lia|].
  specialize (IH (process_bar cfg sbt bar st)). lia.
Qed.

(** One equity point per processed bar, stamped with that bar's time. *)
Lemma run_loop_curve sbt bars :
  forall st, exists new,
    equity_curve_points (run_loop cfg sbt bars st) = equity_curve_points st ++ new
    /\ length new = length (run_trace cfg sbt bars st)
    /\ map fst new = map bar_ts (firstn (length new) bars)
    /\ map snd new = map equity (run_trace cfg sbt bars st).
Proof.
  induction bars as [|bar rest IH]; intros st.
  - exists []. cbn. rewrite app_nil_r. auto.
  - cbn [run_loop run_trace].
    destruct (process_bar_curve sbt bar st) as (e & Hc & He).
    destruct (depleted (process_bar cfg sbt bar st)) eqn:E.
    + exists [(bar_ts bar, e)]. rewrite Hc. cbn. subst e. auto.
    + destruct (IH (process_bar cfg sbt bar st)) as (new & H1 & H2 & H3 & H4).
      exists ((bar_ts bar, e) :: new). rewrite H1, Hc, <- app_assoc.
      split; [reflexivity|]. cbn [length map firstn fst snd].
      rewrite <- H3, H4, H2. subst e. auto.
Qed.

Lemma force_close_fold_curve bar ts reason (l : list Position) :
  forall st,
    equity_curve_points
      (fold_left (fun s pos => _exit_position cfg pos bar ts reason s) l st)
    = equity_curve_points st.
Proof.
  induction l as [|pos rest IH]; intros st; cbn [fold_left]; [reflexivity|].
  rewrite IH. apply exit_position_curve.
Qed.

Lemma force_close_curve ohlc st :
  equity_curve_points (force_close cfg ohlc st) = equity_curve_points st.
Proof. apply force_close_fold_curve. Qed.

(** *** Exit reasons in the ledger *)

Lemma exit_position_known pos bar ts reason st :
  In reason exit_reasons -> ledger_known st ->
  ledger_known (_exit_position cfg pos bar ts reason st).
Proof.
  intros Hr Hst. unfold ledger_known.
  destruct (exit_position_trades cfg pos bar ts reason st) as (t & -> & Ht & _).
  apply Forall_app. split; [assumption|].
  constructor; [|constructor]. unfold known_reason. rewrite Ht. assumption.
Qed.

Lemma check_exit_known bar ts st pos :
  ledger_known st -> ledger_known (check_exit cfg bar ts st pos).
Proof.
  intros H. rewrite check_exit_rule.
  destruct (exit_rule bar pos) as [r|] eqn:E; [|assumption].
  apply exit_position_known; [|assumption].
  destruct (exit_rule_reason _ _ _ E) as [-> | ->]; cbn; auto.
Qed.

Lemma fold_check_exit_known bar ts (l : list Position) :
  forall st, ledger_known st -> ledger_known (fold_left (check_exit cfg bar ts) l st).
Proof.
  induction l as [|pos rest IH]; intros st H; cbn [fold_left]; [assumption|].
  apply IH, check_exit_known, H.
Qed.

Lemma process_bar_known sbt bar st :
  ledger_known st -> ledger_known (process_bar cfg sbt bar st).
Proof.
  intros H. unfold ledger_known, process_bar, mark_to_market. cbn [trades].
  destruct (enter_signals_trades sbt bar (bar_ts bar)
              (_check_exits cfg bar (bar_ts bar) st)) as [-> _].
  apply fold_check_exit_known, H.
Qed.

Lemma run_loop_known sbt bars :
  forall st, ledger_known st -> ledger_known (run_loop cfg sbt bars st).
Proof.
  induction bars as [|bar rest IH]; intros st H; cbn [run_loop]; [assumption|].
  pose proof (process_bar_known sbt bar st H) as H'.
  destruct (depleted (process_bar cfg sbt bar st)); [assumption | apply IH, H'].
Qed.

Lemma force_close_known ohlc st :
  ledger_known st -> ledger_known (force_close cfg ohlc st).
Proof.
  unfold force_close. generalize (open_positions st) as l.
  intros l. revert st.
  induction l as [|pos rest IH]; intros st H; cbn [fold_left]; [assumption|].
  apply IH, exit_position_known; [cbn; auto | assumption].
Qed.

Lemma run_ledger_known signals ohlc r :
  ledger_known
    (force_close cfg ohlc
       (run_loop cfg (group_signals signals) ohlc (reset_state cfg r))).
Proof.
  apply force_close_known, run_loop_known. constructor.
Qed.

End Loop.

(** ** The run as a whole *)

Section Run.

Variable cfg : Config.

Lemma group_signals_fold_none (t : Z) (l : list Signal) :
  forall m : gmap Z (list Signal),
    m !! t = None ->
    (forall s, In s l -> sig_ts s <> t) ->
    fold_left
      (fun (m : gmap Z (list Signal)) row =>
         <[sig_ts row := default [] (m !! sig_ts row) ++ [row]]> m) l m !! t = None.
Proof.
  induction l as [|row rest IH]; intros m Hm Hl; cbn [fold_left]; [assumption|].
  apply IH.
  - rewrite lookup_insert_ne; [assumption|]. apply Hl. left. reflexivity.
  - intros s Hs. apply Hl. right. assumption.
Qed.

Lemma group_signals_none (signals : list Signal) (t : Z) :
  (forall s, In s signals -> sig_ts s <> t) -> group_signals signals !! t = None.
Proof.
  intros H. unfold group_signals. apply group_signals_fold_none; [|assumption].
  apply lookup_empty.
Qed.

Lemma run_trace_stops sbt bars :
  forall st,
    length (run_trace cfg sbt bars st) = length bars
    \/ depleted (run_loop cfg sbt bars st) = true.
Proof.
  induction bars as [|bar rest IH]; intros st; [left; reflexivity|].
  cbn [run_trace run_loop].
  destruct (depleted (process_bar cfg sbt bar st)) eqn:E; [right; assumption|].
  destruct (IH (process_bar cfg sbt bar st)) as [H | H]; [left | right; assumption].
  cbn [length]. rewrite H. reflexivity.
Qed.

Lemma run_trace_nonempty sbt bar rest st :
  1 <= length (run_trace cfg sbt (bar :: rest) st).
Proof. cbn [run_trace length]. lia. Qed.

(** With an empty book and no signal stamped at the bar, an iteration only
    records the balance. *)
Lemma process_first_bar sbt bar r :
  sbt !! bar_ts bar = None ->
  equity_curve_points (process_bar cfg sbt bar (reset_state cfg r))
  = [(bar_ts bar, (initial_balance cfg + 0)%Q)].
Proof.
  intros Hnone. unfold process_bar, _check_exits, reset_state.
  cbn [open_positions fold_left]. unfold enter_signals. rewrite Hnone.
  cbn [open_positions length].
  destruct (Z.of_nat 0 <? max_positions cfg)%Z; reflexivity.
Qed.

Lemma run_loop_first_point sbt bar rest r :
  sbt !! bar_ts bar = None ->
  exists tail,
    equity_curve_points (run_loop cfg sbt (bar :: rest) (reset_state cfg r))
    = (bar_ts bar, (initial_balance cfg + 0)%Q) :: tail.
Proof.
  intros Hnone. cbn [run_loop].
  pose proof (process_first_bar sbt bar r Hnone) as Hp.
  destruct (depleted (process_bar cfg sbt bar (reset_state cfg r))).
  - exists []. assumption.
  - destruct (run_loop_curve cfg sbt rest (process_bar cfg sbt bar (reset_state cfg r)))
      as (new & Hnew & _).
    exists new. rewrite Hnew, Hp. reflexivity.
Qed.

Lemma run_with_signals_trades signals ohlc r res :
  run_with_signals cfg signals ohlc r = Some res ->
  res_trades res = []
  \/ res_trades res
     = trades (force_close cfg ohlc
                 (run_loop cfg (group_signals signals) ohlc (reset_state cfg r))).
Proof.
  unfold run_with_signals. destruct signals as [|s rest].
  - intros [= <-]. left. reflexivity.
  - destruct (equity_curve_points _) eqn:E; [discriminate|].
    intros [= <-]. right. reflexivity.
Qed.

End Run.

(** *** Positions that exit leave the book *)

Section Removal.

Lemma Qeqb_refl (x : Q) : Qeqb x x = true.
Proof. apply Qeqb_eq. reflexivity. Qed.

Lemma Position_eqb_refl (p : Position) : Position_eqb p p = true.
Proof.
  unfold Position_eqb, Meta_eqb.
  rewrite !Qeqb_refl, Z.eqb_refl, String.eqb_refl.
  destruct (pos_side p); destruct (meta_trend (pos_meta p)); reflexivity.
Qed.

Lemma Qleb_compat (x x' y y' : Q) :
  (x == x')%Q -> (y == y')%Q -> Qleb x y = Qleb x' y'.
Proof.
  intros Hx Hy. destruct (Qleb x' y') eqn:E.
  - apply Qleb_le. apply Qleb_le in E. rewrite Hx, Hy. exact E.
  - apply Qleb_gt. apply Qleb_gt in E. rewrite Hx, Hy. exact E.
Qed.

(** Equal position dictionaries get the same exit decision. *)
Lemma exit_rule_eqb (bar : Bar) (a b : Position) :
  Position_eqb a b = true -> exit_rule bar a = exit_rule bar b.
Proof.
  unfold Position_eqb. intros H.
  repeat (apply andb_true_iff in H; destruct H as [H ?]).
  repeat match goal with
         | E : Qeqb _ _ = true |- _ => apply Qeqb_eq in E
         end.
  assert (Hside : pos_side a = pos_side b).
  { destruct (pos_side a), (pos_side b); try reflexivity; discriminate. }
  unfold exit_rule, stop_hit, target_hit, Qgeb. rewrite <- Hside.
  fold (Qleb (pos_stop a) (bar_high bar)). fold (Qleb (pos_stop b) (bar_high bar)).
  fold (Qleb (pos_tp a) (bar_high bar)). fold (Qleb (pos_tp b) (bar_high bar)).
  rewrite (Qleb_compat (bar_low bar) (bar_low bar) (pos_stop a) (pos_stop b))
    by (try reflexivity; assumption).
  rewrite (Qleb_compat (pos_stop a) (pos_stop b) (bar_high bar) (bar_high bar))
    by (try reflexivity; assumption).
  rewrite (Qleb_compat (bar_low bar) (bar_low bar) (pos_tp a) (pos_tp b))
    by (try reflexivity; assumption).
  rewrite (Qleb_compat (pos_tp a) (pos_tp b) (bar_high bar) (bar_high bar))
    by (try reflexivity; assumption).
  reflexivity.
Qed.

Lemma list_remove_after_kept (bar : Bar) (p : Position) (kept rest : list Position) :
  (forall k, In k kept -> exit_rule bar k = None) ->
  exit_rule bar p <> None ->
  list_remove p (kept ++ p :: rest) = kept ++ rest.
Proof.
  intros Hkept Hp. induction kept as [|k kept' IH]; cbn [app list_remove].
  - rewrite Position_eqb_refl. reflexivity.
  - destruct (Position_eqb k p) eqn:E.
    + exfalso. apply Hp. rewrite <- (exit_rule_eqb bar k p E).
      apply Hkept. left. reflexivity.
    + f_equal. apply IH. intros k' Hk'. apply Hkept. right. exact Hk'.
Qed.

Lemma check_exits_fold_open cfg bar ts (todo : list Position) :
  forall kept st,
    open_positions st = kept ++ todo ->
    (forall k, In k kept -> exit_rule bar k = None) ->
    open_positions (fold_left (check_exit cfg bar ts) todo st)
    = kept ++ List.filter (stays_open bar) todo.
Proof.
  induction todo as [|p rest IH]; intros kept st Hopen Hkept; cbn [fold_left List.filter].
  - exact Hopen.
  - unfold stays_open at 1. rewrite check_exit_rule.
    destruct (exit_rule bar p) as [r|] eqn:E.
    + apply IH; [|exact Hkept].
      rewrite exit_position_open, Hopen.
      apply (list_remove_after_kept bar); [exact Hkept | congruence].
    + replace (kept ++ p :: List.filter (stays_open bar) rest)
        with ((kept ++ [p]) ++ List.filter (stays_open bar) rest)
        by (rewrite <- app_assoc; reflexivity).
      apply IH.
      * rewrite Hopen, <- app_assoc. reflexivity.
      * intros k Hk. apply in_app_or in Hk. destruct Hk as [Hk | [<- | []]];
          [apply Hkept; exact Hk | exact E].
Qed.

Lemma check_exits_open cfg bar ts st :
  open_positions (_check_exits cfg bar ts st)
  = List.filter (stays_open bar) (open_positions st).
Proof.
  unfold _check_exits.
  apply (check_exits_fold_open cfg bar ts (open_positions st) [] st);
    [reflexivity | intros k []].
Qed.

End Removal.

(** *** Every bar of a run passes through the exit pass *)

Section EveryBar.

Variable cfg : Config.

Lemma enter_rows_extends rows bar ts :
  forall st, exists new,
    open_positions (enter_rows cfg rows bar ts st) = open_positions st ++ new.
Proof.
  induction rows as [|row rest IH]; intros st; cbn [enter_rows].
  - exists []. rewrite app_nil_r. reflexivity.
  - destruct (max_positions cfg <=? Z.of_nat (length (open_positions st)))%Z.
    + exists []. rewrite app_nil_r. reflexivity.
    + destruct (IH (_enter_position cfg row bar ts st)) as (new & Hnew).
      destruct (enter_position_cases cfg row bar ts st)
        as (_ & _ & [Ho | (pos & Ho & _)]); rewrite Hnew, Ho.
      * exists new. reflexivity.
      * exists (pos :: new). rewrite <- app_assoc. reflexivity.
Qed.

Lemma enter_signals_extends sbt bar ts st :
  exists new,
    open_positions (enter_signals cfg sbt bar ts st) = open_positions st ++ new.
Proof.
  unfold enter_signals.
  destruct (Z.of_nat (length (open_positions st)) <? max_positions cfg)%Z.
  - destruct (sbt !! ts) as [rows|]; [apply enter_rows_extends|].
    exists []. rewrite app_nil_r. reflexivity.
  - exists []. rewrite app_nil_r. reflexivity.
Qed.

(** One iteration writes the exits of the positions open before it into
    the ledger, drops those positions from the book and keeps the others;
    what the entry pass opens comes after them. *)
Lemma process_bar_exits sbt bar st :
  exists closed new,
    trades (process_bar cfg sbt bar st) = trades st ++ closed
    /\ map trade_event closed = flat_map (exit_event bar) (open_positions st)
    /\ open_positions (process_bar cfg sbt bar st)
       = List.filter (stays_open bar) (open_positions st) ++ new.
Proof.
  unfold process_bar.
  set (ts := bar_ts bar). set (st1 := _check_exits cfg bar ts st).
  destruct (check_exits_fold_trades cfg bar ts (open_positions st) st)
    as (closed & Hclosed & Hevents).
  fold (_check_exits cfg bar ts st) in Hclosed. fold st1 in Hclosed.
  pose proof (check_exits_open cfg bar ts st) as Hkept. fold st1 in Hkept.
  destruct (enter_signals_trades cfg sbt bar ts st1) as [Htr _].
  destruct (enter_signals_extends sbt bar ts st1) as (new & Hopen).
  exists closed, new. unfold mark_to_market. cbn [open_positions trades].
  rewrite Hopen, Hkept, Htr, Hclosed. auto.
Qed.

(** The [k]-th state of the trace is the iteration on row [k] of the
    frame, run from the state before it. *)
Lemma run_trace_step sbt bars :
  forall st d k,
    k < length (run_trace cfg sbt bars st) ->
    nth k (run_trace cfg sbt bars st) d
    = process_bar cfg sbt (iat bars k) (nth k (st :: run_trace cfg sbt bars st) d).
Proof.
  induction bars as [|bar rest IH]; intros st d k Hk; cbn [run_trace] in *.
  - cbn in Hk. lia.
  - destruct k as [|k]; [reflexivity|].
    cbn [nth length] in *. unfold iat. cbn [nth]. fold (iat rest k).
    destruct (depleted (process_bar cfg sbt bar st)).
    + cbn in Hk. lia.
    + apply IH. lia.
Qed.

End EveryBar.

(** C7.  In [_check_exits] every open position is tested stop-loss first and
    take-profit second (long stop: low <= stop; short stop: high >= stop;
    long target: high >= target; short target: low <= target); a position
    writes at most one exit into the ledger per bar, with one reason and the
    price of that reason, and then leaves the book; and every exit reason the run records is one of
    stop_loss, take_profit, end_of_data, signal_exit.  Every iteration of
    the loop runs this pass first: what an iteration adds to the ledger is
    the exits of the positions that were open before it, those positions
    leave the book and the others stay, ahead of the entries of the bar;
    the [k]-th state of a run is the iteration on row [k] from the state
    before it, and the loop ends in the last of these states. *)
Theorem C7_exit_priority_and_reasons :
  forall (cfg : Config) (bar : Bar) (ts : Z) (st : State),
    (forall pos,
        check_exit cfg bar ts st pos
        = match exit_rule bar pos with
          | Some r => _exit_position cfg pos bar ts r st
          | None => st
          end)
    /\ (exists new,
          trades (_check_exits cfg bar ts st) = trades st ++ new
          /\ map trade_event new = flat_map (exit_event bar) (open_positions st)
          /\ length new <= length (open_positions st))
    /\ open_positions (_check_exits cfg bar ts st)
       = List.filter (stays_open bar) (open_positions st)
    /\ (forall pos, length (exit_event bar pos) <= 1)
    /\ (forall signals ohlc r,
          Forall known_reason
            (trades (force_close cfg ohlc
                       (run_loop cfg (group_signals signals) ohlc (reset_state cfg r)))))
    /\ (forall signals ohlc r res,
          run_with_signals cfg signals ohlc r = Some res ->
          Forall known_reason (res_trades res))
    /\ (forall sbt,
          exists closed new,
            trades (process_bar cfg sbt bar st) = trades st ++ closed
            /\ map trade_event closed = flat_map (exit_event bar) (open_positions st)
            /\ length closed <= length (open_positions st)
            /\ open_positions (process_bar cfg sbt bar st)
               = List.filter (stays_open bar) (open_positions st) ++ new)
    /\ (forall sbt ohlc k,
          k < length (run_trace cfg sbt ohlc st) ->
          nth k (run_trace cfg sbt ohlc st) st
          = process_bar cfg sbt (iat ohlc k) (nth k (st :: run_trace cfg sbt ohlc st) st))
    /\ (forall sbt ohlc,
          run_loop cfg sbt ohlc st = List.last (run_trace cfg sbt ohlc st) st)
    /\ (forall signals ohlc r res,
          signals <> [] ->
          run_with_signals cfg signals ohlc r = Some res ->
          res_trades res
          = trades (force_close cfg ohlc
                      (List.last
                         (run_trace cfg (group_signals signals) ohlc (reset_state cfg r))
                         (reset_state cfg r)))).
Proof.
  intros cfg bar ts st.
  split; [intros pos; apply check_exit_rule|].
  split.
  { destruct (check_exits_fold_trades cfg bar ts (open_positions st) st)
      as (new & H1 & H2).
    exists new. split; [exact H1|]. split; [exact H2|].
    rewrite <- (length_map trade_event), H2.
    apply flat_map_exit_event_length. }
  split; [apply check_exits_open|].
  split; [intros pos; apply exit_event_length|].
  split; [intros signals ohlc r; apply run_ledger_known|].
  split.
  { intros signals ohlc r res Hrun.
    destruct (run_with_signals_trades cfg signals ohlc r res Hrun) as [-> | ->].
    - constructor.
    - apply run_ledger_known. }
  split.
  { intros sbt. destruct (process_bar_exits cfg sbt bar st) as (closed & new & H1 & H2 & H3).
    exists closed, new. split; [exact H1|]. split; [exact H2|]. split; [|exact H3].
    rewrite <- (length_map trade_event), H2.
    apply flat_map_exit_event_length. }
  split; [intros sbt ohlc k Hk; apply run_trace_step; exact Hk|].
  split; [intros sbt ohlc; apply run_loop_trace|].
  intros signals ohlc r res Hne Hrun. rewrite <- run_loop_trace.
  unfold run_with_signals in Hrun. destruct signals as [|s rest]; [exfalso; apply Hne; reflexivity|].
  destruct (equity_curve_points _) eqn:E; [discriminate|].
  injection Hrun as <-. reflexivity.
Qed.

(** C10.  With a non-negative cap, after every processed bar of a run the
    book holds at most [max_positions] positions; the exit pass and the
    entry pass each keep the bound; and a book that has reached the cap takes
    no entry: a position is only opened from a book strictly below the cap. *)
Theorem C10_open_positions_bounded :
  forall (cfg : Config) (signals : list Signal) (ohlc : list Bar) (r : RandomState),
    (0 <= max_positions cfg)%Z ->
    Forall (book_within_cap cfg)
           (run_trace cfg (group_signals signals) ohlc (reset_state cfg r))
    /\ book_within_cap cfg
         (run_loop cfg (group_signals signals) ohlc (reset_state cfg r))
    /\ (forall sbt bar ts st,
          book_within_cap cfg st ->
          book_within_cap cfg (_check_exits cfg bar ts st)
          /\ book_within_cap cfg (enter_signals cfg sbt bar ts st))
    /\ (forall sbt bar ts st,
          (max_positions cfg <= Z.of_nat (length (open_positions st)))%Z ->
          enter_signals cfg sbt bar ts st = st)
    /\ (forall rows bar ts st,
          (max_positions cfg <= Z.of_nat (length (open_positions st)))%Z ->
          enter_rows cfg rows bar ts st = st).
Proof.
  intros cfg signals ohlc r Hcap.
  assert (H0 : book_within_cap cfg (reset_state cfg r)).
  { unfold book_within_cap. cbn. exact Hcap. }
  pose proof (run_trace_cap cfg (group_signals signals) ohlc _ H0) as Htrace.
  split; [exact Htrace|]. split.
  { rewrite run_loop_trace.
    destruct (run_trace cfg (group_signals signals) ohlc (reset_state cfg r))
      as [|s l] eqn:E; [exact H0|].
    apply (proj1 (List.Forall_forall _ _) Htrace), last_in_nonempty. }
  split.
  { intros sbt bar ts st Hst. split.
    - apply check_exits_cap, Hst.
    - apply enter_signals_cap, Hst. }
  split.
  - intros sbt bar ts st. apply enter_signals_full.
  - intros rows bar ts st. apply enter_rows_full.
Qed.

Example exit_rule_stop_wins_on_a_wide_bar :
  exit_rule (cents 2 110 160 90 104)
            (mkPosition buy 1 (110 # 100) 1 (100 # 100) (150 # 100) 0
                        (mkMeta "OB+ChoCH/LQ" RANGING 1) 100000 1 1)
  = Some "stop_loss"%string.
Proof. vm_compute. reflexivity. Qed.

(** A run of scenario C under the cap of one position. *)
Lemma C10_witness_scenario_c :
  Forall (book_within_cap config_c)
         (run_trace config_c (group_signals signals_c) series_c
                    (reset_state config_c (constant_random (1 # 2))))
  /\ book_within_cap config_c
       (run_loop config_c (group_signals signals_c) series_c
                 (reset_state config_c (constant_random (1 # 2))))
  /\ (forall sbt bar ts st,
        book_within_cap config_c st ->
        book_within_cap config_c (_check_exits config_c bar ts st)
        /\ book_within_cap config_c (enter_signals config_c sbt bar ts st))
  /\ (forall sbt bar ts st,
        (max_positions config_c <= Z.of_nat (length (open_positions st)))%Z ->
        enter_signals config_c sbt bar ts st = st)
  /\ (forall rows bar ts st,
        (max_positions config_c <= Z.of_nat (length (open_positions st)))%Z ->
        enter_rows config_c rows bar ts st = st).
Proof.
  apply (C10_open_positions_bounded config_c signals_c series_c (constant_random (1 # 2))).
  cbn. lia.
Defined.

(** C4 (as amended).  A run whose strategy emitted at least one signal, on
    a non-empty frame, returns an equity curve with exactly one point per
    processed bar, stamped with the bars' times in order; the loop processes
    every bar unless the account is depleted; and the first value equals the
    initial balance when no signal is stamped at the first bar.  A run whose
    strategy emitted no signal processes no bar and returns an empty curve. *)
Theorem C4_equity_curve_per_processed_bar :
  forall (cfg : Config) (signals : list Signal) (ohlc : list Bar) (r : RandomState),
    signals <> [] -> ohlc <> [] ->
    (exists res,
        run_with_signals cfg signals ohlc r = Some res
        /\ length (res_equity_curve res)
           = length (run_trace cfg (group_signals signals) ohlc (reset_state cfg r))
        /\ map fst (res_equity_curve res)
           = map bar_ts (firstn (length (res_equity_curve res)) ohlc)
        /\ 1 <= length (res_equity_curve res) <= length ohlc
        /\ (length (res_equity_curve res) = length ohlc
            \/ depleted (run_loop cfg (group_signals signals) ohlc (reset_state cfg r))
               = true)
        /\ ((forall s, In s signals -> sig_ts s <> bar_ts (List.hd blank_bar ohlc)) ->
            exists e,
              List.hd_error (res_equity_curve res)
              = Some (bar_ts (List.hd blank_bar ohlc), e)
              /\ (e == initial_balance cfg)%Q))
    /\ (forall ohlc' r',
          run_with_signals cfg [] ohlc' r' = Some (_empty_result cfg)
          /\ res_equity_curve (_empty_result cfg) = []).
Proof.
  intros cfg signals ohlc r Hsig Hbars.
  split; [|intros ohlc' r'; split; reflexivity].
  destruct signals as [|s0 srest]; [congruence|].
  destruct ohlc as [|bar rest]; [congruence|].
  set (sbt := group_signals (s0 :: srest)).
  destruct (run_loop_curve cfg sbt (bar :: rest) (reset_state cfg r))
    as (new & Hnew & Hlen & Hts & _).
  cbn [reset_state equity_curve_points app] in Hnew.
  pose proof (run_trace_nonempty cfg sbt bar rest (reset_state cfg r)) as Hne.
  pose proof (run_trace_length cfg sbt (bar :: rest) (reset_state cfg r)) as Hle.
  pose proof (force_close_curve cfg (bar :: rest)
                (run_loop cfg sbt (bar :: rest) (reset_state cfg r))) as Hfc.
  unfold run_with_signals. fold sbt. rewrite Hfc, Hnew.
  destruct new as [|pt tail] eqn:Enew.
  { cbn [length] in Hlen. lia. }
  eexists. split; [reflexivity|]. cbn [res_equity_curve].
  split; [exact Hlen|]. split; [exact Hts|].
  split; [rewrite Hlen; split; assumption|].
  split.
  { rewrite Hlen. apply run_trace_stops. }
  intros Hfirst. cbn [List.hd] in Hfirst |- *.
  pose proof (group_signals_none (s0 :: srest) (bar_ts bar) Hfirst) as Hnone.
  destruct (run_loop_first_point cfg sbt bar rest r Hnone) as (tl & Htl).
  rewrite Hnew in Htl. injection Htl as Hpt _.
  exists (initial_balance cfg + 0)%Q. rewrite Hpt. split; [reflexivity|].
  ring.
Qed.

(** Scenario C: one prepared signal on the second of four bars. *)
Lemma C4_witness_scenario_c :
  (exists res,
      run_with_signals config_c signals_c series_c (constant_random (1 # 2)) = Some res
      /\ length (res_equity_curve res)
         = length (run_trace config_c (group_signals signals_c) series_c
                             (reset_state config_c (constant_random (1 # 2))))
      /\ map fst (res_equity_curve res)
         = map bar_ts (firstn (length (res_equity_curve res)) series_c)
      /\ 1 <= length (res_equity_curve res) <= length series_c
      /\ (length (res_equity_curve res) = length series_c
          \/ depleted (run_loop config_c (group_signals signals_c) series_c
                                (reset_state config_c (constant_random (1 # 2))))
             = true)
      /\ ((forall s, In s signals_c -> sig_ts s <> bar_ts (List.hd blank_bar series_c)) ->
          exists e,
            List.hd_error (res_equity_curve res)
            = Some (bar_ts (List.hd blank_bar series_c), e)
            /\ (e == initial_balance config_c)%Q))
  /\ (forall ohlc' r',
        run_with_signals config_c [] ohlc' r' = Some (_empty_result config_c)
        /\ res_equity_curve (_empty_result config_c) = []).
Proof.
  apply (C4_equity_curve_per_processed_bar config_c signals_c series_c
           (constant_random (1 # 2))).
  - discriminate.
  - discriminate.
Defined.

(** C4, the claim as stated, fails on a frame that yields no signal: the
    three bars of scenario D are too few for [SMCStrategy]; the run returns
    an empty equity curve, which has no first value. *)
Lemma C4_counterexample_no_signal :
  generate_signals params_b series_d = []
  /\ run default_config params_b series_d (constant_random 0)
     = Some (_empty_result default_config)
  /\ res_equity_curve (_empty_result default_config) = []
  /\ List.hd_error (map snd (res_equity_curve (_empty_result default_config)))
     <> Some (initial_balance default_config).
Proof.
  split; [vm_compute; reflexivity|].
  split; [vm_compute; reflexivity|].
  split; [reflexivity|]. cbn. discriminate.
Qed.

(** C3.  Scenario C: the position opened on bar 1 (time 1) is still open
    when the equity falls below zero on bar 2 (time 2) and the loop stops;
    the curve ends at time 2.  The forced close then reads the last row of
    the frame: the trade is stamped with time 3 and filled from the close of
    bar 3 (1.20 less slippage and half-spread = 1.1998), not from the close
    of bar 2 (1.04), and the ledger shows a profit. *)
Theorem C3_forced_close_reads_last_row :
  option_map
    (fun res => (map fst (res_equity_curve res), map trade_digest (res_trades res)))
    (run config_c signals_c series_c (constant_random (1 # 2)))
  = Some ([0; 1; 2]%Z,
          [(1%Z, 3%Z, "end_of_data"%string, (5999 # 5000)%Q, (497999994001 # 25000000)%Q)])
  /\ depleted (run_loop config_c (group_signals signals_c) series_c
                        (reset_state config_c (constant_random (1 # 2)))) = true
  /\ length (open_positions
               (run_loop config_c (group_signals signals_c) series_c
                         (reset_state config_c (constant_random (1 # 2))))) = 1
  /\ bar_ts (last_bar series_c) = 3%Z
  /\ Qred (bar_close (iat series_c 2)) = (26 # 25)%Q
  /\ Qred (bar_close (iat series_c 3)) = (6 # 5)%Q.
Proof.
  repeat split; vm_compute; reflexivity.
Qed.

(** C8.  Scenario C's bars and signal under the default book, run twice:
    once with every [random.random()] equal to 0, once with every one
    equal to 1/2.  [_enter_position] and the forced close call
    [simulate_fill] with randomness on, so the fills, the net profit and the
    equity curve differ between the two runs. *)
Theorem C8_runs_differ_with_the_random_source :
  option_map (fun res => Qred (net_profit (res_metrics res)))
             (run default_config signals_c series_c (constant_random 0))
  = Some (1993999976003 # 20030000000)%Q
  /\ option_map (fun res => Qred (net_profit (res_metrics res)))
                (run default_config signals_c series_c (constant_random (1 # 2)))
     = Some (497999994001 # 5010000000)%Q
  /\ option_map curve_digest
                (run default_config signals_c series_c (constant_random 0))
     <> option_map curve_digest
                   (run default_config signals_c series_c (constant_random (1 # 2)))
  /\ (forall cfg side price r,
        simulate_fill cfg side price true r
        = (match side with
           | buy => (price + slippage cfg * ((1 # 2) + ((3 # 2) - (1 # 2))
                                              * random_values r (random_taken r))
                     + half_spread cfg)%Q
           | sell => (price - slippage cfg * ((1 # 2) + ((3 # 2) - (1 # 2))
                                               * random_values r (random_taken r))
                      - half_spread cfg)%Q
           end,
           mkRandom (random_values r) (S (random_taken r)))).
Proof.
  split; [vm_compute; reflexivity|].
  split; [vm_compute; reflexivity|].
  split; [vm_compute; discriminate|].
  intros cfg side price r. unfold simulate_fill, random_uniform.
  destruct side; reflexivity.
Qed.

(** ** The signal generator *)

Section Generator.

Lemma scan_zones_find {A : Type} (skip hit : A -> bool) (make : A -> Signal)
    (zones : list A) :
  scan_zones skip hit make zones
  = option_map make (find (fun z => negb (skip z) && hit z) zones).
Proof.
  induction zones as [|z rest IH]; [reflexivity|]. cbn [scan_zones find].
  destruct (skip z); cbn [negb andb]; [exact IH|].
  destruct (hit z); [reflexivity | exact IH].
Qed.

Lemma scan_zones_some {A : Type} (skip hit : A -> bool) (make : A -> Signal)
    (zones : list A) (s : Signal) :
  scan_zones skip hit make zones = Some s ->
  exists z, In z zones /\ skip z = false /\ hit z = true /\ s = make z.
Proof.
  rewrite scan_zones_find.
  destruct (find _ zones) as [z|] eqn:E; [|discriminate].
  intros [= <-]. apply find_some in E. destruct E as [Hin Hb].
  apply andb_true_iff in Hb. destruct Hb as [Hs Hh].
  apply negb_true_iff in Hs. eauto.
Qed.

(** The value [detect_choch] returns has neither attribute. *)
Lemma choch_flag_bool (b : bool) (name : string) : choch_flag (PyBool b) name = false.
Proof. reflexivity. Qed.

Lemma bullish_confirm_bool (b : bool) (g : option LiquidityGrab) :
  bullish_confirm (PyBool b) g = grab_confirms g bullish.
Proof. reflexivity. Qed.

Lemma bearish_confirm_bool (b : bool) (g : option LiquidityGrab) :
  bearish_confirm (PyBool b) g = grab_confirms g bearish.
Proof. reflexivity. Qed.

Lemma signal_loop_in (body : nat -> list Signal) (bars : list nat) :
  forall last_signal_bar s,
    In s (signal_loop body bars last_signal_bar) ->
    exists i, In i bars /\ In s (body i).
Proof.
  induction bars as [|i rest IH]; intros lsb s Hin; cbn [signal_loop] in Hin.
  - destruct Hin.
  - destruct (Z.of_nat i - lsb <? cool_off)%Z.
    + destruct (IH _ _ Hin) as (j & Hj & Hs). exists j. split; [right|]; assumption.
    + apply in_app_or in Hin. destruct Hin as [Hin | Hin].
      * exists i. split; [left; reflexivity | assumption].
      * destruct (IH _ _ Hin) as (j & Hj & Hs). exists j. split; [right|]; assumption.
Qed.

Lemma signal_loop_without_grabs ohlc P atr obs fvgs (bars : list nat) :
  forall last_signal_bar,
    signal_loop (evaluate_bar ohlc P atr obs fvgs []) bars last_signal_bar = [].
Proof.
  assert (Hbody : forall i, evaluate_bar ohlc P atr obs fvgs [] i = []).
  { intros i. unfold evaluate_bar, decide_bar.
    rewrite bullish_confirm_bool, bearish_confirm_bool. cbn [recent_grab_at find grab_confirms].
    destruct (trend_in _ BULLISH RANGING); [reflexivity|].
    destruct (trend_in _ BEARISH RANGING); reflexivity. }
  induction bars as [|i rest IH]; intros lsb; cbn [signal_loop]; [reflexivity|].
  destruct (Z.of_nat i - lsb <? cool_off)%Z; [apply IH|].
  rewrite Hbody. cbn [app]. apply IH.
Qed.

(** The shape of what one evaluation appends. *)
Lemma evaluate_bar_shape ohlc P atr obs fvgs grabs i :
  let v := bar_view ohlc P atr i in
  let g := recent_grab_at grabs i in
  evaluate_bar ohlc P atr obs fvgs grabs i
  = (if trend_in (bv_trend v) BULLISH RANGING && grab_confirms g bullish
     then option_list
            (option_map (bullish_ob_entry P v)
               (find (fun z => negb (ob_skip bullish v z) && ob_hit (bv_low v) z) obs))
          ++ option_list
               (option_map (bullish_fvg_entry P v)
                  (find (fun z => negb (fvg_skip bullish v z) && fvg_hit (bv_low v) z)
                        fvgs))
     else [])
    ++ (if (negb (trend_in (bv_trend v) BULLISH RANGING) || grab_confirms g bullish)
           && trend_in (bv_trend v) BEARISH RANGING && grab_confirms g bearish
        then option_list
               (option_map (bearish_ob_entry P v)
                  (find (fun z => negb (ob_skip bearish v z) && ob_hit (bv_high v) z)
                        obs))
             ++ option_list
                  (option_map (bearish_fvg_entry P v)
                     (find (fun z => negb (fvg_skip bearish v z) && fvg_hit (bv_high v) z)
                           fvgs))
        else []).
Proof.
  intros v g. unfold evaluate_bar, decide_bar.
  rewrite bullish_confirm_bool, bearish_confirm_bool.
  fold v. fold g.
  unfold bullish_context, bearish_context, bullish_ob_signal, bullish_fvg_signal,
    bearish_ob_signal, bearish_fvg_signal.
  rewrite !scan_zones_find.
  destruct (trend_in (bv_trend v) BULLISH RANGING);
    destruct (grab_confirms g bullish);
    destruct (trend_in (bv_trend v) BEARISH RANGING);
    destruct (grab_confirms g bearish);
    cbn [andb orb negb app]; rewrite ?app_nil_r; reflexivity.
Qed.

End Generator.

(** C1.  Scenario B at its last bar (index 41): the structure over the
    prefix is bullish, [detect_choch] holds, no liquidity grab exists, and
    the bar's low sits inside a bullish fair value gap; yet the bar is not
    confirmed and the whole frame yields no signal.  The cause is general:
    the strategy reads [choch.is_bullish] / [choch.is_bearish] behind
    [hasattr], and the [bool] that [detect_choch] returns has neither, so a
    direction is confirmed exactly when the grab at the bar confirms it; with
    liquidity grabs switched off no frame yields any signal. *)
Theorem C1_choch_alone_confirms_nothing :
  bv_trend (bar_view series_b params_b (calculate_atr series_b 1) 41) = BULLISH
  /\ choch_at series_b params_b 41 = true
  /\ detect_liquidity_grab series_b
       (ms_swings (detect_market_structure series_b 10)) 1 3 1 = []
  /\ option_map signal_digest
       (bullish_fvg_signal params_b
          (bar_view series_b params_b (calculate_atr series_b 1) 41)
          (find_fvg series_b params_b))
     = Some (41%Z, buy, "FVG+ChoCH/LQ"%string)
  /\ evaluate_bar series_b params_b (calculate_atr series_b 1)
       (find_order_blocks series_b params_b) (find_fvg series_b params_b) [] 41 = []
  /\ validate_params params_b = true
  /\ generate_signals params_b series_b = []
  /\ (forall (b : bool) (g : option LiquidityGrab),
        bullish_confirm (PyBool b) g = grab_confirms g bullish
        /\ bearish_confirm (PyBool b) g = grab_confirms g bearish)
  /\ (forall P ohlc, use_liquidity_grabs P = false -> generate_signals P ohlc = []).
Proof.
  split; [vm_compute; reflexivity|].
  split; [vm_compute; reflexivity|].
  split; [vm_compute; reflexivity|].
  split; [vm_compute; reflexivity|].
  split; [vm_compute; reflexivity|].
  split; [vm_compute; reflexivity|].
  split; [vm_compute; reflexivity|].
  split; [intros b g; split; reflexivity|].
  intros P ohlc Hoff. unfold generate_signals. rewrite Hoff.
  destruct (length ohlc <? min_bars P); [reflexivity|].
  apply signal_loop_without_grabs.
Qed.

(** C2 (as amended).  At one evaluation bar the generator emits, per
    direction, at most one order-block signal and at most one FVG signal, in
    that order: the order-block signal comes from the first order block of
    the matching type that ended before the bar and whose [bottom, top]
    contains the bar's low (bullish) or high (bearish), the FVG signal from
    the first such gap; the FVG loop runs whether or not the order-block
    loop emitted.  Hence at most two signals per direction per bar. *)
Theorem C2_one_signal_per_zone_kind :
  forall (ohlc : list Bar) (P : Params) (atr : list Q)
         (obs : list OrderBlock) (fvgs : list FairValueGap)
         (grabs : list LiquidityGrab) (i : nat),
    let v := bar_view ohlc P atr i in
    let g := recent_grab_at grabs i in
    let bull := trend_in (bv_trend v) BULLISH RANGING && grab_confirms g bullish in
    let bear :=
      (negb (trend_in (bv_trend v) BULLISH RANGING) || grab_confirms g bullish)
      && trend_in (bv_trend v) BEARISH RANGING && grab_confirms g bearish in
    let sigs := evaluate_bar ohlc P atr obs fvgs grabs i in
    sigs
    = (if bull
       then option_list
              (option_map (bullish_ob_entry P v)
                 (find (fun z => negb (ob_skip bullish v z) && ob_hit (bv_low v) z) obs))
            ++ option_list
                 (option_map (bullish_fvg_entry P v)
                    (find (fun z => negb (fvg_skip bullish v z) && fvg_hit (bv_low v) z)
                          fvgs))
       else [])
      ++ (if bear
          then option_list
                 (option_map (bearish_ob_entry P v)
                    (find (fun z => negb (ob_skip bearish v z) && ob_hit (bv_high v) z)
                          obs))
               ++ option_list
                    (option_map (bearish_fvg_entry P v)
                       (find (fun z => negb (fvg_skip bearish v z) && fvg_hit (bv_high v) z)
                             fvgs))
          else [])
    /\ (forall side reason,
          length (List.filter
                    (fun s => Side_eqb (sig_side s) side
                              && String.eqb (meta_reason (sig_meta s)) reason) sigs) <= 1)
    /\ (forall side,
          length (List.filter (fun s => Side_eqb (sig_side s) side) sigs) <= 2).
Proof.
  intros ohlc P atr obs fvgs grabs i v g bull bear sigs.
  assert (Heq : sigs
    = (if bull
       then option_list
              (option_map (bullish_ob_entry P v)
                 (find (fun z => negb (ob_skip bullish v z) && ob_hit (bv_low v) z) obs))
            ++ option_list
                 (option_map (bullish_fvg_entry P v)
                    (find (fun z => negb (fvg_skip bullish v z) && fvg_hit (bv_low v) z)
                          fvgs))
       else [])
      ++ (if bear
          then option_list
                 (option_map (bearish_ob_entry P v)
                    (find (fun z => negb (ob_skip bearish v z) && ob_hit (bv_high v) z)
                          obs))
               ++ option_list
                    (option_map (bearish_fvg_entry P v)
                       (find (fun z => negb (fvg_skip bearish v z) && fvg_hit (bv_high v) z)
                             fvgs))
          else [])).
  { apply evaluate_bar_shape. }
  split; [exact Heq|]. rewrite Heq. clear Heq. split.
  - intros side reason.
    destruct (String.eqb "OB+ChoCH/LQ" reason) eqn:E1;
      destruct (String.eqb "FVG+ChoCH/LQ" reason) eqn:E2.
    { apply String.eqb_eq in E1, E2. subst reason. discriminate. }
    all: destruct bull, bear;
      destruct (find (fun z => negb (ob_skip bullish v z) && ob_hit (bv_low v) z) obs);
      destruct (find (fun z => negb (fvg_skip bullish v z) && fvg_hit (bv_low v) z) fvgs);
      destruct (find (fun z => negb (ob_skip bearish v z) && ob_hit (bv_high v) z) obs);
      destruct (find (fun z => negb (fvg_skip bearish v z) && fvg_hit (bv_high v) z) fvgs);
      destruct side;
      cbn [option_map option_list app List.filter bullish_ob_entry bullish_fvg_entry
           bearish_ob_entry bearish_fvg_entry sig_side sig_meta meta_reason Side_eqb andb];
      rewrite ?E1, ?E2; cbn [length]; lia.
  - intros side.
    destruct bull, bear;
      destruct (find (fun z => negb (ob_skip bullish v z) && ob_hit (bv_low v) z) obs);
      destruct (find (fun z => negb (fvg_skip bullish v z) && fvg_hit (bv_low v) z) fvgs);
      destruct (find (fun z => negb (ob_skip bearish v z) && ob_hit (bv_high v) z) obs);
      destruct (find (fun z => negb (fvg_skip bearish v z) && fvg_hit (bv_high v) z) fvgs);
      destruct side; cbn; lia.
Qed.

(** C2, the claim as stated, fails on scenario A: at bar 27 the low (101)
    lies inside the order block left by bar 2 and inside the fair value gap
    of bars 2-4, and the generator emits two buy signals for that one bar,
    the order-block one followed by the FVG one. *)
Lemma C2_counterexample_two_buys_on_one_bar :
  map signal_digest (generate_signals params_a series_a)
  = [ (27%Z, buy, "OB+ChoCH/LQ"%string); (27%Z, buy, "FVG+ChoCH/LQ"%string) ]
  /\ map signal_levels (generate_signals params_a series_a)
     = [ (102%Q, (474 # 5)%Q, (582 # 5)%Q); (102%Q, (979 # 10)%Q, (551 # 5)%Q) ]
  /\ validate_params params_a = true
  /\ Qred (bar_low (iat series_a 27)) = 101%Q.
Proof. repeat split; vm_compute; reflexivity. Qed.

(** ** Fair value gaps *)

Section FairValueGaps.

Lemma filter_keep_all {A : Type} (f : A -> bool) (l : list A) :
  (forall x, In x l -> f x = true) -> List.filter f l = l.
Proof.
  induction l as [|x rest IH]; intros H; [reflexivity|]. cbn [List.filter].
  rewrite (H x (or_introl eq_refl)). f_equal. apply IH.
  intros y Hy. apply H. right. assumption.
Qed.

Lemma filter_keep_none {A : Type} (f : A -> bool) (l : list A) :
  (forall x, In x l -> f x = false) -> List.filter f l = [].
Proof.
  induction l as [|x rest IH]; intros H; [reflexivity|]. cbn [List.filter].
  rewrite (H x (or_introl eq_refl)). apply IH.
  intros y Hy. apply H. right. assumption.
Qed.

(** Selecting, in the output of a loop over [range(a, a + n)], the items
    made by iteration [i]. *)
Lemma filter_flat_map_seq {A : Type} (key : A -> nat) (f : nat -> list A) (i : nat) :
  (forall j x, In x (f j) -> key x = j) ->
  forall n a,
    List.filter (fun x => key x =? i) (flat_map f (seq a n))
    = if (a <=? i) && (i <? a + n) then f i else [].
Proof.
  intros Hkey. induction n as [|n IH]; intros a.
  - cbn [seq flat_map List.filter]. destruct (a <=? i) eqn:E1; [|reflexivity].
    destruct (i <? a + 0) eqn:E2; [|reflexivity].
    apply Nat.leb_le in E1. apply Nat.ltb_lt in E2. lia.
  - cbn [seq flat_map]. rewrite List.filter_app, IH.
    destruct (Nat.eq_dec a i) as [-> | Hne].
    + rewrite filter_keep_all.
      2:{ intros x Hx. apply Nat.eqb_eq. apply (Hkey _ _ Hx). }
      replace (S i <=? i) with false by (symmetry; apply Nat.leb_gt; lia).
      replace (i <=? i) with true by (symmetry; apply Nat.leb_le; lia).
      replace (i <? i + S n) with true by (symmetry; apply Nat.ltb_lt; lia).
      cbn [andb]. apply app_nil_r.
    + rewrite filter_keep_none.
      2:{ intros x Hx. apply Nat.eqb_neq. rewrite (Hkey _ _ Hx). exact Hne. }
      cbn [app].
      destruct (S a <=? i) eqn:E1; destruct (a <=? i) eqn:E2;
        destruct (i <? S a + n) eqn:E3; destruct (i <? a + S n) eqn:E4;
        cbn [andb]; try reflexivity;
        repeat match goal with
               | H : (_ <=? _) = true |- _ => apply Nat.leb_le in H
               | H : (_ <=? _) = false |- _ => apply Nat.leb_gt in H
               | H : (_ <? _) = true |- _ => apply Nat.ltb_lt in H
               | H : (_ <? _) = false |- _ => apply Nat.ltb_ge in H
               end; lia.
Qed.

Lemma fvg_at_start ohlc P atr j g : In g (fvg_at ohlc P atr j) -> fvg_start_idx g = j.
Proof.
  unfold fvg_at.
  destruct (_ && _); [intros [<- | []]; reflexivity|].
  destruct (_ && _); [intros [<- | []]; reflexivity | intros []].
Qed.

Lemma find_fvg_at ohlc P i :
  List.filter (fun g => fvg_start_idx g =? i) (find_fvg ohlc P)
  = if (atr_period P <=? i) && (i + 2 <? length ohlc)
    then fvg_at ohlc P (calculate_atr ohlc (atr_period P)) i
    else [].
Proof.
  unfold find_fvg. destruct (length ohlc <? atr_period P + 3) eqn:Eshort.
  - apply Nat.ltb_lt in Eshort. cbn [List.filter].
    destruct (atr_period P <=? i) eqn:E1; [|reflexivity].
    destruct (i + 2 <? length ohlc) eqn:E2; [|reflexivity].
    apply Nat.leb_le in E1. apply Nat.ltb_lt in E2. lia.
  - apply Nat.ltb_ge in Eshort. unfold py_range.
    rewrite (filter_flat_map_seq fvg_start_idx _ i (fvg_at_start ohlc P _)).
    replace (atr_period P + (length ohlc - 2 - atr_period P)) with (length ohlc - 2) by lia.
    destruct (atr_period P <=? i); [|reflexivity]. cbn [andb].
    destruct (i <? length ohlc - 2) eqn:E1; destruct (i + 2 <? length ohlc) eqn:E2;
      try reflexivity;
      repeat match goal with
             | H : (_ <? _) = true |- _ => apply Nat.ltb_lt in H
             | H : (_ <? _) = false |- _ => apply Nat.ltb_ge in H
             end; lia.
Qed.

End FairValueGaps.

(** C6 (as amended).  For a triplet [(i, i+1, i+2)] past the ATR warm-up
    ([atr_period <= i]) and inside the frame, a bullish gap is recorded
    exactly when [high[i] < low[i+2]] and the gap is at least
    [min_gap_atr * ATR[i]]; a bearish gap exactly when no bullish gap
    qualifies, [low[i] > high[i+2]] and that gap is at least
    [min_gap_atr * ATR[i]] (on bars with low <= high the two cannot both
    hold); no gap is recorded for an earlier triplet.  The recorded
    boundaries are the raw edges moved outward by [fvg_expand_atr * ATR[i]]:
    the top is raised and the bottom lowered, so the zone is wider than the
    gap. *)
Theorem C6_fvg_detection_and_widened_edges :
  forall (ohlc : list Bar) (P : Params) (i : nat),
    let a := atr_at (calculate_atr ohlc (atr_period P)) i in
    let expand := (fvg_expand_atr P * a)%Q in
    let min_gap := (min_gap_atr P * a)%Q in
    let high_i := bar_high (iat ohlc i) in
    let low_i2 := bar_low (iat ohlc (i + 2)) in
    let low_i := bar_low (iat ohlc i) in
    let high_i2 := bar_high (iat ohlc (i + 2)) in
    let bull := Qltb high_i low_i2 && Qgeb (low_i2 - high_i) min_gap in
    let bear := Qgtb low_i high_i2 && Qgeb (low_i - high_i2) min_gap in
    let found := List.filter (fun g => fvg_start_idx g =? i) (find_fvg ohlc P) in
    found
    = (if (atr_period P <=? i) && (i + 2 <? length ohlc)
       then if bull
            then [mkFairValueGap bullish i (i + 2)
                    (bar_ts (iat ohlc i)) (bar_ts (iat ohlc (i + 2)))
                    (low_i2 + expand) (high_i - expand) ((low_i2 - high_i) * 10000)]
            else if bear
            then [mkFairValueGap bearish i (i + 2)
                    (bar_ts (iat ohlc i)) (bar_ts (iat ohlc (i + 2)))
                    (low_i + expand) (high_i2 - expand) ((low_i - high_i2) * 10000)]
            else []
       else [])
    /\ ((low_i <= high_i)%Q -> (low_i2 <= high_i2)%Q -> bull && bear = false)
    /\ ((0 <= expand)%Q ->
        forall g, In g found ->
          match fvg_type g with
          | bullish => (fvg_gap_bottom g <= high_i)%Q /\ (low_i2 <= fvg_gap_top g)%Q
          | bearish => (fvg_gap_bottom g <= high_i2)%Q /\ (low_i <= fvg_gap_top g)%Q
          end).
Proof.
  intros ohlc P i a expand min_gap high_i low_i2 low_i high_i2 bull bear found.
  assert (Hfound : found
    = (if (atr_period P <=? i) && (i + 2 <? length ohlc)
       then if bull
            then [mkFairValueGap bullish i (i + 2)
                    (bar_ts (iat ohlc i)) (bar_ts (iat ohlc (i + 2)))
                    (low_i2 + expand) (high_i - expand) ((low_i2 - high_i) * 10000)]
            else if bear
            then [mkFairValueGap bearish i (i + 2)
                    (bar_ts (iat ohlc i)) (bar_ts (iat ohlc (i + 2)))
                    (low_i + expand) (high_i2 - expand) ((low_i - high_i2) * 10000)]
            else []
       else [])).
  { subst found. rewrite find_fvg_at. unfold fvg_at. reflexivity. }
  split; [exact Hfound|]. split.
  - intros H1 H2. subst bull bear.
    destruct (Qltb high_i low_i2) eqn:E1; [|reflexivity].
    destruct (Qgtb low_i high_i2) eqn:E2; [|cbn; apply andb_false_r].
    apply Qltb_lt in E1. apply Qgtb_gt in E2. exfalso. lra.
  - intros Hexp g Hg. rewrite Hfound in Hg.
    destruct ((atr_period P <=? i) && (i + 2 <? length ohlc)); [|destruct Hg].
    destruct bull.
    + destruct Hg as [<- | []]. cbn. split; lra.
    + destruct bear; [|destruct Hg].
      destruct Hg as [<- | []]. cbn. split; lra.
Qed.

(** C6, the claim as stated, fails on scenario A: the gap between the high
    of bar 2 (101) and the low of bar 4 (103) is recorded as [100.6, 103.4],
    wider than the gap by 0.4 on each side, not narrower. *)
Lemma C6_counterexample_gap_is_widened :
  map (fun g => (fvg_type g, Qred (fvg_gap_bottom g), Qred (fvg_gap_top g)))
      (List.filter (fun g => fvg_start_idx g =? 2) (find_fvg series_a params_a))
  = [(bullish, (503 # 5)%Q, (517 # 5)%Q)]
  /\ Qred (bar_high (iat series_a 2)) = 101%Q
  /\ Qred (bar_low (iat series_a 4)) = 103%Q
  /\ Qred (fvg_expand_atr params_a
           * atr_at (calculate_atr series_a (atr_period params_a)) 2) = (2 # 5)%Q
  /\ (503 # 5 < 101)%Q /\ (103 < 517 # 5)%Q.
Proof. repeat split; vm_compute; reflexivity. Qed.

(** ** The average true range *)

Lemma true_range_bounds (pc : Q) (b : Bar) :
  (Qabs (bar_high b - pc) <= true_range (Some pc) b)%Q
  /\ (Qabs (bar_low b - pc) <= true_range (Some pc) b)%Q.
Proof.
  unfold true_range.
  destruct (qmax_cases (Qabs (bar_high b - bar_low b)) (Qabs (bar_high b - pc)))
    as [[H1 E1] | [H1 E1]]; rewrite E1;
  match goal with
  | |- context [qmax ?x ?y] => destruct (qmax_cases x y) as [[H2 E2] | [H2 E2]]; rewrite E2
  end; split; lra.
Qed.

Lemma true_range_nonneg (pc : option Q) (b : Bar) : (0 <= true_range pc b)%Q.
Proof.
  destruct pc as [pc|].
  - pose proof (true_range_bounds pc b) as [H _].
    pose proof (Qabs_nonneg (bar_high b - pc)). lra.
  - unfold true_range. cbv zeta. apply Qabs_nonneg.
Qed.

Lemma tr_series_nonneg (ohlc : list Bar) :
  forall pc, Forall (Qle 0) (tr_series pc ohlc).
Proof.
  induction ohlc as [|b rest IH]; intros pc; cbn [tr_series]; constructor.
  - apply true_range_nonneg.
  - apply IH.
Qed.

Lemma tr_series_length (ohlc : list Bar) :
  forall pc, length (tr_series pc ohlc) = length ohlc.
Proof.
  induction ohlc as [|b rest IH]; intros pc; cbn [tr_series length]; [reflexivity|].
  rewrite IH. reflexivity.
Qed.

(** ** Where swings and grabs come from *)

Section Provenance.

Variable ohlc : list Bar.

Lemma insert_swing_in (s x : SwingPoint) (l : list SwingPoint) :
  In x (insert_swing s l) -> x = s \/ In x l.
Proof.
  induction l as [|h t IH]; cbn [insert_swing].
  - intros [<- | []]. left. reflexivity.
  - destruct (sp_index s <=? sp_index h).
    + intros [<- | H]; [left; reflexivity | right; exact H].
    + intros [<- | H]; [right; left; reflexivity|].
      destruct (IH H) as [-> | H']; [left; reflexivity | right; right; exact H'].
Qed.

Lemma sort_swings_in (x : SwingPoint) (l : list SwingPoint) :
  In x (sort_swings l) -> In x l.
Proof.
  induction l as [|h t IH]; cbn [sort_swings fold_right]; [intros []|].
  intros H. apply insert_swing_in in H. destruct H as [-> | H].
  - left. reflexivity.
  - right. apply IH. exact H.
Qed.

(** The price of a swing is the high (for a swing high) or the low (for a
    swing low) of the bar it points at. *)
Lemma swing_price (lb : nat) (sw : SwingPoint) :
  In sw (ms_swings (detect_market_structure ohlc lb)) ->
  match sp_swing_type sw with
  | HIGH => sp_price sw = bar_high (iat ohlc (sp_index sw))
  | LOW => sp_price sw = bar_low (iat ohlc (sp_index sw))
  end.
Proof.
  unfold detect_market_structure.
  destruct (length ohlc <? lb * 2 + 1); cbn [ms_swings]; [intros []|].
  unfold detect_swings. intros H. apply sort_swings_in in H.
  apply in_app_or in H. destruct H as [H | H];
    apply in_map_iff in H; destruct H as (k & <- & _); cbn.
  - change 0%Q with (bar_high blank_bar). apply map_nth.
  - change 0%Q with (bar_low blank_bar). apply map_nth.
Qed.

Lemma grab_at_inv atr lga grb sw j g :
  In g (grab_at ohlc atr lga grb sw j) ->
  lg_grab_idx g = j
  /\ match sp_swing_type sw with
     | HIGH => (sp_price sw + lga * atr_at atr j < bar_high (iat ohlc j))%Q
     | LOW => (bar_low (iat ohlc j) < sp_price sw - lga * atr_at atr j)%Q
     end.
Proof.
  unfold grab_at. destruct (sp_swing_type sw).
  - destruct (Qgtb _ _) eqn:E; [|intros []].
    destruct (first_reclaim _ _ _ _); [|intros []].
    intros [<- | []]. split; [reflexivity|]. apply Qgtb_gt in E. exact E.
  - destruct (Qltb _ _) eqn:E; [|intros []].
    destruct (first_reclaim _ _ _ _); [|intros []].
    intros [<- | []]. split; [reflexivity|]. apply Qltb_lt in E. exact E.
Qed.

Lemma liquidity_grab_inv swings lga grb period g :
  In g (detect_liquidity_grab ohlc swings lga grb period) ->
  exists sw,
    In sw swings
    /\ sp_index sw < lg_grab_idx g < length ohlc
    /\ match sp_swing_type sw with
       | HIGH =>
           (sp_price sw + lga * atr_at (calculate_atr ohlc period) (lg_grab_idx g)
            < bar_high (iat ohlc (lg_grab_idx g)))%Q
       | LOW =>
           (bar_low (iat ohlc (lg_grab_idx g))
            < sp_price sw - lga * atr_at (calculate_atr ohlc period) (lg_grab_idx g))%Q
       end.
Proof.
  unfold detect_liquidity_grab.
  destruct (length ohlc <? period + grb); [intros []|].
  intros H. apply List.in_flat_map in H. destruct H as (sw & Hsw & H).
  unfold grabs_of_swing in H. apply List.in_flat_map in H.
  destruct H as (j & Hj & H). unfold py_range in Hj. apply List.in_seq in Hj.
  apply grab_at_inv in H. destruct H as [Hidx Hbreach].
  exists sw. split; [exact Hsw|]. rewrite Hidx. split; [lia | exact Hbreach].
Qed.

End Provenance.

(** ** The bar a loop iteration looks at *)

Section Risk.

Lemma last_bar_firstn (l : list Bar) :
  forall i, i < length l -> last_bar (firstn (i + 1) l) = iat l i.
Proof.
  unfold last_bar, iat.
  induction l as [|b rest IH]; intros i Hi; cbn [length] in Hi; [lia|].
  rewrite Nat.add_1_r. destruct i as [|i].
  - destruct rest; reflexivity.
  - cbn [firstn nth]. rewrite <- (IH i) by lia. rewrite Nat.add_1_r.
    destruct rest as [|b' rest']; cbn [length] in Hi; [lia|]. reflexivity.
Qed.

Lemma within_bounds (bottom x top : Q) :
  within bottom x top = true -> (bottom <= x)%Q /\ (x <= top)%Q.
Proof.
  unfold within. intros H. apply andb_true_iff in H. destruct H as [H1 H2].
  apply Qleb_le in H1. apply Qleb_le in H2. auto.
Qed.

Lemma bar_view_fields ohlc P atr i :
  i < length ohlc ->
  let v := bar_view ohlc P atr i in
  bv_price v = bar_close (iat ohlc i)
  /\ bv_low v = bar_low (iat ohlc i)
  /\ bv_high v = bar_high (iat ohlc i)
  /\ bv_atr_now v = atr_at atr i.
Proof.
  intros Hi. unfold bar_view. cbn. rewrite (last_bar_firstn ohlc i Hi). auto.
Qed.

End Risk.

(** ** Stop distance of open positions *)

Section Guard.

Variable cfg : Config.

Lemma list_remove_in (p x : Position) (l : list Position) :
  In x (list_remove p l) -> In x l.
Proof.
  induction l as [|y rest IH]; cbn [list_remove]; [intros []|].
  destruct (Position_eqb y p).
  - intros H. right. exact H.
  - intros [<- | H]; [left; reflexivity | right; apply IH; exact H].
Qed.

Lemma list_remove_forall (Q : Position -> Prop) (p : Position) (l : list Position) :
  Forall Q l -> Forall Q (list_remove p l).
Proof.
  intros H. apply List.Forall_forall. intros x Hx.
  apply (proj1 (List.Forall_forall _ _) H). apply (list_remove_in p). exact Hx.
Qed.

Lemma exit_position_guarded pos bar ts reason st :
  book_guarded st -> book_guarded (_exit_position cfg pos bar ts reason st).
Proof.
  unfold book_guarded. intros Hopen.
  rewrite exit_position_open. apply list_remove_forall. exact Hopen.
Qed.

Lemma check_exit_guarded bar ts st pos :
  book_guarded st -> book_guarded (check_exit cfg bar ts st pos).
Proof.
  intros Hst. rewrite check_exit_rule.
  destruct (exit_rule bar pos); [apply exit_position_guarded|]; assumption.
Qed.

Lemma fold_check_exit_guarded bar ts (l : list Position) :
  forall st,
    book_guarded st -> book_guarded (fold_left (check_exit cfg bar ts) l st).
Proof.
  induction l as [|pos rest IH]; intros st Hst; cbn [fold_left]; [exact Hst|].
  apply IH. apply check_exit_guarded; assumption.
Qed.

Lemma check_exits_guarded bar ts st :
  book_guarded st -> book_guarded (_check_exits cfg bar ts st).
Proof. intros Hst. apply fold_check_exit_guarded. exact Hst. Qed.

Lemma enter_position_guarded signal bar ts st :
  book_guarded st -> book_guarded (_enter_position cfg signal bar ts st).
Proof.
  unfold book_guarded. intros Hopen.
  destruct (enter_position_cases cfg signal bar ts st)
    as (_ & _ & [-> | (pos & -> & Hpos & _)]); [exact Hopen|].
  apply Forall_app. split; [exact Hopen|]. constructor; [exact Hpos | constructor].
Qed.

Lemma enter_rows_guarded rows bar ts :
  forall st, book_guarded st -> book_guarded (enter_rows cfg rows bar ts st).
Proof.
  induction rows as [|row rest IH]; intros st Hst; cbn [enter_rows]; [exact Hst|].
  destruct (max_positions cfg <=? Z.of_nat (length (open_positions st)))%Z; [exact Hst|].
  apply IH, enter_position_guarded, Hst.
Qed.

Lemma process_bar_guarded sbt bar st :
  book_guarded st -> book_guarded (process_bar cfg sbt bar st).
Proof.
  intros Hst. unfold process_bar.
  pose proof (check_exits_guarded bar (bar_ts bar) st Hst) as H1.
  assert (H2 : book_guarded
                 (enter_signals cfg sbt bar (bar_ts bar)
                    (_check_exits cfg bar (bar_ts bar) st))).
  { unfold enter_signals.
    destruct (Z.of_nat _ <? max_positions cfg)%Z; [|exact H1].
    destruct (sbt !! bar_ts bar); [apply enter_rows_guarded|]; exact H1. }
  exact H2.
Qed.

Lemma run_trace_guarded sbt bars :
  forall st, book_guarded st -> Forall book_guarded (run_trace cfg sbt bars st).
Proof.
  induction bars as [|bar rest IH]; intros st Hst; cbn [run_trace]; [constructor|].
  pose proof (process_bar_guarded sbt bar st Hst) as H'.
  constructor; [exact H'|].
  destruct (depleted (process_bar cfg sbt bar st)); [constructor | apply IH, H'].
Qed.

Lemma reset_state_guarded r : book_guarded (reset_state cfg r).
Proof. constructor. Qed.

End Guard.

(** C5.  The generator has no risk test, and a signal of zero risk is
    emitted.  On scenario E (thirty bars, each with its close between low
    and high; parameters [validate_params] accepts; an ATR span of one) the
    ATR of the motionless bar 28 is zero, the liquidity grab at that bar
    confirms, the low touches the lower edge of the fair value gap, and
    [generate_signals] returns one buy row whose stop and target equal its
    entry: its stop is not below its price and its target not above it.
    The only guard is the one of [_enter_position], on |fill - stop|, which
    slippage and spread make positive: the backtester opens a position for
    this row and stops it out on the next bar.  That guard does hold
    whatever the signals are: a position [_enter_position] opens has a
    positive stop distance, and so has every open position after every bar
    of a run. *)
Theorem C5_zero_risk_signal_is_emitted :
  map signal_digest (generate_signals params_e series_e)
  = [ (28%Z, buy, "FVG+ChoCH/LQ"%string) ]
  /\ map signal_levels (generate_signals params_e series_e)
     = [ ((503 # 5)%Q, (503 # 5)%Q, (503 # 5)%Q) ]
  /\ map (fun s => Qred (signal_risk s)) (generate_signals params_e series_e) = [ 0%Q ]
  /\ map (fun s => (Qltb (sig_stop s) (sig_price s), Qgtb (sig_tp s) (sig_price s)))
         (generate_signals params_e series_e)
     = [ (false, false) ]
  /\ validate_params params_e = true
  /\ forallb well_formed_barb series_e = true
  /\ length series_e = 30
  /\ Qred (atr_at (calculate_atr series_e (atr_period params_e)) 28) = 0%Q
  /\ flat_map
       (fun s =>
          map (fun p => (pos_entry_ts p, Qred (pos_entry_price p), Qred (pos_stop p),
                         Qred (pos_tp p), Qred (pos_size p)))
              (open_positions
                 (_enter_position default_config s (iat series_e 28) 28
                    (reset_state default_config (constant_random (1 # 2))))))
       (generate_signals params_e series_e)
     = [ (28%Z, (503001 # 5000)%Q, (503 # 5)%Q, (503 # 5)%Q, 5%Q) ]
  /\ option_map (fun res => map trade_digest (res_trades res))
       (run default_config params_e series_e (constant_random (1 # 2)))
     = Some [ (28%Z, 29%Z, "stop_loss"%string, (503 # 5)%Q, (-100.0503)%Q) ]
  /\ (forall cfg signal bar ts st,
        open_positions (_enter_position cfg signal bar ts st) = open_positions st
        \/ exists pos,
             open_positions (_enter_position cfg signal bar ts st)
             = open_positions st ++ [pos]
             /\ positive_stop_distance pos)
  /\ (forall cfg signals bars r,
        Forall book_guarded
               (run_trace cfg (group_signals signals) bars (reset_state cfg r))).
Proof.
  split; [vm_compute; reflexivity|].
  split; [vm_compute; reflexivity|].
  split; [vm_compute; reflexivity|].
  split; [vm_compute; reflexivity|].
  split; [vm_compute; reflexivity|].
  split; [vm_compute; reflexivity|].
  split; [vm_compute; reflexivity|].
  split; [vm_compute; reflexivity|].
  split; [vm_compute; reflexivity|].
  split; [vm_compute; reflexivity|].
  split.
  - intros cfg signal bar ts st.
    destruct (enter_position_cases cfg signal bar ts st) as (_ & _ & [H | (pos & H & Hpos & _)]).
    + left. exact H.
    + right. exists pos. split; [exact H | exact Hpos].
  - intros cfg signals bars r. apply run_trace_guarded, reset_state_guarded.
Qed.

(** * Further properties of the code *)

(** ** The average true range as a running average *)

Lemma ewm_alpha_unit (period : nat) :
  1 <= period -> (0 < ewm_alpha period)%Q /\ (ewm_alpha period <= 1)%Q.
Proof.
  intros Hp. unfold ewm_alpha.
  assert (H : (2 <= inject_Z (Z.of_nat period) + 1)%Q).
  { assert (H1 : (1 <= inject_Z (Z.of_nat period))%Q).
    { change 1%Q with (inject_Z 1). rewrite <- Zle_Qle. lia. }
    lra. }
  split.
  - apply Qlt_shift_div_l; lra.
  - apply Qle_shift_div_r; lra.
Qed.

Lemma ewm_from_length (alpha : Q) (xs : list Q) :
  forall y, length (ewm_from alpha y xs) = length xs.
Proof. induction xs as [|x rest IH]; intros y; cbn; [reflexivity | rewrite IH; reflexivity]. Qed.

Lemma ewm_mean_length (alpha : Q) (xs : list Q) : length (ewm_mean alpha xs) = length xs.
Proof. destruct xs; cbn; [reflexivity | rewrite ewm_from_length; reflexivity]. Qed.

Lemma calculate_atr_length (ohlc : list Bar) (period : nat) :
  length (calculate_atr ohlc period) = length ohlc.
Proof. unfold calculate_atr. rewrite ewm_mean_length. apply tr_series_length. Qed.

Lemma ewm_from_between (alpha lo hi : Q) (xs : list Q) :
  (0 <= alpha)%Q -> (alpha <= 1)%Q ->
  forall y,
    (lo <= y)%Q /\ (y <= hi)%Q ->
    Forall (fun x => (lo <= x)%Q /\ (x <= hi)%Q) xs ->
    Forall (fun x => (lo <= x)%Q /\ (x <= hi)%Q) (ewm_from alpha y xs).
Proof.
  intros Ha0 Ha1. induction xs as [|x rest IH]; intros y Hy Hxs; cbn [ewm_from]; [constructor|].
  inversion Hxs as [|? ? Hx Hrest]; subst.
  assert (Hstep : (lo <= (1 - alpha) * y + alpha * x)%Q /\ ((1 - alpha) * y + alpha * x <= hi)%Q).
  { destruct Hy as [Hy1 Hy2]. destruct Hx as [Hx1 Hx2]. split; nra. }
  constructor; [exact Hstep | apply IH; assumption].
Qed.

Lemma ewm_mean_between (alpha lo hi : Q) (xs : list Q) :
  (0 <= alpha)%Q -> (alpha <= 1)%Q ->
  Forall (fun x => (lo <= x)%Q /\ (x <= hi)%Q) xs ->
  Forall (fun x => (lo <= x)%Q /\ (x <= hi)%Q) (ewm_mean alpha xs).
Proof.
  intros Ha0 Ha1 Hxs. destruct xs as [|x rest]; cbn [ewm_mean]; [constructor|].
  inversion Hxs as [|? ? Hx Hrest]; subst.
  constructor; [exact Hx | apply ewm_from_between; assumption].
Qed.

Lemma ewm_from_ge (alpha lo : Q) (xs : list Q) :
  (0 <= alpha)%Q -> (alpha <= 1)%Q ->
  forall y, (lo <= y)%Q -> Forall (Qle lo) xs -> Forall (Qle lo) (ewm_from alpha y xs).
Proof.
  intros Ha0 Ha1. induction xs as [|x rest IH]; intros y Hy Hxs; cbn [ewm_from]; [constructor|].
  inversion Hxs as [|? ? Hx Hrest]; subst.
  assert (Hstep : (lo <= (1 - alpha) * y + alpha * x)%Q) by nra.
  constructor; [exact Hstep | apply IH; assumption].
Qed.

Lemma calculate_atr_nonneg (ohlc : list Bar) (period : nat) :
  1 <= period -> Forall (Qle 0) (calculate_atr ohlc period).
Proof.
  intros Hp. destruct (ewm_alpha_unit period Hp) as [Ha0 Ha1].
  unfold calculate_atr. pose proof (tr_series_nonneg ohlc None) as Htr.
  destruct (tr_series None ohlc) as [|x rest]; cbn [ewm_mean]; [constructor|].
  inversion Htr as [|? ? Hx Hrest]; subst.
  constructor; [exact Hx|]. apply ewm_from_ge; try assumption. lra.
Qed.

Lemma atr_at_nonneg (ohlc : list Bar) (period i : nat) :
  1 <= period -> (0 <= atr_at (calculate_atr ohlc period) i)%Q.
Proof.
  intros Hp. unfold atr_at.
  destruct (Nat.lt_ge_cases i (length (calculate_atr ohlc period))) as [Hi | Hi].
  - apply (proj1 (List.Forall_forall _ _) (calculate_atr_nonneg ohlc period Hp)).
    apply nth_In. exact Hi.
  - rewrite nth_overflow by exact Hi. lra.
Qed.

(** The ATR is a running average of the true ranges. *)
(** X1.  For a span of at least one, [calculate_atr] returns one value per
    bar, none of them negative, and every value lies between any two
    bounds that enclose all the true ranges of the frame: the smoothing
    factor 2 / (span + 1) is then at most one, so each step is a weighted
    average of the previous value and the new true range. *)
Theorem atr_is_a_running_average :
  forall (ohlc : list Bar) (period : nat),
    1 <= period ->
    length (calculate_atr ohlc period) = length ohlc
    /\ Forall (Qle 0) (calculate_atr ohlc period)
    /\ (forall lo hi : Q,
          Forall (fun x => (lo <= x)%Q /\ (x <= hi)%Q) (tr_series None ohlc) ->
          Forall (fun x => (lo <= x)%Q /\ (x <= hi)%Q) (calculate_atr ohlc period)).
Proof.
  intros ohlc period Hp. split; [apply calculate_atr_length|].
  split; [apply calculate_atr_nonneg; exact Hp|].
  intros lo hi Htr. destruct (ewm_alpha_unit period Hp) as [Ha0 Ha1].
  apply ewm_mean_between; [lra | exact Ha1 | exact Htr].
Qed.

Lemma atr_is_a_running_average_witness :
  length (calculate_atr series_a 14) = length series_a
  /\ Forall (Qle 0) (calculate_atr series_a 14)
  /\ (forall lo hi : Q,
        Forall (fun x => (lo <= x)%Q /\ (x <= hi)%Q) (tr_series None series_a) ->
        Forall (fun x => (lo <= x)%Q /\ (x <= hi)%Q) (calculate_atr series_a 14)).
Proof. apply (atr_is_a_running_average series_a 14). lia. Defined.

(** ** The ATR of a prefix *)

Lemma tr_series_firstn (ohlc : list Bar) :
  forall n pc, tr_series pc (firstn n ohlc) = firstn n (tr_series pc ohlc).
Proof.
  induction ohlc as [|b rest IH]; intros [|n] pc; cbn; try reflexivity.
  rewrite IH. reflexivity.
Qed.

Lemma ewm_from_firstn (alpha : Q) (xs : list Q) :
  forall n y, ewm_from alpha y (firstn n xs) = firstn n (ewm_from alpha y xs).
Proof.
  induction xs as [|x rest IH]; intros [|n] y; cbn; try reflexivity.
  rewrite IH. reflexivity.
Qed.

Lemma ewm_mean_firstn (alpha : Q) (xs : list Q) (n : nat) :
  ewm_mean alpha (firstn n xs) = firstn n (ewm_mean alpha xs).
Proof.
  destruct xs as [|x rest]; destruct n as [|n]; cbn; try reflexivity.
  rewrite ewm_from_firstn. reflexivity.
Qed.

Lemma calculate_atr_firstn (ohlc : list Bar) (period n : nat) :
  calculate_atr (firstn n ohlc) period = firstn n (calculate_atr ohlc period).
Proof. unfold calculate_atr. rewrite tr_series_firstn. apply ewm_mean_firstn. Qed.

Lemma nth_firstn_lt {A : Type} (l : list A) (d : A) :
  forall n i, i < n -> nth i (firstn n l) d = nth i l d.
Proof.
  induction l as [|a rest IH]; intros [|n] [|i] Hi; cbn; try reflexivity; try lia.
  apply IH. lia.
Qed.

(** X2.  [calculate_atr] is causal: the ATR of the first [n] bars is the first
    [n] values of the ATR of the whole frame, so the value at a bar does not
    depend on later bars, and the last ATR value of a slice [ohlc.iloc[:n]]
    is the full-frame ATR at bar [n - 1]. *)
Theorem atr_of_a_prefix :
  forall (ohlc : list Bar) (period n : nat),
    calculate_atr (firstn n ohlc) period = firstn n (calculate_atr ohlc period)
    /\ (forall i, i < n ->
          atr_at (calculate_atr (firstn n ohlc) period) i
          = atr_at (calculate_atr ohlc period) i)
    /\ (n <> 0 -> n <= length ohlc ->
        List.last (calculate_atr (firstn n ohlc) period) 0%Q
        = atr_at (calculate_atr ohlc period) (n - 1)).
Proof.
  intros ohlc period n. split; [apply calculate_atr_firstn|]. split.
  - intros i Hi. rewrite calculate_atr_firstn. unfold atr_at. apply nth_firstn_lt. exact Hi.
  - intros Hn Hlen. rewrite calculate_atr_firstn. unfold atr_at.
    pose proof (calculate_atr_length ohlc period) as Hl.
    set (a := calculate_atr ohlc period) in *.
    assert (Hlf : length (firstn n a) = n) by (rewrite length_firstn; lia).
    destruct (firstn n a) as [|x rest] eqn:E; [cbn in Hlf; lia|].
    rewrite <- (nth_firstn_lt a 0%Q n (n - 1)) by lia. rewrite E.
    rewrite <- Hlf. cbn [length]. rewrite Nat.sub_1_r. cbn [Nat.pred].
    clear. revert x. induction rest as [|y rest IH]; intros x; [reflexivity|].
    change (List.last (x :: y :: rest) 0%Q) with (List.last (y :: rest) 0%Q).
    rewrite IH. reflexivity.
Qed.

(** ** Swing points *)

Lemma fold_qmax_ge (rest : list Q) :
  forall x,
    (x <= fold_left qmax rest x)%Q
    /\ Forall (fun y => (y <= fold_left qmax rest x)%Q) rest.
Proof.
  induction rest as [|y rest IH]; intros x; cbn [fold_left].
  - split; [lra | constructor].
  - destruct (IH (qmax x y)) as [H1 H2].
    destruct (qmax_cases x y) as [[Hlt E] | [Hle E]]; rewrite E in *.
    + split; [lra|]. constructor; [exact H1 | exact H2].
    + split; [exact H1|]. constructor; [lra | exact H2].
Qed.

Lemma fold_qmin_le (rest : list Q) :
  forall x,
    (fold_left qmin rest x <= x)%Q
    /\ Forall (fun y => (fold_left qmin rest x <= y)%Q) rest.
Proof.
  induction rest as [|y rest IH]; intros x; cbn [fold_left].
  - split; [lra | constructor].
  - destruct (IH (qmin x y)) as [H1 H2].
    destruct (qmin_cases x y) as [[Hlt E] | [Hle E]]; rewrite E in *.
    + split; [lra|]. constructor; [exact H1 | exact H2].
    + split; [exact H1|]. constructor; [lra | exact H2].
Qed.

Lemma rolling_window_nth (xs : list Q) (lb i : nat) (w : list Q) :
  rolling_window xs lb i = Some w ->
  lb <= i /\ i + lb < length xs
  /\ forall k, i - lb <= k <= i + lb -> In (nth k xs 0%Q) w.
Proof.
  unfold rolling_window.
  destruct ((lb <=? i) && (i + lb <? length xs)) eqn:E; [|discriminate].
  apply andb_true_iff in E. destruct E as [E1 E2].
  apply Nat.leb_le in E1. apply Nat.ltb_lt in E2.
  intros [= <-]. split; [exact E1|]. split; [exact E2|].
  intros k Hk.
  replace k with ((i - lb) + (k - (i - lb))) at 1 by lia.
  rewrite <- List.nth_skipn.
  assert (Hin : k - (i - lb) < 2 * lb + 1) by lia.
  pose proof (List.nth_firstn (2 * lb + 1) (skipn (i - lb) xs) (k - (i - lb)) 0%Q) as Hf.
  apply Nat.ltb_lt in Hin. rewrite Hin in Hf. rewrite <- Hf.
  apply nth_In. rewrite length_firstn, List.length_skipn.
  apply Nat.ltb_lt in Hin. lia.
Qed.

Lemma rolling_max_bound (xs : list Q) (lb i : nat) (m : Q) :
  rolling_max xs lb i = Some m ->
  lb <= i /\ i + lb < length xs
  /\ forall k, i - lb <= k <= i + lb -> (nth k xs 0 <= m)%Q.
Proof.
  unfold rolling_max. destruct (rolling_window xs lb i) as [w|] eqn:E; [|discriminate].
  destruct (rolling_window_nth xs lb i w E) as (H1 & H2 & H3).
  destruct w as [|x rest]; [discriminate|]. intros [= <-].
  split; [exact H1|]. split; [exact H2|]. intros k Hk.
  destruct (fold_qmax_ge rest x) as [Hx Hrest].
  destruct (H3 k Hk) as [<- | Hin]; [exact Hx|].
  apply (proj1 (List.Forall_forall _ _) Hrest). exact Hin.
Qed.

Lemma rolling_min_bound (xs : list Q) (lb i : nat) (m : Q) :
  rolling_min xs lb i = Some m ->
  lb <= i /\ i + lb < length xs
  /\ forall k, i - lb <= k <= i + lb -> (m <= nth k xs 0)%Q.
Proof.
  unfold rolling_min. destruct (rolling_window xs lb i) as [w|] eqn:E; [|discriminate].
  destruct (rolling_window_nth xs lb i w E) as (H1 & H2 & H3).
  destruct w as [|x rest]; [discriminate|]. intros [= <-].
  split; [exact H1|]. split; [exact H2|]. intros k Hk.
  destruct (fold_qmin_le rest x) as [Hx Hrest].
  destruct (H3 k Hk) as [<- | Hin]; [exact Hx|].
  apply (proj1 (List.Forall_forall _ _) Hrest). exact Hin.
Qed.

Lemma np_roll_prev_inside (xs : list Q) (i : nat) :
  1 <= i -> i < length xs -> np_roll_prev xs i = nth (i - 1) xs 0%Q.
Proof.
  intros H1 H2. unfold np_roll_prev.
  replace (i + length xs - 1) with ((i - 1) + 1 * length xs) by lia.
  rewrite Nat.Div0.mod_add, Nat.mod_small by lia. reflexivity.
Qed.

Lemma np_roll_next_inside (xs : list Q) (i : nat) :
  i + 1 < length xs -> np_roll_next xs i = nth (i + 1) xs 0%Q.
Proof. intros H. unfold np_roll_next. rewrite Nat.mod_small by lia. reflexivity. Qed.

Lemma is_swing_high_inv (highs : list Q) (lb i : nat) :
  is_swing_high highs lb i = true ->
  lb <= i /\ i + lb < length highs
  /\ (forall k, i - lb <= k <= i + lb -> (nth k highs 0 <= nth i highs 0)%Q)
  /\ (1 <= lb ->
      (nth (i - 1) highs 0 < nth i highs 0)%Q /\ (nth (i + 1) highs 0 < nth i highs 0)%Q).
Proof.
  unfold is_swing_high. destruct (rolling_max highs lb i) as [m|] eqn:E; [|discriminate].
  destruct (rolling_max_bound highs lb i m E) as (H1 & H2 & H3).
  intros H. apply andb_true_iff in H. destruct H as [H Hnext].
  apply andb_true_iff in H. destruct H as [Heq Hprev].
  apply Qeqb_eq in Heq. apply Qgtb_gt in Hprev. apply Qgtb_gt in Hnext.
  split; [exact H1|]. split; [exact H2|]. split.
  - intros k Hk. rewrite Heq. apply H3. exact Hk.
  - intros Hlb. rewrite np_roll_prev_inside in Hprev by lia.
    rewrite np_roll_next_inside in Hnext by lia. split; assumption.
Qed.

Lemma is_swing_low_inv (lows : list Q) (lb i : nat) :
  is_swing_low lows lb i = true ->
  lb <= i /\ i + lb < length lows
  /\ (forall k, i - lb <= k <= i + lb -> (nth i lows 0 <= nth k lows 0)%Q)
  /\ (1 <= lb ->
      (nth i lows 0 < nth (i - 1) lows 0)%Q /\ (nth i lows 0 < nth (i + 1) lows 0)%Q).
Proof.
  unfold is_swing_low. destruct (rolling_min lows lb i) as [m|] eqn:E; [|discriminate].
  destruct (rolling_min_bound lows lb i m E) as (H1 & H2 & H3).
  intros H. apply andb_true_iff in H. destruct H as [H Hnext].
  apply andb_true_iff in H. destruct H as [Heq Hprev].
  apply Qeqb_eq in Heq. apply Qltb_lt in Hprev. apply Qltb_lt in Hnext.
  split; [exact H1|]. split; [exact H2|]. split.
  - intros k Hk. rewrite Heq. apply H3. exact Hk.
  - intros Hlb. rewrite np_roll_prev_inside in Hprev by lia.
    rewrite np_roll_next_inside in Hnext by lia. split; assumption.
Qed.

Lemma nth_highs (ohlc : list Bar) (k : nat) :
  nth k (map bar_high ohlc) 0%Q = bar_high (iat ohlc k).
Proof. change 0%Q with (bar_high blank_bar). apply map_nth. Qed.

Lemma nth_lows (ohlc : list Bar) (k : nat) :
  nth k (map bar_low ohlc) 0%Q = bar_low (iat ohlc k).
Proof. change 0%Q with (bar_low blank_bar). apply map_nth. Qed.

Lemma insert_swing_sorted (s : SwingPoint) (l : list SwingPoint) :
  StronglySorted swing_order l -> StronglySorted swing_order (insert_swing s l).
Proof.
  induction l as [|h t IH]; intros Hl; cbn [insert_swing].
  - constructor; constructor.
  - inversion Hl as [|? ? Ht Hh]; subst.
    destruct (sp_index s <=? sp_index h) eqn:E.
    + apply Nat.leb_le in E. constructor; [exact Hl|].
      constructor; [exact E|].
      apply List.Forall_forall. intros x Hx.
      pose proof (proj1 (List.Forall_forall _ _) Hh x Hx) as Hhx.
      unfold swing_order in *. lia.
    + apply Nat.leb_gt in E. constructor; [apply IH; exact Ht|].
      apply List.Forall_forall. intros x Hx.
      apply insert_swing_in in Hx. destruct Hx as [-> | Hx].
      * unfold swing_order. lia.
      * apply (proj1 (List.Forall_forall _ _) Hh x Hx).
Qed.

Lemma sort_swings_sorted (l : list SwingPoint) : StronglySorted swing_order (sort_swings l).
Proof.
  induction l as [|h t IH]; cbn [sort_swings fold_right]; [constructor|].
  apply insert_swing_sorted. exact IH.
Qed.

Lemma classify_trend_needs_two (hs ls : list SwingPoint) :
  classify_trend hs ls <> RANGING -> 2 <= length hs /\ 2 <= length ls.
Proof.
  unfold classify_trend. rewrite <- (length_rev hs), <- (length_rev ls).
  destruct (rev hs) as [|h1 [|h2 ?]]; try (intros H; exfalso; apply H; reflexivity).
  destruct (rev ls) as [|l1 [|l2 ?]]; try (intros H; exfalso; apply H; reflexivity).
  intros _. cbn. lia.
Qed.

(** X3.  Every swing point [detect_market_structure] reports sits at least
    [lookback] bars away from both ends of the frame, carries the timestamp
    of its bar, and its price is the high (low) of its bar, which no high
    (low) of the [2 * lookback + 1] bars centred on it exceeds (undercuts)
    and which, for [lookback >= 1], is strictly beyond both neighbours.  The
    swings come sorted by bar index, and a trend other than ranging needs at
    least two swing highs and two swing lows. *)
Theorem swings_are_window_extrema :
  forall (ohlc : list Bar) (lb : nat),
    let ms := detect_market_structure ohlc lb in
    Forall
      (fun sw =>
         lb <= sp_index sw /\ sp_index sw + lb < length ohlc
         /\ sp_timestamp sw = bar_ts (iat ohlc (sp_index sw))
         /\ match sp_swing_type sw with
            | HIGH =>
                sp_price sw = bar_high (iat ohlc (sp_index sw))
                /\ (forall k, sp_index sw - lb <= k <= sp_index sw + lb ->
                      (bar_high (iat ohlc k) <= sp_price sw)%Q)
                /\ (1 <= lb ->
                    (bar_high (iat ohlc (sp_index sw - 1)) < sp_price sw)%Q
                    /\ (bar_high (iat ohlc (sp_index sw + 1)) < sp_price sw)%Q)
            | LOW =>
                sp_price sw = bar_low (iat ohlc (sp_index sw))
                /\ (forall k, sp_index sw - lb <= k <= sp_index sw + lb ->
                      (sp_price sw <= bar_low (iat ohlc k))%Q)
                /\ (1 <= lb ->
                    (sp_price sw < bar_low (iat ohlc (sp_index sw - 1)))%Q
                    /\ (sp_price sw < bar_low (iat ohlc (sp_index sw + 1)))%Q)
            end)
      (ms_swings ms)
    /\ StronglySorted swing_order (ms_swings ms)
    /\ (ms_trend ms <> RANGING ->
        2 <= length (swings_of_type HIGH (ms_swings ms))
        /\ 2 <= length (swings_of_type LOW (ms_swings ms))).
Proof.
  intros ohlc lb ms. subst ms. unfold detect_market_structure.
  destruct (length ohlc <? lb * 2 + 1).
  { cbn [ms_swings ms_trend]. split; [constructor|]. split; [constructor|].
    intros H. exfalso. apply H. reflexivity. }
  cbn [ms_swings ms_trend]. split; [|split].
  - apply List.Forall_forall. intros sw H. unfold detect_swings in H.
    apply sort_swings_in in H. apply in_app_or in H.
    destruct H as [H | H]; apply in_map_iff in H; destruct H as (i & <- & Hi);
      apply List.filter_In in Hi; destruct Hi as [_ Hi]; cbn.
    + apply is_swing_high_inv in Hi. destruct Hi as (H1 & H2 & H3 & H4).
      rewrite length_map in H2. rewrite nth_highs.
      split; [exact H1|]. split; [exact H2|]. split; [reflexivity|].
      split; [reflexivity|]. split.
      * intros k Hk. specialize (H3 k Hk). rewrite !nth_highs in H3. exact H3.
      * intros Hlb. specialize (H4 Hlb). rewrite !nth_highs in H4. exact H4.
    + apply is_swing_low_inv in Hi. destruct Hi as (H1 & H2 & H3 & H4).
      rewrite length_map in H2. rewrite nth_lows.
      split; [exact H1|]. split; [exact H2|]. split; [reflexivity|].
      split; [reflexivity|]. split.
      * intros k Hk. specialize (H3 k Hk). rewrite !nth_lows in H3. exact H3.
      * intros Hlb. specialize (H4 Hlb). rewrite !nth_lows in H4. exact H4.
  - apply sort_swings_sorted.
  - apply classify_trend_needs_two.
Qed.

(** ** Order blocks *)

Lemma last_flagged_before_inv (flag : Bar -> bool) (ohlc : list Bar) :
  forall i j,
    last_flagged_before flag ohlc i = Some j ->
    j < i /\ flag (iat ohlc j) = true
    /\ forall k, j < k < i -> flag (iat ohlc k) = false.
Proof.
  induction i as [|i IH]; intros j; cbn [last_flagged_before]; [discriminate|].
  destruct (flag (iat ohlc i)) eqn:E.
  - intros [= <-]. split; [lia|]. split; [exact E|]. intros k Hk. lia.
  - intros H. destruct (IH j H) as (H1 & H2 & H3).
    split; [lia|]. split; [exact H2|]. intros k Hk.
    destruct (Nat.eq_dec k i) as [-> | Hne]; [exact E | apply H3; lia].
Qed.

Lemma all_candles_inv (flag : Bar -> bool) (ohlc : list Bar) (i n : nat) :
  all_candles flag ohlc i n = true -> i + n <= length ohlc ->
  forall k, i <= k < i + n -> flag (iat ohlc k) = true.
Proof.
  unfold all_candles. intros H Hlen k Hk.
  apply (proj1 (forallb_forall _ _) H).
  unfold iat. replace k with (i + (k - i)) by lia.
  rewrite <- List.nth_skipn.
  pose proof (List.nth_firstn n (skipn i ohlc) (k - i) blank_bar) as Hf.
  assert (Hin : (k - i <? n) = true) by (apply Nat.ltb_lt; lia).
  rewrite Hin in Hf. rewrite <- Hf.
  apply nth_In. rewrite length_firstn, List.length_skipn. lia.
Qed.

Lemma add_block_contains (ohlc : list Bar) (P : Params) (i : nat) (a : Q)
    (d : Direction) (j : nat) :
  (0 <= ob_expansion_atr P * a)%Q ->
  block_contains_candle P (add_block ohlc P i a d j) (iat ohlc j).
Proof.
  intros He. unfold block_contains_candle, add_block. cbn.
  destruct (detection_strict P).
  - destruct (qmax_cases (bar_open (iat ohlc j)) (bar_close (iat ohlc j))) as [[H1 ->] | [H1 ->]];
      destruct (qmin_cases (bar_open (iat ohlc j)) (bar_close (iat ohlc j))) as [[H2 ->] | [H2 ->]];
      repeat split; lra.
  - split; lra.
Qed.

Lemma negb_bullish (b : Bar) : is_bearish_candle b = negb (is_bullish_candle b).
Proof. reflexivity. Qed.

Lemma order_blocks_at_inv (ohlc : list Bar) (P : Params) (i : nat) (ob : OrderBlock) :
  1 <= min_impulse_bars P ->
  (0 <= ob_expansion_atr P * atr_at (calculate_atr ohlc (atr_period P)) i)%Q ->
  atr_period P <= i -> i + min_impulse_bars P < length ohlc ->
  In ob (order_blocks_at ohlc P (calculate_atr ohlc (atr_period P)) i) ->
  block_of_impulse ohlc P ob.
Proof.
  intros Hn He Hlo Hhi Hin. unfold order_blocks_at in Hin.
  apply in_app_or in Hin. destruct Hin as [Hin | Hin].
  - destruct (all_candles is_bullish_candle ohlc i (min_impulse_bars P)) eqn:Eall;
      cbn [andb] in Hin; [|destruct Hin].
    destruct (Qgeb _ _) eqn:Erange; [|destruct Hin].
    destruct (last_flagged_before is_bearish_candle ohlc i) as [j|] eqn:Elast; [|destruct Hin].
    destruct (i - j <=? max_age_bars P) eqn:Eage; [|destruct Hin].
    destruct Hin as [<- | []].
    apply last_flagged_before_inv in Elast. destruct Elast as (Hj & Hflag & Hbetween).
    apply Nat.leb_le in Eage. apply Qgeb_ge in Erange.
    exists i. cbn [add_block ob_start_idx ob_end_idx ob_start_ts ob_end_ts ob_type].
    repeat (split; [first [assumption | reflexivity | lia]|]).
    split; [apply add_block_contains; exact He|].
    split; [|split].
    + rewrite negb_bullish in Hflag. apply negb_true_iff in Hflag. exact Hflag.
    + intros k Hk. destruct (Nat.lt_ge_cases k i) as [Hki | Hki].
      * specialize (Hbetween k (conj (proj1 Hk) Hki)).
        rewrite negb_bullish in Hbetween. apply negb_false_iff in Hbetween. exact Hbetween.
      * apply (all_candles_inv _ _ _ _ Eall); lia.
    + exact Erange.
  - destruct (all_candles is_bearish_candle ohlc i (min_impulse_bars P)) eqn:Eall;
      cbn [andb] in Hin; [|destruct Hin].
    destruct (Qgeb _ _) eqn:Erange; [|destruct Hin].
    destruct (last_flagged_before is_bullish_candle ohlc i) as [j|] eqn:Elast; [|destruct Hin].
    destruct (i - j <=? max_age_bars P) eqn:Eage; [|destruct Hin].
    destruct Hin as [<- | []].
    apply last_flagged_before_inv in Elast. destruct Elast as (Hj & Hflag & Hbetween).
    apply Nat.leb_le in Eage. apply Qgeb_ge in Erange.
    exists i. cbn [add_block ob_start_idx ob_end_idx ob_start_ts ob_end_ts ob_type].
    repeat (split; [first [assumption | reflexivity | lia]|]).
    split; [apply add_block_contains; exact He|].
    split; [|split].
    + exact Hflag.
    + intros k Hk. destruct (Nat.lt_ge_cases k i) as [Hki | Hki].
      * apply Hbetween. lia.
      * assert (Hb : is_bearish_candle (iat ohlc k) = true)
          by (apply (all_candles_inv _ _ _ _ Eall); lia).
        rewrite negb_bullish in Hb. apply negb_true_iff in Hb. exact Hb.
    + exact Erange.
Qed.

(** X4.  With at least one impulse bar, a span of at least one and a
    non-negative expansion factor, every block [find_order_blocks] returns
    belongs to an impulse starting at some bar [i >= atr_period] that ends
    inside the frame: the block candle lies strictly before [i] and at most
    [max_age_bars] back, it has the colour opposite to the impulse, every
    candle after it up to the end of the impulse has the impulse's colour,
    the impulse spans at least [min_impulse_atr] ATRs, and the zone contains
    the block candle's body (strict mode) or its low and high. *)
Theorem order_blocks_precede_their_impulse :
  forall (ohlc : list Bar) (P : Params),
    1 <= min_impulse_bars P -> 1 <= atr_period P -> (0 <= ob_expansion_atr P)%Q ->
    Forall (block_of_impulse ohlc P) (find_order_blocks ohlc P).
Proof.
  intros ohlc P Hn Hp He. apply List.Forall_forall. intros ob Hob.
  unfold find_order_blocks in Hob.
  destruct (length ohlc <? atr_period P + min_impulse_bars P); [destruct Hob|].
  apply List.in_flat_map in Hob. destruct Hob as (i & Hi & Hob).
  unfold py_range in Hi. apply List.in_seq in Hi.
  apply (order_blocks_at_inv ohlc P i ob); try assumption; try lia.
  pose proof (atr_at_nonneg ohlc (atr_period P) i Hp). nra.
Qed.

Lemma order_blocks_precede_their_impulse_witness :
  find_order_blocks series_a params_a <> []
  /\ Forall (block_of_impulse series_a params_a) (find_order_blocks series_a params_a).
Proof.
  split; [vm_compute; discriminate|].
  apply (order_blocks_precede_their_impulse series_a params_a).
  - cbn. lia.
  - cbn. lia.
  - cbn. lra.
Defined.

(** ** Fair value gaps, in order *)

Lemma flat_map_seq_sorted {A : Type} (key : A -> nat) (f : nat -> list A) :
  (forall j x, In x (f j) -> key x = j) ->
  (forall j, length (f j) <= 1) ->
  forall n a, StronglySorted lt (map key (flat_map f (seq a n))).
Proof.
  intros Hkey Hone. induction n as [|n IH]; intros a; cbn [seq flat_map]; [constructor|].
  specialize (IH (S a)).
  assert (Hrest : Forall (lt a) (map key (flat_map f (seq (S a) n)))).
  { apply List.Forall_forall. intros k Hk. apply in_map_iff in Hk.
    destruct Hk as (x & <- & Hx). apply List.in_flat_map in Hx.
    destruct Hx as (j & Hj & Hx). apply List.in_seq in Hj.
    rewrite (Hkey j x Hx). lia. }
  pose proof (Hone a) as H1. pose proof (Hkey a) as Ha.
  destruct (f a) as [|x [|y rest]]; cbn [app map]; [exact IH | | cbn in H1; lia].
  constructor; [exact IH|]. rewrite (Ha x (or_introl eq_refl)). exact Hrest.
Qed.

Lemma fvg_at_length ohlc P atr i : length (fvg_at ohlc P atr i) <= 1.
Proof.
  unfold fvg_at. destruct (_ && _); [cbn; lia|]. destruct (_ && _); cbn; lia.
Qed.

Lemma fvg_at_inv (ohlc : list Bar) (P : Params) (i : nat) (g : FairValueGap) :
  (0 <= fvg_expand_atr P * atr_at (calculate_atr ohlc (atr_period P)) i)%Q ->
  atr_period P <= i -> i + 2 < length ohlc ->
  In g (fvg_at ohlc P (calculate_atr ohlc (atr_period P)) i) ->
  gap_of_triplet ohlc P g.
Proof.
  intros He Hlo Hhi Hin. unfold fvg_at in Hin.
  destruct (Qltb _ _ && Qgeb _ _) eqn:Ebull.
  - destruct Hin as [<- | []]. apply andb_true_iff in Ebull. destruct Ebull as [E1 E2].
    apply Qltb_lt in E1. unfold gap_of_triplet. cbn.
    repeat (split; [first [assumption | reflexivity | lia | lra]|]). lra.
  - destruct (Qgtb _ _ && Qgeb _ _) eqn:Ebear; [|destruct Hin].
    destruct Hin as [<- | []]. apply andb_true_iff in Ebear. destruct Ebear as [E1 E2].
    apply Qgtb_gt in E1. unfold gap_of_triplet. cbn.
    repeat (split; [first [assumption | reflexivity | lia | lra]|]). lra.
Qed.

(** X5.  With a span of at least one and a non-negative expansion factor,
    every gap [find_fvg] returns starts at a bar [i >= atr_period], ends at
    [i + 2] inside the frame, carries the timestamps of those two bars, has
    a strictly positive size (the raw gap times 10000) and a bottom strictly
    below its top; the gaps come in strictly increasing order of their
    start, so no triplet yields two gaps. *)
Theorem fair_value_gaps_are_ordered_triplets :
  forall (ohlc : list Bar) (P : Params),
    1 <= atr_period P -> (0 <= fvg_expand_atr P)%Q ->
    Forall (gap_of_triplet ohlc P) (find_fvg ohlc P)
    /\ StronglySorted lt (map fvg_start_idx (find_fvg ohlc P)).
Proof.
  intros ohlc P Hp He. split.
  - apply List.Forall_forall. intros g Hg. unfold find_fvg in Hg.
    destruct (length ohlc <? atr_period P + 3); [destruct Hg|].
    apply List.in_flat_map in Hg. destruct Hg as (i & Hi & Hg).
    unfold py_range in Hi. apply List.in_seq in Hi.
    apply (fvg_at_inv ohlc P i g); try assumption; try lia.
    pose proof (atr_at_nonneg ohlc (atr_period P) i Hp). nra.
  - unfold find_fvg. destruct (length ohlc <? atr_period P + 3); [constructor|].
    unfold py_range. apply flat_map_seq_sorted.
    + intros j x Hx. apply (fvg_at_start _ _ _ _ _ Hx).
    + intros j. apply fvg_at_length.
Qed.

Lemma fair_value_gaps_are_ordered_triplets_witness :
  find_fvg series_a params_a <> []
  /\ Forall (gap_of_triplet series_a params_a) (find_fvg series_a params_a)
  /\ StronglySorted lt (map fvg_start_idx (find_fvg series_a params_a)).
Proof.
  split; [vm_compute; discriminate|].
  apply (fair_value_gaps_are_ordered_triplets series_a params_a).
  - cbn. lia.
  - cbn. lra.
Defined.

(** ** Liquidity grabs *)

Lemma find_seq_first (f : nat -> bool) :
  forall n a j,
    find f (seq a n) = Some j ->
    a <= j < a + n /\ f j = true /\ forall k, a <= k < j -> f k = false.
Proof.
  induction n as [|n IH]; intros a j; cbn [seq find]; [discriminate|].
  destruct (f a) eqn:E.
  - intros [= <-]. split; [lia|]. split; [exact E|]. intros k Hk. lia.
  - intros H. destruct (IH (S a) j H) as (H1 & H2 & H3).
    split; [lia|]. split; [exact H2|]. intros k Hk.
    destruct (Nat.eq_dec k a) as [-> | Hne]; [exact E | apply H3; lia].
Qed.

Lemma first_reclaim_inv (reclaims : Bar -> bool) (ohlc : list Bar) (i grb j : nat) :
  first_reclaim reclaims ohlc i grb = Some j ->
  i < j /\ j <= i + grb /\ j < length ohlc
  /\ reclaims (iat ohlc j) = true
  /\ forall k, i < k < j -> reclaims (iat ohlc k) = false.
Proof.
  unfold first_reclaim, py_range. intros H.
  apply find_seq_first in H. destruct H as (H1 & H2 & H3).
  split; [lia|]. split; [lia|]. split; [lia|]. split; [exact H2|].
  intros k Hk. apply H3. lia.
Qed.

Lemma grab_at_swing (ohlc : list Bar) (atr : list Q) (lga : Q) (grb : nat)
    (sw : SwingPoint) (i : nat) (g : LiquidityGrab) :
  sp_index sw < i -> i <= sp_index sw + 50 ->
  In g (grab_at ohlc atr lga grb sw i) ->
  grab_of_swing ohlc atr lga grb sw g.
Proof.
  intros Hlo Hhi Hin. unfold grab_at in Hin. unfold grab_of_swing.
  destruct (sp_swing_type sw).
  - destruct (Qgtb _ _) eqn:E; [|destruct Hin].
    destruct (first_reclaim _ _ _ _) as [j|] eqn:Ej; [|destruct Hin].
    destruct Hin as [<- | []]. apply first_reclaim_inv in Ej.
    destruct Ej as (H1 & H2 & H3 & H4 & H5). apply Qgtb_gt in E. apply Qltb_lt in H4.
    cbn. replace (i + (j - i)) with j by lia.
    repeat (split; [first [assumption | reflexivity | lia]|]).
    intros k Hk. apply Qltb_ge. apply H5. exact Hk.
  - destruct (Qltb _ _) eqn:E; [|destruct Hin].
    destruct (first_reclaim _ _ _ _) as [j|] eqn:Ej; [|destruct Hin].
    destruct Hin as [<- | []]. apply first_reclaim_inv in Ej.
    destruct Ej as (H1 & H2 & H3 & H4 & H5). apply Qltb_lt in E. apply Qgtb_gt in H4.
    cbn. replace (i + (j - i)) with j by lia.
    repeat (split; [first [assumption | reflexivity | lia]|]).
    intros k Hk. apply Qgtb_le. apply H5. exact Hk.
Qed.

Lemma liquidity_grab_swing (ohlc : list Bar) swings lga grb period g :
  In g (detect_liquidity_grab ohlc swings lga grb period) ->
  exists sw, In sw swings /\ grab_of_swing ohlc (calculate_atr ohlc period) lga grb sw g.
Proof.
  unfold detect_liquidity_grab.
  destruct (length ohlc <? period + grb); [intros []|].
  intros H. apply List.in_flat_map in H. destruct H as (sw & Hsw & H).
  unfold grabs_of_swing in H. apply List.in_flat_map in H.
  destruct H as (i & Hi & H). unfold py_range in Hi. apply List.in_seq in Hi.
  exists sw. split; [exact Hsw|]. apply (grab_at_swing ohlc _ lga grb sw i g); [lia | lia | exact H].
Qed.

(** X6.  Every grab [detect_liquidity_grab] returns belongs to one of the
    swings it was given: the grab bar lies 1 to 50 bars after the swing and
    breaches the swing price by more than [liquidity_grab_atr] ATRs (above a
    swing high, giving a bearish grab; below a swing low, giving a bullish
    one); [reclaim_bars] is between 1 and [grab_reclaim_bars], the bar that
    many bars after the grab bar exists and is the first one after it to
    close back beyond the swing price.  A frame shorter than
    [atr_period + grab_reclaim_bars] yields no grab. *)
Theorem liquidity_grabs_sweep_and_reclaim :
  forall (ohlc : list Bar) (swings : list SwingPoint) (lga : Q) (grb period : nat),
    Forall
      (fun g => exists sw,
           In sw swings
           /\ grab_of_swing ohlc (calculate_atr ohlc period) lga grb sw g)
      (detect_liquidity_grab ohlc swings lga grb period)
    /\ (length ohlc < period + grb -> detect_liquidity_grab ohlc swings lga grb period = []).
Proof.
  intros ohlc swings lga grb period. split.
  - apply List.Forall_forall. intros g Hg. apply liquidity_grab_swing. exact Hg.
  - intros H. unfold detect_liquidity_grab. apply Nat.ltb_lt in H. rewrite H. reflexivity.
Qed.

(** ** Signals and the bars they come from *)

Lemma grab_confirms_exclusive (g : option LiquidityGrab) :
  grab_confirms g bullish = true -> grab_confirms g bearish = true -> False.
Proof.
  destruct g as [g|]; cbn; [|discriminate]. destruct (lg_type g); cbn; discriminate.
Qed.

Lemma option_entry_inv {A : Type} (make : A -> Signal) (f : A -> bool) (l : list A)
    (s : Signal) :
  In s (option_list (option_map make (find f l))) -> exists z, In z l /\ f z = true /\ s = make z.
Proof.
  destruct (find f l) as [z|] eqn:E; cbn; [|intros []].
  intros [<- | []]. apply find_some in E. exists z. tauto.
Qed.

Lemma option_entry_length {A : Type} (make : A -> Signal) (o : option A) :
  length (option_list (option_map make o)) <= 1.
Proof. destruct o; cbn; lia. Qed.

Lemma evaluate_bar_inv ohlc P atr obs fvgs grabs i s :
  In s (evaluate_bar ohlc P atr obs fvgs grabs i) ->
  let v := bar_view ohlc P atr i in
  let g := recent_grab_at grabs i in
  row_of_view P v s
  /\ grab_confirms g (grab_direction (sig_side s)) = true
  /\ match sig_side s with
     | buy => bv_trend v = BULLISH \/ bv_trend v = RANGING
     | sell => bv_trend v = BEARISH
     end.
Proof.
  intros H v g. rewrite evaluate_bar_shape in H. fold v in H. fold g in H.
  apply in_app_or in H. destruct H as [H | H].
  - destruct (trend_in (bv_trend v) BULLISH RANGING && grab_confirms g bullish) eqn:E;
      [|destruct H].
    apply andb_true_iff in E. destruct E as [Et Eg].
    assert (Htrend : bv_trend v = BULLISH \/ bv_trend v = RANGING).
    { destruct (bv_trend v); cbn in Et; try discriminate; auto. }
    apply in_app_or in H. destruct H as [H | H];
      apply option_entry_inv in H; destruct H as (z & _ & _ & ->);
      cbn; unfold row_of_view; cbn; repeat split; try assumption; try reflexivity; ring.
  - destruct ((negb (trend_in (bv_trend v) BULLISH RANGING) || grab_confirms g bullish)
              && trend_in (bv_trend v) BEARISH RANGING && grab_confirms g bearish) eqn:E;
      [|destruct H].
    apply andb_true_iff in E. destruct E as [E Eg].
    apply andb_true_iff in E. destruct E as [Eb Et].
    assert (Htrend : bv_trend v = BEARISH).
    { apply orb_true_iff in Eb. destruct Eb as [Eb | Eb].
      - destruct (bv_trend v); cbn in Eb, Et; try discriminate; reflexivity.
      - exfalso. exact (grab_confirms_exclusive g Eb Eg). }
    apply in_app_or in H. destruct H as [H | H];
      apply option_entry_inv in H; destruct H as (z & _ & _ & ->);
      cbn; unfold row_of_view; cbn; repeat split; try assumption; try reflexivity; ring.
Qed.

Lemma evaluate_bar_length ohlc P atr obs fvgs grabs i :
  length (evaluate_bar ohlc P atr obs fvgs grabs i) <= 2.
Proof.
  rewrite evaluate_bar_shape.
  set (v := bar_view ohlc P atr i). set (g := recent_grab_at grabs i).
  rewrite length_app.
  destruct (grab_confirms g bullish) eqn:Eb; destruct (grab_confirms g bearish) eqn:Es;
    try (exfalso; exact (grab_confirms_exclusive g Eb Es));
    rewrite ?andb_false_r, ?andb_true_r;
    repeat match goal with
           | |- context [if ?c then _ else _] => destruct c
           end;
    rewrite ?length_app; cbn [length];
    repeat match goal with
           | |- context [length (option_list (option_map ?m ?o))] =>
               let H := fresh in
               pose proof (option_entry_length m o) as H;
               generalize dependent (length (option_list (option_map m o))); intros
           end; lia.
Qed.

Lemma recent_grab_confirms grabs i d :
  grab_confirms (recent_grab_at grabs i) d = true ->
  exists g, In g grabs /\ lg_grab_idx g = i /\ lg_type g = d.
Proof.
  unfold recent_grab_at, grab_confirms.
  destruct (find _ grabs) as [g|] eqn:E; [|discriminate].
  apply find_some in E. destruct E as [Hin Hidx]. apply Nat.eqb_eq in Hidx.
  intros Hd. exists g. split; [exact Hin|]. split; [exact Hidx|].
  destruct (lg_type g), d; cbn in Hd; try discriminate; reflexivity.
Qed.

Lemma generate_signals_confirmed (P : Params) (ohlc : list Bar) (s : Signal) :
  In s (generate_signals P ohlc) -> confirmed_by_later_close P ohlc s.
Proof.
  intros Hs.
  unfold generate_signals in Hs.
  destruct (length ohlc <? min_bars P) eqn:Eshort; [destruct Hs|].
  apply signal_loop_in in Hs. destruct Hs as (i & Hi & Hs).
  unfold py_range in Hi. apply List.in_seq in Hi.
  assert (Hlen : i < length ohlc) by lia.
  apply evaluate_bar_inv in Hs. destruct Hs as ((Hts & Hprice & _ & Htp) & Hg & _).
  apply recent_grab_confirms in Hg. destruct Hg as (g & Hin & Hidx & Htype).
  destruct (use_liquidity_grabs P); [|destruct Hin].
  apply liquidity_grab_swing in Hin. destruct Hin as (sw & Hsw & Hgrab).
  destruct (bar_view_fields ohlc P (calculate_atr ohlc (atr_period P)) i Hlen)
    as (Hvp & _ & _ & _).
  exists i, g, sw.
  assert (Hnext : i + 1 < length ohlc).
  { destruct Hgrab as (_ & _ & _ & _ & _ & H1 & _ & H2 & _). rewrite Hidx in H2. lia. }
  split; [lia|]. split; [exact Hnext|].
  split. { rewrite Hts. unfold bar_view. cbn. rewrite (last_bar_firstn ohlc i Hlen). reflexivity. }
  split. { rewrite Hprice. exact Hvp. }
  split; [exact Htp|]. split; [exact Hsw|]. split; [exact Hgrab|].
  split; [exact Hidx | exact Htype].
Qed.

(** X7.  Every row [generate_signals] returns is stamped with a bar [i] of
    the frame, [min_bars <= i], carries that bar's timestamp and close as
    entry price, and has its target at [risk_reward] times the distance from
    stop to entry on the other side of the entry.  It was confirmed by a
    liquidity grab at bar [i] of the matching direction, and such a grab
    exists only once a bar after [i] (at most three bars later) has closed
    back beyond the swept swing: no row is ever stamped with the last bar of
    the frame. *)
Theorem signals_wait_for_a_later_close :
  forall (P : Params) (ohlc : list Bar),
    Forall (confirmed_by_later_close P ohlc) (generate_signals P ohlc).
Proof.
  intros P ohlc. apply List.Forall_forall. intros s Hs.
  apply generate_signals_confirmed. exact Hs.
Qed.

(** ** Sides and trend *)

(** X8.  A sell row is only emitted where the rolling structure is bearish,
    a buy row only where it is bullish or ranging: in a ranging structure
    the bullish context needs a bullish grab at the bar, and the same grab
    can then not confirm the bearish context.  All rows emitted at one bar
    have the same side. *)
Theorem sells_need_a_bearish_trend :
  forall (P : Params) (ohlc : list Bar),
    Forall
      (fun s =>
         match sig_side s with
         | buy => meta_trend (sig_meta s) = BULLISH \/ meta_trend (sig_meta s) = RANGING
         | sell => meta_trend (sig_meta s) = BEARISH
         end)
      (generate_signals P ohlc)
    /\ (forall atr obs fvgs grabs i s1 s2,
          In s1 (evaluate_bar ohlc P atr obs fvgs grabs i) ->
          In s2 (evaluate_bar ohlc P atr obs fvgs grabs i) ->
          sig_side s1 = sig_side s2).
Proof.
  intros P ohlc. split.
  - apply List.Forall_forall. intros s Hs. unfold generate_signals in Hs.
    destruct (length ohlc <? min_bars P); [destruct Hs|].
    apply signal_loop_in in Hs. destruct Hs as (i & _ & Hs).
    apply evaluate_bar_inv in Hs. destruct Hs as ((_ & _ & Hm & _) & _ & Ht).
    rewrite Hm. exact Ht.
  - intros atr obs fvgs grabs i s1 s2 H1 H2.
    apply evaluate_bar_inv in H1. apply evaluate_bar_inv in H2.
    destruct H1 as (_ & G1 & _). destruct H2 as (_ & G2 & _).
    destruct (sig_side s1), (sig_side s2); try reflexivity; exfalso; cbn in G1, G2.
    + exact (grab_confirms_exclusive _ G1 G2).
    + exact (grab_confirms_exclusive _ G2 G1).
Qed.

(** ** The cooldown *)

Lemma signal_loop_groups (body : nat -> list Signal) (bars : list nat) :
  forall last,
    exists groups : list (nat * list Signal),
      signal_loop body bars last = flat_map snd groups
      /\ Forall (fun p => In (fst p) bars /\ snd p = body (fst p) /\ snd p <> []
                          /\ (last + cool_off <= Z.of_nat (fst p))%Z) groups
      /\ StronglySorted five_bars_apart groups.
Proof.
  induction bars as [|i rest IH]; intros last; cbn [signal_loop].
  - exists []. split; [reflexivity|]. split; constructor.
  - destruct (Z.of_nat i - last <? cool_off)%Z eqn:E.
    + destruct (IH last) as (groups & H1 & H2 & H3). exists groups.
      split; [exact H1|]. split; [|exact H3].
      eapply List.Forall_impl; [|exact H2]. cbn. intros p (Ha & Hb). split; [right; exact Ha | exact Hb].
    + apply Z.ltb_ge in E. destruct (body i) as [|s sigs] eqn:Eb.
      * destruct (IH last) as (groups & H1 & H2 & H3). exists groups.
        split; [exact H1|]. split; [|exact H3].
        eapply List.Forall_impl; [|exact H2]. cbn. intros p (Ha & Hb).
        split; [right; exact Ha | exact Hb].
      * destruct (IH (Z.of_nat i)) as (groups & H1 & H2 & H3).
        exists ((i, s :: sigs) :: groups). split.
        { cbn [flat_map snd]. rewrite H1. reflexivity. }
        split.
        { constructor.
          - cbn. split; [left; reflexivity|]. split; [symmetry; exact Eb|].
            split; [discriminate | lia].
          - eapply List.Forall_impl; [|exact H2]. cbn. intros p (Ha & Hb & Hc & Hd).
            split; [right; exact Ha|]. split; [exact Hb|]. split; [exact Hc|].
            unfold cool_off in *. lia. }
        { constructor; [exact H3|].
          eapply List.Forall_impl; [|exact H2]. cbn. intros p (_ & _ & _ & Hd).
          unfold five_bars_apart, cool_off in *. cbn. lia. }
Qed.

(** X9.  The rows of [generate_signals] fall into groups, one per bar that
    emitted something, in frame order: each group is non-empty, has at most
    two rows, all stamped with the bar's timestamp, and any two emitting
    bars are at least five bars apart (the cool-off). *)
Theorem signal_bars_are_five_apart :
  forall (P : Params) (ohlc : list Bar),
    exists groups : list (nat * list Signal),
      generate_signals P ohlc = flat_map snd groups
      /\ Forall
           (fun p =>
              min_bars P <= fst p < length ohlc
              /\ snd p <> [] /\ length (snd p) <= 2
              /\ Forall (fun s => sig_ts s = bar_ts (iat ohlc (fst p))) (snd p))
           groups
      /\ StronglySorted five_bars_apart groups.
Proof.
  intros P ohlc. unfold generate_signals.
  destruct (length ohlc <? min_bars P) eqn:Eshort.
  { exists []. split; [reflexivity|]. split; constructor. }
  match goal with
  | |- context [signal_loop ?b ?l ?z] => destruct (signal_loop_groups b l z) as (groups & H1 & H2 & H3)
  end.
  exists groups. split; [exact H1|]. split; [|exact H3].
  eapply List.Forall_impl; [|exact H2]. cbn. intros [i sigs]. cbn [fst snd].
  intros (Hi & Hb & Hne & _). unfold py_range in Hi. apply List.in_seq in Hi.
  apply Nat.ltb_ge in Eshort.
  assert (Hlen : i < length ohlc) by lia.
  split; [lia|]. split; [exact Hne|]. split.
  - rewrite Hb. apply evaluate_bar_length.
  - apply List.Forall_forall. intros s Hs. rewrite Hb in Hs.
    apply evaluate_bar_inv in Hs. destruct Hs as ((Hts & _) & _).
    rewrite Hts. unfold bar_view. cbn. rewrite (last_bar_firstn ohlc i Hlen). reflexivity.
Qed.

(** ** The order simulator *)

Lemma simulate_fill_cost (cfg : Config) (side : Side) (price : Q) (b : bool)
    (r : RandomState) :
  (fill_cost side price (fst (simulate_fill cfg side price b r))
   == (if b
       then slippage cfg * ((1 # 2) + random_values r (random_taken r))
       else slippage cfg) + spread cfg / 2)%Q
  /\ snd (simulate_fill cfg side price b r)
     = if b then mkRandom (random_values r) (S (random_taken r)) else r.
Proof.
  unfold simulate_fill, random_uniform, half_spread, fill_cost.
  destruct b, side; cbn; split; try reflexivity; field.
Qed.

(** X11.  With a non-negative slippage and a draw in the unit interval, what a
    randomised fill costs against the mid price (paid above it by a buyer,
    received below it by a seller) lies between 0.5 and 1.5 times the
    slippage plus half the spread; without randomness it is exactly the
    slippage plus half the spread.  A randomised fill takes exactly one
    draw, a plain one none, and buy and sell fills for the same draw are
    mirror images around the price. *)
Theorem fills_stay_within_the_slippage_band :
  forall (cfg : Config) (side : Side) (price : Q) (r : RandomState),
    (0 <= slippage cfg)%Q -> unit_draw r ->
    let fill := fst (simulate_fill cfg side price true r) in
    let plain := fst (simulate_fill cfg side price false r) in
    ((1 # 2) * slippage cfg + spread cfg / 2 <= fill_cost side price fill)%Q
    /\ (fill_cost side price fill <= (3 # 2) * slippage cfg + spread cfg / 2)%Q
    /\ (fill_cost side price plain == slippage cfg + spread cfg / 2)%Q
    /\ snd (simulate_fill cfg side price true r)
       = mkRandom (random_values r) (S (random_taken r))
    /\ snd (simulate_fill cfg side price false r) = r
    /\ (fst (simulate_fill cfg buy price true r) - price
        == price - fst (simulate_fill cfg sell price true r))%Q.
Proof.
  intros cfg side price r Hs [Hu0 Hu1] fill plain. subst fill plain.
  destruct (simulate_fill_cost cfg side price true r) as [Hc Hr].
  destruct (simulate_fill_cost cfg side price false r) as [Hc' Hr'].
  destruct (simulate_fill_cost cfg buy price true r) as [Hb _].
  destruct (simulate_fill_cost cfg sell price true r) as [Hsell _].
  cbn [fill_cost] in Hb, Hsell.
  split; [rewrite Hc; nra|]. split; [rewrite Hc; nra|].
  split; [exact Hc'|]. split; [exact Hr|]. split; [exact Hr'|].
  rewrite Hb, Hsell. reflexivity.
Qed.

Lemma fills_stay_within_the_slippage_band_witness :
  let fill := fst (simulate_fill default_config buy (11 # 10) true (constant_random (1 # 4))) in
  let plain := fst (simulate_fill default_config buy (11 # 10) false (constant_random (1 # 4))) in
  ((1 # 2) * slippage default_config + spread default_config / 2
   <= fill_cost buy (11 # 10) fill)%Q
  /\ (fill_cost buy (11 # 10) fill
      <= (3 # 2) * slippage default_config + spread default_config / 2)%Q
  /\ (fill_cost buy (11 # 10) plain == slippage default_config + spread default_config / 2)%Q
  /\ snd (simulate_fill default_config buy (11 # 10) true (constant_random (1 # 4)))
     = mkRandom (random_values (constant_random (1 # 4)))
                (S (random_taken (constant_random (1 # 4))))
  /\ snd (simulate_fill default_config buy (11 # 10) false (constant_random (1 # 4)))
     = constant_random (1 # 4)
  /\ (fst (simulate_fill default_config buy (11 # 10) true (constant_random (1 # 4)))
      - (11 # 10)
      == (11 # 10)
         - fst (simulate_fill default_config sell (11 # 10) true (constant_random (1 # 4))))%Q.
Proof.
  apply (fills_stay_within_the_slippage_band default_config buy (11 # 10)
           (constant_random (1 # 4))).
  - cbn. lra.
  - split; cbn; lra.
Defined.

(** X12.  [simulate_trade_costs] returns the fill of [simulate_fill] and the
    commission on that fill.  With non-negative slippage, spread and size
    and a draw in the unit interval, its total cost is the cost of the fill
    against the mid price times the size plus the commission, hence at
    least the commission and at most 1.5 slippages plus half the spread per
    unit plus the commission; it takes the draws [simulate_fill] takes. *)
Theorem trade_costs_add_slippage_and_commission :
  forall (cfg : Config) (side : Side) (price size : Q) (b : bool) (r : RandomState),
    (0 <= slippage cfg)%Q -> (0 <= spread cfg)%Q -> (0 <= size)%Q -> unit_draw r ->
    let costs := fst (simulate_trade_costs cfg side price size b r) in
    tc_fill_price costs = fst (simulate_fill cfg side price b r)
    /\ tc_commission costs = calculate_commission cfg (tc_fill_price costs) size
    /\ (tc_total_cost costs
        == fill_cost side price (tc_fill_price costs) * size + tc_commission costs)%Q
    /\ (tc_commission costs <= tc_total_cost costs)%Q
    /\ (tc_total_cost costs
        <= ((3 # 2) * slippage cfg + spread cfg / 2) * size + tc_commission costs)%Q
    /\ snd (simulate_trade_costs cfg side price size b r)
       = snd (simulate_fill cfg side price b r).
Proof.
  intros cfg side price size b r Hs Hsp Hsize [Hu0 Hu1] costs. subst costs.
  unfold simulate_trade_costs.
  destruct (simulate_fill_cost cfg side price b r) as [Hc _].
  destruct (simulate_fill cfg side price b r) as [fill r'] eqn:E.
  cbn [fst snd tc_fill_price tc_commission tc_total_cost] in *.
  set (u := random_values r (random_taken r)) in *.
  assert (Hcost : (0 <= fill_cost side price fill)%Q
                  /\ (fill_cost side price fill <= (3 # 2) * slippage cfg + spread cfg / 2)%Q).
  { assert (Hh : (0 <= spread cfg / 2)%Q) by (apply Qle_shift_div_l; lra).
    rewrite Hc. destruct b; split; nra. }
  destruct Hcost as [Hc0 Hc1].
  assert (Habs : (Qabs (fill - price) == fill_cost side price fill)%Q).
  { unfold fill_cost in *. destruct side.
    - apply Qabs_pos. exact Hc0.
    - rewrite Qabs_neg by lra. ring. }
  split; [reflexivity|]. split; [reflexivity|].
  split; [rewrite Habs; reflexivity|].
  split; [rewrite Habs; nra|].
  split; [rewrite Habs; nra | reflexivity].
Qed.

Lemma trade_costs_add_slippage_and_commission_witness :
  let costs :=
    fst (simulate_trade_costs default_config sell (11 # 10) 2 true (constant_random (1 # 4))) in
  tc_fill_price costs
  = fst (simulate_fill default_config sell (11 # 10) true (constant_random (1 # 4)))
  /\ tc_commission costs = calculate_commission default_config (tc_fill_price costs) 2
  /\ (tc_total_cost costs
      == fill_cost sell (11 # 10) (tc_fill_price costs) * 2 + tc_commission costs)%Q
  /\ (tc_commission costs <= tc_total_cost costs)%Q
  /\ (tc_total_cost costs
      <= ((3 # 2) * slippage default_config + spread default_config / 2) * 2
         + tc_commission costs)%Q
  /\ snd (simulate_trade_costs default_config sell (11 # 10) 2 true (constant_random (1 # 4)))
     = snd (simulate_fill default_config sell (11 # 10) true (constant_random (1 # 4))).
Proof.
  apply (trade_costs_add_slippage_and_commission default_config sell (11 # 10) 2 true
           (constant_random (1 # 4))).
  - cbn. lra.
  - cbn. lra.
  - lra.
  - split; cbn; lra.
Defined.

Ltac split_ands := repeat match goal with |- _ /\ _ => split end.

(** ** Entries *)

Lemma enter_position_opened (cfg : Config) signal bar ts st :
  let st' := _enter_position cfg signal bar ts st in
  trades st' = trades st
  /\ equity_curve_points st' = equity_curve_points st
  /\ equity st' = equity st
  /\ rng st' = snd (simulate_fill cfg (sig_side signal) (sig_price signal) true (rng st))
  /\ ((open_positions st' = open_positions st /\ balance st' = balance st)
      \/ exists pos,
           open_positions st' = open_positions st ++ [pos]
           /\ opened_by cfg signal ts st pos
           /\ balance st' = (balance st - pos_commission pos)%Q).
Proof.
  unfold _enter_position, opened_by.
  destruct (simulate_fill cfg (sig_side signal) (sig_price signal) true (rng st))
    as [fill r] eqn:Ef.
  cbn zeta. cbn [balance equity trades open_positions equity_curve_points rng set_rng fst snd].
  remember (Qabs (fill - sig_stop signal)) as sd eqn:Esd.
  destruct (Qleb sd 0) eqn:Hd.
  { cbn. auto 10. }
  apply Qleb_gt in Hd.
  destruct (Qleb (position_size cfg) 1) eqn:Emode.
  - destruct (Qleb (sd * instrument_multiplier cfg) 0) eqn:Eunit.
    { cbn. auto 10. }
    apply Qleb_gt in Eunit.
    destruct (Qleb _ 0) eqn:Esize.
    { cbn. auto 10. }
    apply Qleb_gt in Esize.
    cbn -[Qabs]. repeat (split; [reflexivity|]). right. eexists. split; [reflexivity|].
    cbn -[Qabs]. rewrite <- Esd. split_ands; try reflexivity; try assumption.
    field. split; intros H0; rewrite H0 in Eunit; lra.
  - destruct (Qleb (position_size cfg) 0) eqn:Esize.
    { cbn. auto 10. }
    apply Qleb_gt in Esize.
    cbn -[Qabs]. repeat (split; [reflexivity|]). right. eexists. split; [reflexivity|].
    cbn -[Qabs]. rewrite <- Esd. split_ands; try reflexivity; try assumption.
Qed.

(** X13.  [_enter_position] never touches the ledger, the equity curve or the
    equity, and always takes one draw for the fill.  Either it leaves book
    and balance alone, or it appends one position: filled at the simulated
    price, with the signal's side, stop, target and meta, a strictly
    positive size and stop distance, a risk amount equal to stop distance
    times size times the instrument multiplier (the fraction
    [position_size] of the balance when [position_size <= 1], the fixed size
    [position_size] otherwise), and the balance is reduced by exactly the
    entry commission stored in the position. *)
Theorem entries_are_sized_by_risk :
  forall (cfg : Config) (signal : Signal) (bar : Bar) (ts : Z) (st : State),
    let st' := _enter_position cfg signal bar ts st in
    trades st' = trades st
    /\ equity_curve_points st' = equity_curve_points st
    /\ equity st' = equity st
    /\ rng st' = snd (simulate_fill cfg (sig_side signal) (sig_price signal) true (rng st))
    /\ ((open_positions st' = open_positions st /\ balance st' = balance st)
        \/ exists pos,
             open_positions st' = open_positions st ++ [pos]
             /\ opened_by cfg signal ts st pos
             /\ balance st' = (balance st - pos_commission pos)%Q).
Proof. intros. apply enter_position_opened. Qed.

(** ** Invariants of the book along a run *)

Section BookInvariant.

Variable cfg : Config.
Variable I : State -> Prop.
Variable J : Position -> Prop.

Hypothesis exit_keeps :
  forall pos bar ts reason st, J pos -> I st -> I (_exit_position cfg pos bar ts reason st).
Hypothesis enter_keeps :
  forall signal bar ts st, I st -> I (_enter_position cfg signal bar ts st).
Hypothesis enter_books :
  forall signal bar ts st pos,
    open_positions (_enter_position cfg signal bar ts st) = open_positions st ++ [pos] -> J pos.
Hypothesis mark_keeps : forall bar ts st, I st -> I (mark_to_market bar ts st).

Lemma exit_position_inv pos bar ts reason st :
  J pos -> (I st /\ Forall J (open_positions st)) -> (I (_exit_position cfg pos bar ts reason st) /\ Forall J (open_positions (_exit_position cfg pos bar ts reason st))).
Proof.
  intros Hpos [HI HJ]. split; [apply exit_keeps; assumption|].
  rewrite exit_position_open. apply list_remove_forall. exact HJ.
Qed.

Lemma fold_check_exit_inv bar ts (l : list Position) :
  forall st, Forall J l -> (I st /\ Forall J (open_positions st)) -> (I (fold_left (check_exit cfg bar ts) l st) /\ Forall J (open_positions (fold_left (check_exit cfg bar ts) l st))).
Proof.
  induction l as [|pos rest IH]; intros st Hl Hst; cbn [fold_left]; [exact Hst|].
  inversion Hl as [|? ? Hpos Hrest]; subst. apply IH; [exact Hrest|].
  rewrite check_exit_rule. destruct (exit_rule bar pos); [|exact Hst].
  apply exit_position_inv; assumption.
Qed.

Lemma enter_position_inv signal bar ts st :
  (I st /\ Forall J (open_positions st)) -> (I (_enter_position cfg signal bar ts st) /\ Forall J (open_positions (_enter_position cfg signal bar ts st))).
Proof.
  intros [HI HJ]. split; [apply enter_keeps; exact HI|].
  destruct (enter_position_cases cfg signal bar ts st) as (_ & _ & [H | (pos & H & _)]).
  - rewrite H. exact HJ.
  - rewrite H. apply Forall_app. split; [exact HJ|].
    constructor; [|constructor]. apply (enter_books signal bar ts st pos H).
Qed.

Lemma enter_rows_inv rows bar ts :
  forall st, (I st /\ Forall J (open_positions st)) -> (I (enter_rows cfg rows bar ts st) /\ Forall J (open_positions (enter_rows cfg rows bar ts st))).
Proof.
  induction rows as [|row rest IH]; intros st Hst; cbn [enter_rows]; [exact Hst|].
  destruct (max_positions cfg <=? Z.of_nat (length (open_positions st)))%Z; [exact Hst|].
  apply IH, enter_position_inv, Hst.
Qed.

Lemma process_bar_inv sbt bar st : (I st /\ Forall J (open_positions st)) -> (I (process_bar cfg sbt bar st) /\ Forall J (open_positions (process_bar cfg sbt bar st))).
Proof.
  intros Hst. unfold process_bar.
  assert (H1 : (I (_check_exits cfg bar (bar_ts bar) st) /\ Forall J (open_positions (_check_exits cfg bar (bar_ts bar) st)))).
  { apply fold_check_exit_inv; [apply Hst | exact Hst]. }
  assert (H2 : (I (enter_signals cfg sbt bar (bar_ts bar)
                           (_check_exits cfg bar (bar_ts bar) st)) /\ Forall J (open_positions (enter_signals cfg sbt bar (bar_ts bar)
                           (_check_exits cfg bar (bar_ts bar) st))))).
  { unfold enter_signals.
    destruct (Z.of_nat _ <? max_positions cfg)%Z; [|exact H1].
    destruct (sbt !! bar_ts bar); [apply enter_rows_inv|]; exact H1. }
  destruct H2 as [HI HJ]. split; [apply mark_keeps; exact HI | exact HJ].
Qed.

Lemma run_loop_inv sbt bars :
  forall st, (I st /\ Forall J (open_positions st)) -> (I (run_loop cfg sbt bars st) /\ Forall J (open_positions (run_loop cfg sbt bars st))).
Proof.
  induction bars as [|bar rest IH]; intros st Hst; cbn [run_loop]; [exact Hst|].
  pose proof (process_bar_inv sbt bar st Hst) as H'.
  destruct (depleted (process_bar cfg sbt bar st)); [exact H' | apply IH, H'].
Qed.

Lemma force_close_fold_inv bar ts reason (l : list Position) :
  forall st,
    Forall J l -> (I st /\ Forall J (open_positions st)) ->
    (I (fold_left (fun s pos => _exit_position cfg pos bar ts reason s) l st) /\ Forall J (open_positions (fold_left (fun s pos => _exit_position cfg pos bar ts reason s) l st))).
Proof.
  induction l as [|pos rest IH]; intros st Hl Hst; cbn [fold_left]; [exact Hst|].
  inversion Hl as [|? ? Hpos Hrest]; subst.
  apply IH; [exact Hrest|]. apply exit_position_inv; assumption.
Qed.

Lemma run_inv sbt ohlc st :
  (I st /\ Forall J (open_positions st)) -> (I (force_close cfg ohlc (run_loop cfg sbt ohlc st)) /\ Forall J (open_positions (force_close cfg ohlc (run_loop cfg sbt ohlc st)))).
Proof.
  intros Hst. pose proof (run_loop_inv sbt ohlc st Hst) as H.
  apply force_close_fold_inv; [apply H | exact H].
Qed.

End BookInvariant.

(** ** The ledger *)

Lemma enter_position_booked (cfg : Config) signal bar ts st pos :
  open_positions (_enter_position cfg signal bar ts st) = open_positions st ++ [pos] ->
  opened_by cfg signal ts st pos.
Proof.
  intros H.
  destruct (enter_position_opened cfg signal bar ts st) as (_ & _ & _ & _ & [[Ho _] | (p & Ho & Hp & _)]).
  - rewrite Ho in H. apply (f_equal (@length Position)) in H.
    rewrite length_app in H. cbn in H. lia.
  - rewrite Ho in H. apply app_inj_tail in H. destruct H as [_ <-]. exact Hp.
Qed.

Lemma exit_position_recomputes (cfg : Config) pos bar ts reason st :
  booked_by cfg pos ->
  exists t,
    trades (_exit_position cfg pos bar ts reason st) = trades st ++ [t]
    /\ tr_index t = length (trades st)
    /\ trade_recomputes cfg t.
Proof.
  intros (Hm & Hc & Hs). unfold _exit_position.
  destruct (if String.eqb reason "stop_loss" then (pos_stop pos, rng st)
            else if String.eqb reason "take_profit" then (pos_tp pos, rng st)
            else simulate_fill cfg (opposite (pos_side pos)) (bar_close bar) true (rng st))
    as [exit_price r].
  eexists. cbn [trades]. split; [reflexivity|]. split; [reflexivity|].
  unfold trade_recomputes.
  cbn [tr_pnl tr_side tr_exit_price tr_entry_price tr_size tr_fees tr_cum_equity tr_exit_balance].
  rewrite Hm, Hc. split; [|split; [|split]]; try reflexivity; try assumption.
  destruct (pos_side pos); reflexivity.
Qed.

Lemma ledger_inv_exit (cfg : Config) pos bar ts reason st :
  booked_by cfg pos -> ledger_inv cfg st ->
  ledger_inv cfg (_exit_position cfg pos bar ts reason st).
Proof.
  intros Hpos [Hn Hr].
  destruct (exit_position_recomputes cfg pos bar ts reason st Hpos) as (t & Ht & Hi & Hk).
  unfold ledger_inv, ledger_numbered. rewrite Ht. split.
  - rewrite map_app, length_app. cbn [map length]. rewrite Hn, Hi.
    rewrite Nat.add_1_r, seq_S. reflexivity.
  - apply Forall_app. split; [exact Hr|]. constructor; [exact Hk | constructor].
Qed.

Lemma ledger_inv_enter (cfg : Config) signal bar ts st :
  ledger_inv cfg st -> ledger_inv cfg (_enter_position cfg signal bar ts st).
Proof.
  unfold ledger_inv, ledger_numbered.
  destruct (enter_position_cases cfg signal bar ts st) as (Ht & _). rewrite Ht. auto.
Qed.

Lemma booked_by_enter (cfg : Config) signal bar ts st pos :
  open_positions (_enter_position cfg signal bar ts st) = open_positions st ++ [pos] ->
  booked_by cfg pos.
Proof.
  intros H. apply enter_position_booked in H. unfold opened_by in H. unfold booked_by. tauto.
Qed.

Lemma run_ledger_inv (cfg : Config) sbt ohlc r :
  ledger_inv cfg (force_close cfg ohlc (run_loop cfg sbt ohlc (reset_state cfg r))).
Proof.
  apply (run_inv cfg (ledger_inv cfg) (booked_by cfg)).
  - intros. apply ledger_inv_exit; assumption.
  - intros. apply ledger_inv_enter; assumption.
  - intros. eapply booked_by_enter; eassumption.
  - intros bar ts st H. exact H.
  - split; [split; [reflexivity | constructor] | constructor].
Qed.

(** X14.  Whatever the signals and the bars, the ledger a run leaves is
    numbered 0, 1, 2, ... in order, and every entry can be recomputed from
    its own fields: its result is the price move in the direction of the
    trade times size times the instrument multiplier less the exit
    commission, its fees are the commissions on the entry and on the exit
    notional, its cumulative equity is its exit balance and its size is
    strictly positive. *)
Theorem ledger_entries_recompute :
  forall (cfg : Config) (signals : list Signal) (ohlc : list Bar) (r : RandomState),
    let st := force_close cfg ohlc
                (run_loop cfg (group_signals signals) ohlc (reset_state cfg r)) in
    map tr_index (trades st) = seq 0 (length (trades st))
    /\ Forall (trade_recomputes cfg) (trades st)
    /\ (forall res,
          run_with_signals cfg signals ohlc r = Some res ->
          map tr_index (res_trades res) = seq 0 (length (res_trades res))
          /\ Forall (trade_recomputes cfg) (res_trades res)).
Proof.
  intros cfg signals ohlc r st.
  destruct (run_ledger_inv cfg (group_signals signals) ohlc r) as [Hn Hr].
  split; [exact Hn|]. split; [exact Hr|].
  intros res Hres. apply run_with_signals_trades in Hres.
  destruct Hres as [-> | ->]; [split; [reflexivity | constructor]|].
  split; [exact Hn | exact Hr].
Qed.

(** ** Bracket exits *)

(** X15.  A position opened by [_enter_position] whose stop lies on the losing
    side and whose target lies on the winning side of its entry price:
    closed for [stop_loss] it is filled at the stop and loses exactly its
    risk amount plus the exit commission; closed for [take_profit] it is
    filled at the target and earns the distance to the target times size
    times multiplier less the exit commission.  In both cases the balance
    moves by the recorded result and no random draw is taken. *)
Theorem bracket_exits_realise_risk_and_reward :
  forall (cfg : Config) (signal : Signal) (bar : Bar) (ts : Z) (st : State)
         (pos : Position) (bar' : Bar) (ts' : Z) (st' : State),
    open_positions (_enter_position cfg signal bar ts st) = open_positions st ++ [pos] ->
    match pos_side pos with
    | buy => (pos_stop pos < pos_entry_price pos)%Q /\ (pos_entry_price pos < pos_tp pos)%Q
    | sell => (pos_tp pos < pos_entry_price pos)%Q /\ (pos_entry_price pos < pos_stop pos)%Q
    end ->
    (exists t,
        trades (_exit_position cfg pos bar' ts' "stop_loss" st') = trades st' ++ [t]
        /\ tr_exit_price t = pos_stop pos
        /\ (tr_pnl t
            == - pos_risk_amount pos
               - calculate_commission cfg (pos_stop pos) (pos_size pos))%Q
        /\ balance (_exit_position cfg pos bar' ts' "stop_loss" st')
           = (balance st' + tr_pnl t)%Q
        /\ rng (_exit_position cfg pos bar' ts' "stop_loss" st') = rng st')
    /\ (exists t,
          trades (_exit_position cfg pos bar' ts' "take_profit" st') = trades st' ++ [t]
          /\ tr_exit_price t = pos_tp pos
          /\ (tr_pnl t
              == Qabs (pos_tp pos - pos_entry_price pos) * pos_size pos
                 * instrument_multiplier cfg
                 - calculate_commission cfg (pos_tp pos) (pos_size pos))%Q
          /\ balance (_exit_position cfg pos bar' ts' "take_profit" st')
             = (balance st' + tr_pnl t)%Q
          /\ rng (_exit_position cfg pos bar' ts' "take_profit" st') = rng st').
Proof.
  intros cfg signal bar ts st pos bar' ts' st' Hopen Hside.
  apply enter_position_booked in Hopen.
  destruct Hopen as (_ & _ & _ & _ & _ & _ & Hm & _ & _ & _ & Hrisk & _).
  split.
  - unfold _exit_position. cbn [String.eqb Ascii.eqb Bool.eqb andb].
    eexists. cbn [trades balance rng tr_exit_price tr_pnl].
    split; [reflexivity|]. split; [reflexivity|]. split; [|split; reflexivity].
    cbn [tr_pnl]. rewrite Hrisk, Hm.
    destruct (pos_side pos); destruct Hside as [H1 H2].
    + rewrite (Qabs_pos (pos_entry_price pos - pos_stop pos)) by lra. ring.
    + rewrite (Qabs_neg (pos_entry_price pos - pos_stop pos)) by lra. ring.
  - unfold _exit_position. cbn [String.eqb Ascii.eqb Bool.eqb andb].
    eexists. cbn [trades balance rng tr_exit_price tr_pnl].
    split; [reflexivity|]. split; [reflexivity|]. split; [|split; reflexivity].
    cbn [tr_pnl]. rewrite Hm.
    destruct (pos_side pos); destruct Hside as [H1 H2].
    + rewrite (Qabs_pos (pos_tp pos - pos_entry_price pos)) by lra. ring.
    + rewrite (Qabs_neg (pos_tp pos - pos_entry_price pos)) by lra. ring.
Qed.

Lemma bracket_exits_realise_risk_and_reward_witness :
  exists pos,
    open_positions
      (_enter_position config_c (mkSignal 1 buy (110 # 100) (100 # 100) (150 # 100)
                                          (mkMeta "OB+ChoCH/LQ" RANGING 1))
                       (iat series_c 1) 1 (reset_state config_c (constant_random (1 # 2))))
    = [] ++ [pos]
    /\ (exists t,
          trades (_exit_position config_c pos (iat series_c 2) 2 "stop_loss"
                                 (reset_state config_c (constant_random (1 # 2))))
          = [] ++ [t]
          /\ tr_exit_price t = pos_stop pos
          /\ (tr_pnl t
              == - pos_risk_amount pos
                 - calculate_commission config_c (pos_stop pos) (pos_size pos))%Q
          /\ balance (_exit_position config_c pos (iat series_c 2) 2 "stop_loss"
                                     (reset_state config_c (constant_random (1 # 2))))
             = (10000 + tr_pnl t)%Q
          /\ rng (_exit_position config_c pos (iat series_c 2) 2 "stop_loss"
                                 (reset_state config_c (constant_random (1 # 2))))
             = constant_random (1 # 2))
    /\ (exists t,
          trades (_exit_position config_c pos (iat series_c 2) 2 "take_profit"
                                 (reset_state config_c (constant_random (1 # 2))))
          = [] ++ [t]
          /\ tr_exit_price t = pos_tp pos
          /\ (tr_pnl t
              == Qabs (pos_tp pos - pos_entry_price pos) * pos_size pos
                 * instrument_multiplier config_c
                 - calculate_commission config_c (pos_tp pos) (pos_size pos))%Q
          /\ balance (_exit_position config_c pos (iat series_c 2) 2 "take_profit"
                                     (reset_state config_c (constant_random (1 # 2))))
             = (10000 + tr_pnl t)%Q
          /\ rng (_exit_position config_c pos (iat series_c 2) 2 "take_profit"
                                 (reset_state config_c (constant_random (1 # 2))))
             = constant_random (1 # 2)).
Proof.
  eexists. split; [reflexivity|].
  apply (bracket_exits_realise_risk_and_reward config_c
           (mkSignal 1 buy (110 # 100) (100 # 100) (150 # 100)
                     (mkMeta "OB+ChoCH/LQ" RANGING 1))
           (iat series_c 1) 1 (reset_state config_c (constant_random (1 # 2)))
           _ (iat series_c 2) 2 (reset_state config_c (constant_random (1 # 2)))).
  - reflexivity.
  - cbn. split; reflexivity.
Defined.

(** ** Signals by timestamp *)

Lemma group_signals_fold_lookup (t : Z) (l : list Signal) :
  forall m : gmap Z (list Signal),
    fold_left
      (fun (m : gmap Z (list Signal)) row =>
         <[sig_ts row := default [] (m !! sig_ts row) ++ [row]]> m) l m !! t
    = match rows_at l t with
      | [] => m !! t
      | rows => Some (default [] (m !! t) ++ rows)
      end.
Proof.
  induction l as [|row rest IH]; intros m; cbn [fold_left rows_at List.filter]; [reflexivity|].
  rewrite IH. fold (rows_at rest t).
  destruct (sig_ts row =? t)%Z eqn:E.
  - apply Z.eqb_eq in E. subst t. rewrite lookup_insert_eq. simpl.
    destruct (rows_at rest (sig_ts row)) as [|r rows].
    + reflexivity.
    + rewrite <- app_assoc. reflexivity.
  - apply Z.eqb_neq in E. rewrite lookup_insert_ne by exact E. reflexivity.
Qed.

(** X16.  [signals_by_ts] maps a timestamp to the rows of the signal frame
    that carry it, in frame order, and has no key for a timestamp no row
    carries. *)
Theorem signals_are_grouped_by_timestamp :
  forall (signals : list Signal) (t : Z),
    group_signals signals !! t
    = match rows_at signals t with
      | [] => None
      | rows => Some rows
      end.
Proof.
  intros signals t. unfold group_signals. rewrite group_signals_fold_lookup.
  rewrite lookup_empty. reflexivity.
Qed.

(** ** A run in which no signal meets a bar *)

Lemma process_bar_idle (cfg : Config) (sbt : gmap Z (list Signal)) (bar : Bar) (st : State) :
  sbt !! bar_ts bar = None -> open_positions st = [] ->
  process_bar cfg sbt bar st
  = mkState (balance st) (balance st + 0)%Q (trades st) []
            (equity_curve_points st ++ [(bar_ts bar, (balance st + 0)%Q)]) (rng st).
Proof.
  intros Hnone Hflat. unfold process_bar, _check_exits. rewrite Hflat. cbn [fold_left].
  unfold enter_signals. rewrite Hnone.
  destruct (Z.of_nat (length (open_positions st)) <? max_positions cfg)%Z;
    unfold mark_to_market, _calculate_open_pnl; rewrite Hflat; reflexivity.
Qed.

Lemma run_loop_idle (cfg : Config) (sbt : gmap Z (list Signal)) (bars : list Bar) :
  forall st,
    (forall b, In b bars -> sbt !! bar_ts b = None) ->
    open_positions st = [] -> (0 < balance st)%Q ->
    let st' := run_loop cfg sbt bars st in
    open_positions st' = [] /\ trades st' = trades st /\ balance st' = balance st
    /\ rng st' = rng st
    /\ equity_curve_points st'
       = equity_curve_points st ++ map (fun b => (bar_ts b, (balance st + 0)%Q)) bars.
Proof.
  induction bars as [|bar rest IH]; intros st Hnone Hflat Hpos; cbn [run_loop map].
  - rewrite app_nil_r. auto.
  - rewrite (process_bar_idle cfg sbt bar st (Hnone bar (or_introl eq_refl)) Hflat).
    assert (Hd : depleted (mkState (balance st) (balance st + 0)%Q (trades st) []
                             (equity_curve_points st ++ [(bar_ts bar, (balance st + 0)%Q)])
                             (rng st)) = false).
    { unfold depleted. cbn [balance equity]. apply orb_false_iff.
      split; apply Qleb_gt; lra. }
    rewrite Hd.
    match goal with
    | |- context [run_loop cfg sbt rest ?s] =>
        destruct (IH s (fun b Hb => Hnone b (or_intror Hb)) eq_refl Hpos)
          as (H1 & H2 & H3 & H4 & H5)
    end.
    cbn [balance trades rng equity_curve_points] in H2, H3, H4, H5.
    split; [exact H1|]. split; [exact H2|]. split; [exact H3|]. split; [exact H4|].
    rewrite H5, <- app_assoc. reflexivity.
Qed.

(** X17.  With a positive initial balance, a non-empty frame and a non-empty
    signal frame none of whose timestamps is the timestamp of a bar, [run]
    processes every bar, opens nothing, and returns an empty ledger, flat
    metrics with the initial balance as final equity, and an equity curve
    that holds the initial balance at every bar. *)
Theorem signals_off_the_frame_do_nothing :
  forall (cfg : Config) (signals : list Signal) (ohlc : list Bar) (r : RandomState),
    signals <> [] -> ohlc <> [] -> (0 < initial_balance cfg)%Q ->
    (forall s b, In s signals -> In b ohlc -> sig_ts s <> bar_ts b) ->
    run_with_signals cfg signals ohlc r
    = Some {| res_trades := [];
              res_metrics := flat_metrics 0 0 (initial_balance cfg);
              res_equity_curve :=
                map (fun b => (bar_ts b, (initial_balance cfg + 0)%Q)) ohlc |}.
Proof.
  intros cfg signals ohlc r Hs Ho Hpos Hoff. unfold run_with_signals.
  destruct signals as [|s0 rest]; [exfalso; apply Hs; reflexivity|].
  set (sigs := s0 :: rest) in *.
  assert (Hnone : forall b, In b ohlc -> group_signals sigs !! bar_ts b = None).
  { intros b Hb. apply group_signals_none. intros s Hin. apply (Hoff s b Hin Hb). }
  destruct (run_loop_idle cfg (group_signals sigs) ohlc (reset_state cfg r) Hnone eq_refl Hpos)
    as (H1 & H2 & H3 & H4 & H5).
  cbn [reset_state balance trades rng equity_curve_points app] in H2, H3, H4, H5.
  unfold force_close. rewrite H1. cbn [fold_left]. rewrite H5.
  destruct ohlc as [|b0 bars]; [exfalso; apply Ho; reflexivity|].
  cbn [map]. unfold _calculate_metrics. rewrite H2, H3. reflexivity.
Qed.

Lemma signals_off_the_frame_do_nothing_witness :
  run_with_signals config_c
    [mkSignal 7 buy (110 # 100) (100 # 100) (150 # 100) (mkMeta "OB+ChoCH/LQ" RANGING 1)]
    series_c (constant_random (1 # 2))
  = Some {| res_trades := [];
            res_metrics := flat_metrics 0 0 (initial_balance config_c);
            res_equity_curve :=
              map (fun b => (bar_ts b, (initial_balance config_c + 0)%Q)) series_c |}.
Proof.
  apply (signals_off_the_frame_do_nothing config_c
           [mkSignal 7 buy (110 # 100) (100 # 100) (150 # 100)
                     (mkMeta "OB+ChoCH/LQ" RANGING 1)]
           series_c (constant_random (1 # 2))).
  - discriminate.
  - discriminate.
  - cbn. lra.
  - intros s b [<- | []] Hb. cbn in Hb.
    repeat (destruct Hb as [<- | Hb]; [cbn; discriminate|]). destruct Hb.
Defined.

(** ** Where the balance goes *)

Lemma exit_position_balance (cfg : Config) pos bar ts reason st :
  exists t,
    trades (_exit_position cfg pos bar ts reason st) = trades st ++ [t]
    /\ balance (_exit_position cfg pos bar ts reason st) = (balance st + tr_pnl t)%Q
    /\ (entry_commission cfg t == pos_commission pos)%Q.
Proof.
  unfold _exit_position.
  destruct (if String.eqb reason "stop_loss" then (pos_stop pos, rng st)
            else if String.eqb reason "take_profit" then (pos_tp pos, rng st)
            else simulate_fill cfg (opposite (pos_side pos)) (bar_close bar) true (rng st))
    as [exit_price r].
  eexists. cbn [trades balance]. split; [reflexivity|]. split; [reflexivity|].
  unfold entry_commission. cbn [tr_fees tr_exit_price tr_size]. ring.
Qed.

Lemma balance_inv_exit (cfg : Config) pos bar ts reason st (kept rest : list Position) :
  open_positions st = kept ++ pos :: rest ->
  open_positions (_exit_position cfg pos bar ts reason st) = kept ++ rest ->
  balance_inv cfg st -> balance_inv cfg (_exit_position cfg pos bar ts reason st).
Proof.
  intros Hopen Hopen' Hinv. unfold balance_inv, open_fees in *.
  destruct (exit_position_balance cfg pos bar ts reason st) as (t & Ht & Hb & Hc).
  rewrite Ht, Hb, Hopen'. rewrite Hopen in Hinv.
  rewrite !map_app in *. cbn [map] in *.
  rewrite !series_sum_snoc. rewrite series_sum_app in *.
  rewrite series_sum_cons in Hinv. rewrite Hc. lra.
Qed.

Lemma balance_inv_enter (cfg : Config) signal bar ts st :
  balance_inv cfg st -> balance_inv cfg (_enter_position cfg signal bar ts st).
Proof.
  intros Hinv. unfold balance_inv, open_fees in *.
  destruct (enter_position_opened cfg signal bar ts st)
    as (Ht & _ & _ & _ & [[Ho Hb] | (pos & Ho & _ & Hb)]); rewrite Ht, Ho, Hb.
  - exact Hinv.
  - rewrite map_app. cbn [map]. rewrite series_sum_snoc. lra.
Qed.

Lemma balance_inv_enter_rows (cfg : Config) rows bar ts :
  forall st, balance_inv cfg st -> balance_inv cfg (enter_rows cfg rows bar ts st).
Proof.
  induction rows as [|row rest IH]; intros st Hst; cbn [enter_rows]; [exact Hst|].
  destruct (max_positions cfg <=? Z.of_nat (length (open_positions st)))%Z; [exact Hst|].
  apply IH, balance_inv_enter, Hst.
Qed.

Lemma balance_inv_check_exits (cfg : Config) bar ts (todo : list Position) :
  forall kept st,
    open_positions st = kept ++ todo ->
    (forall k, In k kept -> exit_rule bar k = None) ->
    balance_inv cfg st ->
    balance_inv cfg (fold_left (check_exit cfg bar ts) todo st).
Proof.
  induction todo as [|pos rest IH]; intros kept st Hopen Hkept Hinv; cbn [fold_left];
    [exact Hinv|].
  rewrite check_exit_rule. destruct (exit_rule bar pos) as [reason|] eqn:E.
  - assert (Hopen' : open_positions (_exit_position cfg pos bar ts reason st) = kept ++ rest).
    { rewrite exit_position_open, Hopen.
      apply (list_remove_after_kept bar); [exact Hkept | rewrite E; discriminate]. }
    apply (IH kept); [exact Hopen' | exact Hkept|].
    apply (balance_inv_exit cfg pos bar ts reason st kept rest); assumption.
  - apply (IH (kept ++ [pos])).
    + rewrite <- app_assoc. exact Hopen.
    + intros k Hk. apply in_app_or in Hk. destruct Hk as [Hk | [<- | []]];
        [apply Hkept; exact Hk | exact E].
    + exact Hinv.
Qed.

Lemma balance_inv_process_bar (cfg : Config) sbt bar st :
  balance_inv cfg st -> balance_inv cfg (process_bar cfg sbt bar st).
Proof.
  intros Hst. unfold process_bar.
  assert (H1 : balance_inv cfg (_check_exits cfg bar (bar_ts bar) st)).
  { apply (balance_inv_check_exits cfg bar (bar_ts bar) (open_positions st) [] st);
      [reflexivity | intros k [] | exact Hst]. }
  assert (H2 : balance_inv cfg (enter_signals cfg sbt bar (bar_ts bar)
                                  (_check_exits cfg bar (bar_ts bar) st))).
  { unfold enter_signals.
    destruct (Z.of_nat _ <? max_positions cfg)%Z; [|exact H1].
    destruct (sbt !! bar_ts bar); [apply balance_inv_enter_rows|]; exact H1. }
  exact H2.
Qed.

Lemma balance_inv_run_loop (cfg : Config) sbt bars :
  forall st, balance_inv cfg st -> balance_inv cfg (run_loop cfg sbt bars st).
Proof.
  induction bars as [|bar rest IH]; intros st Hst; cbn [run_loop]; [exact Hst|].
  pose proof (balance_inv_process_bar cfg sbt bar st Hst) as H'.
  destruct (depleted (process_bar cfg sbt bar st)); [exact H' | apply IH, H'].
Qed.

Lemma force_close_fold_flat (cfg : Config) bar ts reason (l : list Position) :
  forall st,
    open_positions st = l -> balance_inv cfg st ->
    let st' := fold_left (fun s pos => _exit_position cfg pos bar ts reason s) l st in
    open_positions st' = [] /\ balance_inv cfg st'.
Proof.
  induction l as [|pos rest IH]; intros st Hopen Hinv; cbn [fold_left]; [auto|].
  assert (Hopen' : open_positions (_exit_position cfg pos bar ts reason st) = rest).
  { rewrite exit_position_open, Hopen. cbn [list_remove].
    rewrite Position_eqb_refl. reflexivity. }
  apply IH; [exact Hopen'|].
  apply (balance_inv_exit cfg pos bar ts reason st [] rest); assumption.
Qed.

Lemma run_balance_inv (cfg : Config) sbt ohlc r :
  let st := force_close cfg ohlc (run_loop cfg sbt ohlc (reset_state cfg r)) in
  open_positions st = [] /\ balance_inv cfg st.
Proof.
  apply force_close_fold_flat; [reflexivity|].
  apply balance_inv_run_loop. unfold balance_inv, open_fees, series_sum. cbn. ring.
Qed.

(** X18.  After the forced close the book is empty and the balance equals the
    initial balance plus the results of all ledger entries less their entry
    commissions (fees less exit commission): the recorded results already
    contain the exit commission but not the entry commission.  So the net
    profit the metrics report is the change of the balance plus the entry
    commissions paid. *)
Theorem balance_is_initial_plus_results_less_entry_fees :
  forall (cfg : Config) (signals : list Signal) (ohlc : list Bar) (r : RandomState),
    let st := force_close cfg ohlc
                (run_loop cfg (group_signals signals) ohlc (reset_state cfg r)) in
    open_positions st = []
    /\ (balance st
        == initial_balance cfg + series_sum (map tr_pnl (trades st))
           - series_sum (map (entry_commission cfg) (trades st)))%Q
    /\ (forall res,
          run_with_signals cfg signals ohlc r = Some res ->
          signals <> [] ->
          (net_profit (res_metrics res)
           == balance st - initial_balance cfg
              + series_sum (map (entry_commission cfg) (res_trades res)))%Q).
Proof.
  intros cfg signals ohlc r st.
  destruct (run_balance_inv cfg (group_signals signals) ohlc r) as [Hflat Hinv].
  fold st in Hflat, Hinv. unfold balance_inv, open_fees in Hinv.
  rewrite Hflat in Hinv. unfold series_sum at 1 in Hinv. cbn [map fold_left] in Hinv.
  split; [exact Hflat|]. split; [lra|].
  intros res Hres Hs. unfold run_with_signals in Hres.
  destruct signals as [|s0 rest]; [exfalso; apply Hs; reflexivity|].
  fold st in Hres. destruct (equity_curve_points st) as [|p points]; [discriminate|].
  injection Hres as <-. cbn [res_metrics res_trades]. unfold _calculate_metrics.
  destruct (trades st) as [|t ts] eqn:Et.
  - cbn [flat_metrics net_profit map]. unfold series_sum in *. cbn [map fold_left] in *. lra.
  - cbn [map calculate_metrics net_profit]. cbn [map] in Hinv. lra.
Qed.

(** ** The metrics of a run and its ledger *)

Lemma filter_map_length {A B : Type} (f : B -> bool) (g : A -> B) (l : list A) :
  length (List.filter f (map g l)) = length (List.filter (fun a => f (g a)) l).
Proof.
  induction l as [|a rest IH]; cbn [map List.filter]; [reflexivity|].
  destruct (f (g a)); cbn [length]; rewrite IH; reflexivity.
Qed.

Lemma last_map_snd {A B : Type} (l : list (A * B)) (a : A) (b : B) :
  List.last (map snd l) b = snd (List.last l (a, b)).
Proof.
  induction l as [|p rest IH]; [reflexivity|].
  destruct rest as [|q rest']; [reflexivity|].
  change (List.last (map snd (p :: q :: rest')) b) with (List.last (map snd (q :: rest')) b).
  change (List.last (p :: q :: rest') (a, b)) with (List.last (q :: rest') (a, b)).
  exact IH.
Qed.

(** X19.  [run] raises (here: returns [None]) only for an empty frame with a
    non-empty signal frame.  In every result it returns, the metrics count
    the ledger: [total_trades] is its length, [net_profit] the sum of its
    results, [winning_trades] and [losing_trades] the numbers of strictly
    positive and strictly negative results; with at least one trade
    [final_equity] is the last point of the equity curve (the equity marked
    at the last processed bar, before the forced close), and with no trade
    it equals the initial balance. *)
Theorem metrics_agree_with_the_ledger :
  forall (cfg : Config) (signals : list Signal) (ohlc : list Bar) (r : RandomState),
    match run_with_signals cfg signals ohlc r with
    | Some res =>
        total_trades (res_metrics res) = length (res_trades res)
        /\ net_profit (res_metrics res) = series_sum (map tr_pnl (res_trades res))
        /\ winning_trades (res_metrics res)
           = length (List.filter (fun t => Qgtb (tr_pnl t) 0) (res_trades res))
        /\ losing_trades (res_metrics res)
           = length (List.filter (fun t => Qltb (tr_pnl t) 0) (res_trades res))
        /\ (res_trades res <> [] ->
            final_equity (res_metrics res)
            = snd (List.last (res_equity_curve res) (0%Z, initial_balance cfg)))
        /\ (res_trades res = [] ->
            (final_equity (res_metrics res) == initial_balance cfg)%Q)
    | None => signals <> [] /\ ohlc = []
    end.
Proof.
  intros cfg signals ohlc r. unfold run_with_signals.
  destruct signals as [|s0 rest].
  { cbn. split; [reflexivity|]. split; [reflexivity|]. split; [reflexivity|].
    split; [reflexivity|]. split; [|reflexivity].
    intros H. exfalso. apply H. reflexivity. }
  set (sigs := s0 :: rest).
  destruct (run_balance_inv cfg (group_signals sigs) ohlc r) as [Hflat Hinv].
  set (st := force_close cfg ohlc (run_loop cfg (group_signals sigs) ohlc (reset_state cfg r)))
    in *.
  destruct (equity_curve_points st) as [|p points] eqn:Ec.
  - split; [discriminate|].
    destruct ohlc as [|bar bars]; [reflexivity|]. exfalso.
    unfold st in Ec. rewrite force_close_curve in Ec.
    destruct (run_loop_curve cfg (group_signals sigs) (bar :: bars) (reset_state cfg r))
      as (new & Hnew & Hlen & _).
    pose proof (run_trace_nonempty cfg (group_signals sigs) bar bars (reset_state cfg r)) as Hne.
    rewrite Hnew in Ec. cbn [reset_state equity_curve_points app] in Ec.
    rewrite Ec in Hlen. cbn in Hlen. lia.
  - cbn [res_metrics res_trades res_equity_curve]. unfold _calculate_metrics.
    destruct (trades st) as [|t ts] eqn:Et.
    + cbn [flat_metrics total_trades net_profit winning_trades losing_trades final_equity
                         map List.filter length].
      split; [reflexivity|]. split; [reflexivity|]. split; [reflexivity|].
      split; [reflexivity|]. split.
      * intros H. exfalso. apply H. reflexivity.
      * intros _. unfold balance_inv, open_fees in Hinv. rewrite Hflat, Et in Hinv.
        unfold series_sum in Hinv. cbn in Hinv. lra.
    + split; [rewrite calculate_metrics_total_trades; apply length_map|].
      split; [reflexivity|].
      split; [apply (filter_map_length (fun p => Qgtb p 0) tr_pnl (t :: ts))|].
      split; [apply (filter_map_length (fun p => Qltb p 0) tr_pnl (t :: ts))|].
      split; [|discriminate].
      intros _. cbn [calculate_metrics final_equity].
      apply (last_map_snd (p :: points) 0%Z (initial_balance cfg)).
Qed.

(** ** Drawdown *)

Lemma fold_qmax_in (rest : list Q) : forall x, In (fold_left qmax rest x) (x :: rest).
Proof.
  induction rest as [|y rest IH]; intros x; cbn [fold_left]; [left; reflexivity|].
  destruct (IH (qmax x y)) as [H | H].
  - destruct (qmax_cases x y) as [[_ E] | [_ E]].
    + right. left. rewrite <- H. symmetry. exact E.
    + left. rewrite <- H. symmetry. exact E.
  - right. right. exact H.
Qed.

Lemma fold_qmin_in (rest : list Q) : forall x, In (fold_left qmin rest x) (x :: rest).
Proof.
  induction rest as [|y rest IH]; intros x; cbn [fold_left]; [left; reflexivity|].
  destruct (IH (qmin x y)) as [H | H].
  - destruct (qmin_cases x y) as [[_ E] | [_ E]].
    + right. left. rewrite <- H. symmetry. exact E.
    + left. rewrite <- H. symmetry. exact E.
  - right. right. exact H.
Qed.

Lemma cummax_from_length (es : list Q) : forall m, length (cummax_from m es) = length es.
Proof. induction es as [|e rest IH]; intros m; cbn; [reflexivity | rewrite IH; reflexivity]. Qed.

Lemma cummax_length (es : list Q) : length (cummax es) = length es.
Proof. destruct es; cbn; [reflexivity | rewrite cummax_from_length; reflexivity]. Qed.

Lemma cummax_from_spec (es : list Q) :
  forall m j,
    j < length es ->
    (m <= nth j (cummax_from m es) 0)%Q
    /\ (forall i, i <= j -> (nth i es 0 <= nth j (cummax_from m es) 0)%Q)
    /\ (nth j (cummax_from m es) 0%Q = m
        \/ exists i, i <= j /\ nth j (cummax_from m es) 0%Q = nth i es 0%Q).
Proof.
  induction es as [|e rest IH]; intros m j Hj; [cbn in Hj; lia|].
  cbn [cummax_from]. destruct j as [|j].
  - cbn [nth]. destruct (qmax_cases m e) as [[Hlt E] | [Hle E]]; rewrite E.
    + split; [lra|]. split.
      * intros i Hi. replace i with 0 by lia. cbn. lra.
      * right. exists 0. split; [lia | reflexivity].
    + split; [lra|]. split.
      * intros i Hi. replace i with 0 by lia. cbn. exact Hle.
      * left. reflexivity.
  - cbn [nth]. cbn [length] in Hj.
    destruct (IH (qmax m e) j ltac:(lia)) as (H1 & H2 & H3).
    assert (Hm : (m <= qmax m e)%Q /\ (e <= qmax m e)%Q).
    { destruct (qmax_cases m e) as [[Hlt E] | [Hle E]]; rewrite E; split; lra. }
    destruct Hm as [Hm He].
    split; [lra|]. split.
    + intros [|i] Hi; [cbn; lra|]. cbn [nth]. apply H2. lia.
    + destruct H3 as [H3 | (i & Hi & H3)].
      * destruct (qmax_cases m e) as [[_ E] | [_ E]].
        -- right. exists 0. split; [lia|]. rewrite H3. exact E.
        -- left. rewrite H3. exact E.
      * right. exists (S i). split; [lia | exact H3].
Qed.

Lemma cummax_spec (es : list Q) (j : nat) :
  j < length es ->
  (forall i, i <= j -> (nth i es 0 <= nth j (cummax es) 0)%Q)
  /\ exists i, i <= j /\ nth j (cummax es) 0%Q = nth i es 0%Q.
Proof.
  destruct es as [|e rest]; intros Hj; [cbn in Hj; lia|].
  cbn [cummax]. destruct j as [|j].
  - cbn [nth]. split.
    + intros i Hi. replace i with 0 by lia. cbn. lra.
    + exists 0. split; [lia | reflexivity].
  - cbn [nth]. cbn [length] in Hj.
    destruct (cummax_from_spec rest e j ltac:(lia)) as (H1 & H2 & H3). split.
    + intros [|i] Hi; [cbn; exact H1|]. cbn [nth]. apply H2. lia.
    + destruct H3 as [H3 | (i & Hi & H3)].
      * exists 0. split; [lia | exact H3].
      * exists (S i). split; [lia | exact H3].
Qed.

Lemma series_sub_length (xs : list Q) :
  forall ys, length xs = length ys -> length (series_sub xs ys) = length xs.
Proof.
  induction xs as [|x rest IH]; intros [|y ys] H; cbn in *; try lia.
  rewrite IH by lia. reflexivity.
Qed.

Lemma series_sub_nth (xs : list Q) :
  forall ys j,
    length xs = length ys -> j < length xs ->
    nth j (series_sub xs ys) 0%Q = (nth j xs 0 - nth j ys 0)%Q.
Proof.
  induction xs as [|x rest IH]; intros [|y ys] j H Hj; cbn in *; try lia.
  destruct j as [|j]; [reflexivity|]. apply IH; lia.
Qed.

(** The deepest point of the series below its running maximum. *)
Lemma min_drawdown_spec (es : list Q) :
  es <> [] ->
  (forall i j, i <= j -> j < length es -> (nth i es 0 - nth j es 0 <= - min_drawdown es)%Q)
  /\ (exists i j, i <= j /\ j < length es /\ (- min_drawdown es == nth i es 0 - nth j es 0)%Q)
  /\ (min_drawdown es <= 0)%Q.
Proof.
  intros Hne. unfold min_drawdown.
  pose proof (series_sub_length es (cummax es) (eq_sym (cummax_length es))) as Hlen.
  pose proof (fun j => series_sub_nth es (cummax es) j) as Hnth.
  destruct (series_sub es (cummax es)) as [|d rest] eqn:Ed.
  { destruct es; [exfalso; apply Hne; reflexivity | cbn in Hlen; lia]. }
  change (default 0%Q (series_min (d :: rest))) with (fold_left qmin rest d).
  set (m := fold_left qmin rest d).
  assert (Hlow : forall j, j < length es -> (m <= nth j es 0 - nth j (cummax es) 0)%Q).
  { intros j Hj. rewrite <- (Hnth j (eq_sym (cummax_length es)) Hj).
    destruct (fold_qmin_le rest d) as [H1 H2]. fold m in H1, H2.
    assert (Hin : In (nth j (d :: rest) 0%Q) (d :: rest)) by (apply nth_In; lia).
    destruct Hin as [<- | Hin]; [exact H1|].
    apply (proj1 (List.Forall_forall _ _) H2). exact Hin. }
  assert (Hatt : exists j, j < length es /\ m = (nth j es 0 - nth j (cummax es) 0)%Q).
  { destruct (In_nth (d :: rest) m 0%Q (fold_qmin_in rest d)) as (j & Hj & Hm).
    exists j. split; [lia|]. rewrite <- Hm. apply Hnth; [symmetry; apply cummax_length | lia]. }
  split; [|split].
  - intros i j Hij Hj. destruct (cummax_spec es j Hj) as [Hmax _].
    specialize (Hmax i Hij). specialize (Hlow j Hj). lra.
  - destruct Hatt as (j & Hj & Hm). destruct (cummax_spec es j Hj) as (_ & i & Hi & Hmax).
    exists i, j. split; [exact Hi|]. split; [exact Hj|]. rewrite Hm, Hmax. ring.
  - destruct es as [|e es']; [exfalso; apply Hne; reflexivity|].
    specialize (Hlow 0 ltac:(cbn; lia)). cbn in Hlow. lra.
Qed.

(** The highest value of the series. *)
Lemma peak_spec (es : list Q) (initial : Q) :
  es <> [] ->
  let peak := default initial (series_max (cummax es)) in
  (forall k, k < length es -> (nth k es 0 <= peak)%Q)
  /\ exists k, k < length es /\ peak = nth k es 0%Q.
Proof.
  intros Hne peak. subst peak.
  pose proof (cummax_length es) as Hlen.
  destruct (cummax es) as [|c rest] eqn:Ec.
  { destruct es; [exfalso; apply Hne; reflexivity | cbn in Hlen; lia]. }
  change (default initial (series_max (c :: rest))) with (fold_left qmax rest c).
  set (M := fold_left qmax rest c). split.
  - intros k Hk. destruct (cummax_spec es k Hk) as [Hmax _]. specialize (Hmax k (Nat.le_refl k)).
    rewrite Ec in Hmax. destruct (fold_qmax_ge rest c) as [H1 H2]. fold M in H1, H2.
    assert (Hin : In (nth k (c :: rest) 0%Q) (c :: rest)) by (apply nth_In; lia).
    assert (Hle : (nth k (c :: rest) 0 <= M)%Q).
    { destruct Hin as [<- | Hin]; [exact H1|].
      apply (proj1 (List.Forall_forall _ _) H2). exact Hin. }
    lra.
  - destruct (In_nth (c :: rest) M 0%Q (fold_qmax_in rest c)) as (j & Hj & HM).
    assert (Hj' : j < length es) by lia.
    destruct (cummax_spec es j Hj') as (_ & i & Hi & Hmax). rewrite Ec in Hmax.
    exists i. split; [lia|]. rewrite <- HM. exact Hmax.
Qed.

(** X20.  With at least one trade and a non-empty equity series,
    [max_drawdown_abs] is the largest drop of the series: no value lies
    further below an earlier value, and some pair of an earlier and a later
    value attains it.  [max_drawdown_pct] relates it to the highest value of
    the whole series (not to the peak that precedes the drop), and the
    Calmar ratio is the total return over that percentage, or zero when the
    percentage is zero. *)
Theorem max_drawdown_is_the_largest_drop :
  forall (pnls equity_series : list Q) (initial : Q),
    pnls <> [] -> equity_series <> [] ->
    let m := calculate_metrics pnls equity_series initial in
    (forall i j, i <= j -> j < length equity_series ->
       (nth i equity_series 0 - nth j equity_series 0 <= max_drawdown_abs m)%Q)
    /\ (exists i j,
          i <= j /\ j < length equity_series
          /\ (max_drawdown_abs m == nth i equity_series 0 - nth j equity_series 0)%Q)
    /\ (exists peak,
          (forall k, k < length equity_series -> (nth k equity_series 0 <= peak)%Q)
          /\ (exists k, k < length equity_series /\ peak = nth k equity_series 0%Q)
          /\ max_drawdown_pct m
             = (if Qeqb peak 0 then 0 else max_drawdown_abs m / peak * 100)%Q)
    /\ calmar_ratio m
       = (if Qeqb (max_drawdown_pct m) 0 then 0
          else total_return_pct m / max_drawdown_pct m)%Q.
Proof.
  intros pnls es initial Hp He m. subst m.
  destruct pnls as [|p pnls]; [exfalso; apply Hp; reflexivity|].
  destruct (min_drawdown_spec es He) as (H1 & H2 & H3).
  destruct (peak_spec es initial He) as (H4 & H5).
  destruct es as [|e es']; [exfalso; apply He; reflexivity|].
  cbn [calculate_metrics max_drawdown_abs max_drawdown_pct calmar_ratio total_return_pct].
  set (es := e :: es') in *.
  assert (Habs : (Qabs (min_drawdown es) == - min_drawdown es)%Q) by (apply Qabs_neg; exact H3).
  split; [|split; [|split]].
  - intros i j Hij Hj. rewrite Habs. apply H1; assumption.
  - destruct H2 as (i & j & Hij & Hj & Heq). exists i, j.
    split; [exact Hij|]. split; [exact Hj|]. rewrite Habs. exact Heq.
  - exists (default initial (series_max (cummax es))).
    split; [exact H4|]. split; [exact H5 | reflexivity].
  - reflexivity.
Qed.

Lemma max_drawdown_is_the_largest_drop_witness :
  let m := calculate_metrics [5; -3]%Q [100; 90; 95; 80; 120]%Q 100 in
  (forall i j, i <= j -> j < length [100; 90; 95; 80; 120]%Q ->
     (nth i [100; 90; 95; 80; 120] 0 - nth j [100; 90; 95; 80; 120] 0
      <= max_drawdown_abs m)%Q)
  /\ (exists i j,
        i <= j /\ j < length [100; 90; 95; 80; 120]%Q
        /\ (max_drawdown_abs m
            == nth i [100; 90; 95; 80; 120] 0 - nth j [100; 90; 95; 80; 120] 0)%Q)
  /\ (exists peak,
        (forall k, k < length [100; 90; 95; 80; 120]%Q ->
           (nth k [100; 90; 95; 80; 120] 0 <= peak)%Q)
        /\ (exists k, k < length [100; 90; 95; 80; 120]%Q
                      /\ peak = nth k [100; 90; 95; 80; 120]%Q 0%Q)
        /\ max_drawdown_pct m
           = (if Qeqb peak 0 then 0 else max_drawdown_abs m / peak * 100)%Q)
  /\ calmar_ratio m
     = (if Qeqb (max_drawdown_pct m) 0 then 0
        else total_return_pct m / max_drawdown_pct m)%Q.
Proof.
  apply (max_drawdown_is_the_largest_drop [5; -3]%Q [100; 90; 95; 80; 120]%Q 100);
    discriminate.
Defined.

(** ** Wins and losses *)

Lemma series_sum_split (l : list Q) :
  (series_sum l
   == series_sum (List.filter (fun p => Qgtb p 0) l)
      + series_sum (List.filter (fun p => Qltb p 0) l))%Q.
Proof.
  induction l as [|p rest IH]; [unfold series_sum; cbn; ring|].
  cbn [List.filter]. rewrite series_sum_cons, IH.
  destruct (Qgtb p 0) eqn:Eg; destruct (Qltb p 0) eqn:El;
    rewrite ?series_sum_cons; try ring.
  - apply Qgtb_gt in Eg. apply Qltb_lt in El. lra.
  - apply Qgtb_le in Eg. apply Qltb_ge in El. lra.
Qed.

Lemma filter_disjoint_length {A : Type} (f g : A -> bool) (l : list A) :
  (forall x, f x = true -> g x = true -> False) ->
  length (List.filter f l) + length (List.filter g l) <= length l.
Proof.
  intros Hd. induction l as [|x rest IH]; cbn [List.filter length]; [lia|].
  destruct (f x) eqn:Ef; destruct (g x) eqn:Eg; cbn [length]; try lia.
  exfalso. exact (Hd x Ef Eg).
Qed.

Lemma Qnat_le (a b : nat) : a <= b -> (Qnat a <= Qnat b)%Q.
Proof. intros H. unfold Qnat. rewrite <- Zle_Qle. lia. Qed.

Lemma Qnat_pos (n : nat) : 0 < n -> (0 < Qnat n)%Q.
Proof. intros H. unfold Qnat. change 0%Q with (inject_Z 0). rewrite <- Zlt_Qlt. lia. Qed.

Lemma largest_win_bound (pnls : list Q) (p : Q) :
  In p pnls -> (p <= default 0%Q (series_max (List.filter (fun p => Qgtb p 0) pnls)))%Q.
Proof.
  intros Hin.
  pose proof (filter_forall (fun p => Qgtb p 0) pnls) as Hall.
  assert (Hmem : Qgtb p 0 = true -> In p (List.filter (fun p => Qgtb p 0) pnls)).
  { intros Hp. apply List.filter_In. split; assumption. }
  destruct (List.filter (fun p => Qgtb p 0) pnls) as [|x rest].
  - change (default 0%Q (series_max [])) with 0%Q.
    destruct (Qgtb p 0) eqn:E; [destruct (Hmem eq_refl)|]. apply Qgtb_le in E. exact E.
  - change (default 0%Q (series_max (x :: rest))) with (fold_left qmax rest x).
    destruct (fold_qmax_ge rest x) as [H1 H2].
    destruct (Qgtb p 0) eqn:E.
    + destruct (Hmem eq_refl) as [<- | Hp]; [exact H1|].
      apply (proj1 (List.Forall_forall _ _) H2). exact Hp.
    + apply Qgtb_le in E. inversion Hall as [|? ? Hx _]; subst. apply Qgtb_gt in Hx. lra.
Qed.

Lemma largest_loss_bound (pnls : list Q) (p : Q) :
  In p pnls -> (default 0%Q (series_min (List.filter (fun p => Qltb p 0) pnls)) <= p)%Q.
Proof.
  intros Hin.
  pose proof (filter_forall (fun p => Qltb p 0) pnls) as Hall.
  assert (Hmem : Qltb p 0 = true -> In p (List.filter (fun p => Qltb p 0) pnls)).
  { intros Hp. apply List.filter_In. split; assumption. }
  destruct (List.filter (fun p => Qltb p 0) pnls) as [|x rest].
  - change (default 0%Q (series_min [])) with 0%Q.
    destruct (Qltb p 0) eqn:E; [destruct (Hmem eq_refl)|]. apply Qltb_ge in E. exact E.
  - change (default 0%Q (series_min (x :: rest))) with (fold_left qmin rest x).
    destruct (fold_qmin_le rest x) as [H1 H2].
    destruct (Qltb p 0) eqn:E.
    + destruct (Hmem eq_refl) as [<- | Hp]; [exact H1|].
      apply (proj1 (List.Forall_forall _ _) H2). exact Hp.
    + apply Qltb_ge in E. inversion Hall as [|? ? Hx _]; subst. apply Qltb_lt in Hx. lra.
Qed.

(** X21.  With at least one trade: winners and losers together are at most all
    trades (a result of exactly zero is neither); the net profit is the
    gross profit less the gross loss; the expectancy times the number of
    trades is the net profit; the win rate is the share of winners in
    percent and lies between 0 and 100; every result lies between the
    largest loss and the largest win. *)
Theorem wins_and_losses_add_up :
  forall (pnls equity_series : list Q) (initial : Q),
    pnls <> [] ->
    let m := calculate_metrics pnls equity_series initial in
    winning_trades m + losing_trades m <= total_trades m
    /\ (net_profit m == gross_profit_of pnls - gross_loss_of pnls)%Q
    /\ (expectancy m * Qnat (total_trades m) == net_profit m)%Q
    /\ (win_rate m == Qnat (winning_trades m) / Qnat (total_trades m) * 100)%Q
    /\ (0 <= win_rate m)%Q /\ (win_rate m <= 100)%Q
    /\ Forall (fun p => (largest_loss m <= p)%Q /\ (p <= largest_win m)%Q) pnls.
Proof.
  intros pnls es initial Hp m. subst m.
  destruct pnls as [|p0 rest]; [exfalso; apply Hp; reflexivity|].
  unfold calculate_metrics.
  cbn [winning_trades losing_trades total_trades net_profit expectancy
       win_rate largest_loss largest_win].
  set (pnls := p0 :: rest) in *.
  assert (Hn : 0 < length pnls) by (cbn; lia).
  assert (Hnb : (0 <? length pnls) = true) by (apply Nat.ltb_lt; exact Hn).
  rewrite Hnb.
  pose proof (Qnat_pos (length pnls) Hn) as Hnq.
  assert (Hcount : length (List.filter (fun p => Qgtb p 0) pnls)
                   + length (List.filter (fun p => Qltb p 0) pnls) <= length pnls).
  { apply filter_disjoint_length. intros x Hg Hl.
    apply Qgtb_gt in Hg. apply Qltb_lt in Hl. lra. }
  set (w := length (List.filter (fun p => Qgtb p 0) pnls)) in *.
  assert (Hw0 : (0 <= Qnat w)%Q) by (apply (Qnat_le 0 w); lia).
  assert (Hw1 : (Qnat w <= Qnat (length pnls))%Q) by (apply Qnat_le; lia).
  assert (Hrate : (0 <= Qnat w / Qnat (length pnls))%Q /\ (Qnat w / Qnat (length pnls) <= 1)%Q).
  { split; [apply Qle_shift_div_l | apply Qle_shift_div_r]; lra. }
  split; [exact Hcount|].
  split. { rewrite gross_profit_sum, gross_loss_sum, (series_sum_split pnls). ring. }
  split. { unfold series_mean. field. lra. }
  split; [reflexivity|].
  split; [lra|]. split; [lra|].
  apply List.Forall_forall. intros p Hin.
  split; [apply largest_loss_bound | apply largest_win_bound]; exact Hin.
Qed.

Lemma wins_and_losses_add_up_witness :
  let m := calculate_metrics [5; -3; 0; 2]%Q [100; 105; 102; 102; 104]%Q 100 in
  winning_trades m + losing_trades m <= total_trades m
  /\ (net_profit m == gross_profit_of [5; -3; 0; 2] - gross_loss_of [5; -3; 0; 2])%Q
  /\ (expectancy m * Qnat (total_trades m) == net_profit m)%Q
  /\ (win_rate m == Qnat (winning_trades m) / Qnat (total_trades m) * 100)%Q
  /\ (0 <= win_rate m)%Q /\ (win_rate m <= 100)%Q
  /\ Forall (fun p => (largest_loss m <= p)%Q /\ (p <= largest_win m)%Q) [5; -3; 0; 2]%Q.
Proof.
  apply (wins_and_losses_add_up [5; -3; 0; 2]%Q [100; 105; 102; 102; 104]%Q 100).
  discriminate.
Defined.

(** ** Break of structure and change of character *)

Lemma last_nth_default {A : Type} (l : list A) (d : A) :
  List.last l d = nth (length l - 1) l d.
Proof.
  induction l as [|a rest IH]; [reflexivity|].
  destruct rest as [|b rest']; [reflexivity|].
  change (List.last (a :: b :: rest') d) with (List.last (b :: rest') d).
  rewrite IH. cbn [length]. rewrite !Nat.sub_1_r. reflexivity.
Qed.

Lemma is_bos_beyond (ohlc : list Bar) (swing : SwingPoint) (margin : Q) (period : nat) :
  (0 <= margin)%Q -> 1 <= period ->
  is_bos ohlc swing margin period = true ->
  period <= length ohlc
  /\ match sp_swing_type swing with
     | HIGH => (sp_price swing < bar_close (last_bar ohlc))%Q
     | LOW => (bar_close (last_bar ohlc) < sp_price swing)%Q
     end.
Proof.
  intros Hm Hp. unfold is_bos.
  destruct (length ohlc <? period) eqn:E; [discriminate|].
  apply Nat.ltb_ge in E. intros H. split; [exact E|].
  assert (Ha : (0 <= List.last (calculate_atr ohlc period) 0)%Q).
  { rewrite last_nth_default. apply (atr_at_nonneg ohlc period _ Hp). }
  destruct (sp_swing_type swing).
  - apply Qgtb_gt in H. nra.
  - apply Qltb_lt in H. nra.
Qed.

(** X22.  With a non-negative margin and a span of at least one, [detect_choch]
    on a list of swings answers [True] only if the frame has at least
    [atr_period] bars, the list holds at least two swing highs and two swing
    lows, and either the swings are bullish and the last close lies strictly
    below the last swing low, or they are bearish and the last close lies
    strictly above the last swing high. *)
Theorem choch_breaks_the_last_opposite_swing :
  forall (ohlc : list Bar) (swings_list : list SwingPoint) (margin : Q) (period : nat),
    (0 <= margin)%Q -> 1 <= period ->
    detect_choch ohlc swings_list margin period = true ->
    period <= length ohlc
    /\ 2 <= length (swings_of_type HIGH swings_list)
    /\ 2 <= length (swings_of_type LOW swings_list)
    /\ ((classify_trend (swings_of_type HIGH swings_list) (swings_of_type LOW swings_list)
         = BULLISH
         /\ exists s,
              last_swing (swings_of_type LOW swings_list) = Some s
              /\ (bar_close (last_bar ohlc) < sp_price s)%Q)
        \/ (classify_trend (swings_of_type HIGH swings_list) (swings_of_type LOW swings_list)
            = BEARISH
            /\ exists s,
                 last_swing (swings_of_type HIGH swings_list) = Some s
                 /\ (sp_price s < bar_close (last_bar ohlc))%Q)).
Proof.
  intros ohlc swings_list margin period Hm Hp H. unfold detect_choch in H.
  set (highs := swings_of_type HIGH swings_list) in *.
  set (lows := swings_of_type LOW swings_list) in *.
  assert (Htwo : classify_trend highs lows <> RANGING -> 2 <= length highs /\ 2 <= length lows)
    by apply classify_trend_needs_two.
  destruct (classify_trend highs lows) eqn:Et; [| |discriminate].
  - destruct (last_swing lows) as [s|] eqn:Es; [|discriminate].
    assert (Htype : sp_swing_type s = LOW).
    { unfold last_swing in Es. destruct (rev lows) as [|x l] eqn:Er; [discriminate|].
      injection Es as <-.
      assert (Hin : In x lows) by (apply in_rev; rewrite Er; left; reflexivity).
      unfold lows, swings_of_type in Hin. apply List.filter_In in Hin.
      destruct Hin as [_ Hin]. destruct (sp_swing_type x); [discriminate | reflexivity]. }
    destruct (is_bos_beyond ohlc s margin period Hm Hp H) as [Hlen Hbreak].
    rewrite Htype in Hbreak.
    destruct (Htwo ltac:(discriminate)) as [H1 H2].
    split; [exact Hlen|]. split; [exact H1|]. split; [exact H2|].
    left. split; [reflexivity|]. exists s. split; [reflexivity | exact Hbreak].
  - destruct (last_swing highs) as [s|] eqn:Es; [|discriminate].
    assert (Htype : sp_swing_type s = HIGH).
    { unfold last_swing in Es. destruct (rev highs) as [|x l] eqn:Er; [discriminate|].
      injection Es as <-.
      assert (Hin : In x highs) by (apply in_rev; rewrite Er; left; reflexivity).
      unfold highs, swings_of_type in Hin. apply List.filter_In in Hin.
      destruct Hin as [_ Hin]. destruct (sp_swing_type x); [reflexivity | discriminate]. }
    destruct (is_bos_beyond ohlc s margin period Hm Hp H) as [Hlen Hbreak].
    rewrite Htype in Hbreak.
    destruct (Htwo ltac:(discriminate)) as [H1 H2].
    split; [exact Hlen|]. split; [exact H1|]. split; [exact H2|].
    right. split; [reflexivity|]. exists s. split; [reflexivity | exact Hbreak].
Qed.

Lemma choch_breaks_the_last_opposite_swing_witness :
  let swings_list := ms_swings (detect_market_structure series_b 10) in
  14 <= length series_b
  /\ 2 <= length (swings_of_type HIGH swings_list)
  /\ 2 <= length (swings_of_type LOW swings_list)
  /\ ((classify_trend (swings_of_type HIGH swings_list) (swings_of_type LOW swings_list)
       = BULLISH
       /\ exists s,
            last_swing (swings_of_type LOW swings_list) = Some s
            /\ (bar_close (last_bar series_b) < sp_price s)%Q)
      \/ (classify_trend (swings_of_type HIGH swings_list) (swings_of_type LOW swings_list)
          = BEARISH
          /\ exists s,
               last_swing (swings_of_type HIGH swings_list) = Some s
               /\ (sp_price s < bar_close (last_bar series_b))%Q)).
Proof.
  apply (choch_breaks_the_last_opposite_swing series_b
           (ms_swings (detect_market_structure series_b 10)) (1 # 2) 14).
  - lra.
  - lia.
  - vm_compute. reflexivity.
Defined.

(** ** Frames on which the generator stays silent *)

(** X23.  With parameters [validate_params] accepts and an ATR span of at
    least one (pandas raises for a smaller span): on a frame shorter than
    [max(lookback, atr_period) + 10] bars, or shorter than
    [2 * lookback + 1] bars (too short for a single swing point, hence for
    a liquidity grab, although the generator's own guard lets it pass), or
    with liquidity grabs switched off, [generate_signals] returns no row
    and [Backtester.run] returns the empty result. *)
Theorem short_frames_yield_no_signal :
  forall (P : Params) (ohlc : list Bar) (cfg : Config) (r : RandomState),
    validate_params P = true ->
    1 <= atr_period P ->
    length ohlc < min_bars P \/ length ohlc < 2 * lookback P + 1
    \/ use_liquidity_grabs P = false ->
    generate_signals P ohlc = []
    /\ run cfg P ohlc r = Some (_empty_result cfg).
Proof.
  intros P ohlc cfg r _ _ H.
  assert (Hnil : generate_signals P ohlc = []).
  { destruct (generate_signals P ohlc) as [|s rest] eqn:E; [reflexivity|]. exfalso.
    assert (Hs : In s (generate_signals P ohlc)) by (rewrite E; left; reflexivity).
    destruct H as [H | [H | H]].
    - unfold generate_signals in Hs. apply Nat.ltb_lt in H. rewrite H in Hs. destruct Hs.
    - apply generate_signals_confirmed in Hs.
      destruct Hs as (i & g & sw & _ & _ & _ & _ & _ & Hsw & _).
      unfold detect_market_structure in Hsw.
      assert (Hb : (length ohlc <? lookback P * 2 + 1) = true) by (apply Nat.ltb_lt; lia).
      rewrite Hb in Hsw. destruct Hsw.
    - unfold generate_signals in Hs. rewrite H in Hs.
      destruct (length ohlc <? min_bars P); [destruct Hs|].
      rewrite signal_loop_without_grabs in Hs. destruct Hs. }
  split; [exact Hnil|]. unfold run. cbn [strategy_generate_signals SMCStrategy].
  rewrite Hnil. reflexivity.
Qed.

Lemma short_frames_yield_no_signal_witness :
  generate_signals (default_params 20 2 14) (firstn 40 series_b) = []
  /\ run default_config (default_params 20 2 14) (firstn 40 series_b) (constant_random 0)
     = Some (_empty_result default_config).
Proof.
  apply (short_frames_yield_no_signal (default_params 20 2 14) (firstn 40 series_b)
           default_config (constant_random 0)).
  - vm_compute. reflexivity.
  - cbn. lia.
  - right. left. vm_compute. lia.
Defined.

(** ** One bar of the loop: exits, then entries *)

Lemma enter_rows_appends (cfg : Config) (rows : list Signal) (bar : Bar) (ts : Z) :
  forall st,
    exists new,
      open_positions (enter_rows cfg rows bar ts st) = open_positions st ++ new
      /\ Forall (entered_for rows ts) new
      /\ length new <= length rows.
Proof.
  induction rows as [|row rest IH]; intros st; cbn [enter_rows].
  - exists []. rewrite app_nil_r. split; [reflexivity|]. split; [constructor | cbn; lia].
  - destruct (max_positions cfg <=? Z.of_nat (length (open_positions st)))%Z.
    + exists []. rewrite app_nil_r. split; [reflexivity|]. split; [constructor | cbn; lia].
    + destruct (IH (_enter_position cfg row bar ts st)) as (new & Hopen & Hnew & Hlen).
      assert (Hnew' : Forall (entered_for (row :: rest) ts) new).
      { eapply List.Forall_impl; [|exact Hnew]. intros p (Hts & s & Hs & Hrest).
        split; [exact Hts|]. exists s. split; [right; exact Hs | exact Hrest]. }
      destruct (enter_position_opened cfg row bar ts st)
        as (_ & _ & _ & _ & [[Ho _] | (pos & Ho & Hp & _)]).
      * exists new. rewrite Hopen, Ho. split; [reflexivity|].
        split; [exact Hnew' | cbn; lia].
      * exists (pos :: new). rewrite Hopen, Ho, <- app_assoc.
        split; [reflexivity|]. split; [|cbn; lia].
        constructor; [|exact Hnew'].
        destruct Hp as (H1 & H2 & _ & H4 & H5 & _).
        split; [exact H2|]. exists row. split; [left; reflexivity|]. auto.
Qed.

(** X24.  One iteration of the loop of [run]: the book after the bar is the
    positions that neither stop nor target removed, in order, followed by
    the positions opened on this bar; these carry the bar's timestamp, stem
    from rows of the signal frame stamped with it, and are at most as many
    as those rows.  The ledger grows by the exits of positions that were
    in the book before the bar: a position is never checked against the
    bar it was entered on. *)
Theorem entries_survive_their_own_bar :
  forall (cfg : Config) (signals : list Signal) (bar : Bar) (st : State),
    exists new closed,
      open_positions (process_bar cfg (group_signals signals) bar st)
      = List.filter (stays_open bar) (open_positions st) ++ new
      /\ Forall (entered_for (rows_at signals (bar_ts bar)) (bar_ts bar)) new
      /\ length new <= length (rows_at signals (bar_ts bar))
      /\ trades (process_bar cfg (group_signals signals) bar st) = trades st ++ closed
      /\ map trade_event closed = flat_map (exit_event bar) (open_positions st).
Proof.
  intros cfg signals bar st. unfold process_bar.
  set (ts := bar_ts bar). set (st1 := _check_exits cfg bar ts st).
  destruct (check_exits_fold_trades cfg bar ts (open_positions st) st)
    as (closed & Hclosed & Hevents).
  fold (_check_exits cfg bar ts st) in Hclosed. fold st1 in Hclosed.
  pose proof (check_exits_open cfg bar ts st) as Hkept. fold st1 in Hkept.
  destruct (enter_signals_trades cfg (group_signals signals) bar ts st1) as [Htr _].
  assert (Hnew : exists new,
             open_positions (enter_signals cfg (group_signals signals) bar ts st1)
             = open_positions st1 ++ new
             /\ Forall (entered_for (rows_at signals ts) ts) new
             /\ length new <= length (rows_at signals ts)).
  { unfold enter_signals, group_signals.
    rewrite group_signals_fold_lookup, lookup_empty.
    destruct (Z.of_nat (length (open_positions st1)) <? max_positions cfg)%Z.
    - destruct (rows_at signals ts) as [|row rows] eqn:Er.
      + exists []. rewrite app_nil_r. split; [reflexivity|]. split; [constructor | cbn; lia].
      + apply enter_rows_appends.
    - exists []. rewrite app_nil_r. split; [reflexivity|]. split; [constructor | cbn; lia]. }
  destruct Hnew as (new & Hopen & Hfor & Hlen).
  exists new, closed. unfold mark_to_market. cbn [open_positions trades].
  rewrite Hopen, Hkept, Htr, Hclosed. auto.
Qed.

(** ** Zones behind the signals *)

Lemma direction_eqb_eq (a b : Direction) : Direction_eqb a b = true -> a = b.
Proof. destruct a, b; cbn; intros H; try discriminate; reflexivity. Qed.

Lemma ob_zone_inv (d : Direction) (v : BarView) (x : Q) (ob : OrderBlock) :
  negb (ob_skip d v ob) && ob_hit x ob = true ->
  ob_type ob = d /\ ob_end_idx ob < bv_index v
  /\ (ob_price_bottom ob <= x)%Q /\ (x <= ob_price_top ob)%Q.
Proof.
  intros H. apply andb_true_iff in H. destruct H as [Hs Hh].
  apply negb_true_iff in Hs. unfold ob_skip in Hs. apply orb_false_iff in Hs.
  destruct Hs as [Ht Hi]. apply negb_false_iff in Ht. apply Nat.leb_gt in Hi.
  apply within_bounds in Hh. split; [apply direction_eqb_eq; exact Ht|].
  split; [exact Hi | exact Hh].
Qed.

Lemma fvg_zone_inv (d : Direction) (v : BarView) (x : Q) (g : FairValueGap) :
  negb (fvg_skip d v g) && fvg_hit x g = true ->
  fvg_type g = d /\ fvg_end_idx g < bv_index v
  /\ (fvg_gap_bottom g <= x)%Q /\ (x <= fvg_gap_top g)%Q.
Proof.
  intros H. apply andb_true_iff in H. destruct H as [Hs Hh].
  apply negb_true_iff in Hs. unfold fvg_skip in Hs. apply orb_false_iff in Hs.
  destruct Hs as [Ht Hi]. apply negb_false_iff in Ht. apply Nat.leb_gt in Hi.
  apply within_bounds in Hh. split; [apply direction_eqb_eq; exact Ht|].
  split; [exact Hi | exact Hh].
Qed.

Lemma evaluate_bar_zone ohlc P atr obs fvgs grabs i s :
  In s (evaluate_bar ohlc P atr obs fvgs grabs i) ->
  let v := bar_view ohlc P atr i in
  let x := match sig_side s with buy => bv_low v | sell => bv_high v end in
  match sig_side s with
  | buy => (sig_stop s <= bv_low v - (3 # 10) * bv_atr_now v)%Q
  | sell => (bv_high v + (3 # 10) * bv_atr_now v <= sig_stop s)%Q
  end
  /\ ((exists ob,
         In ob obs /\ ob_type ob = grab_direction (sig_side s) /\ ob_end_idx ob < i
         /\ (ob_price_bottom ob <= x)%Q /\ (x <= ob_price_top ob)%Q
         /\ meta_reason (sig_meta s) = "OB+ChoCH/LQ"%string
         /\ meta_strength (sig_meta s) = ob_strength ob)
      \/ (exists g,
            In g fvgs /\ fvg_type g = grab_direction (sig_side s) /\ fvg_end_idx g < i
            /\ (fvg_gap_bottom g <= x)%Q /\ (x <= fvg_gap_top g)%Q
            /\ meta_reason (sig_meta s) = "FVG+ChoCH/LQ"%string
            /\ meta_strength (sig_meta s) = fvg_size_pips g)).
Proof.
  intros H v x. subst x. rewrite evaluate_bar_shape in H. fold v in H.
  apply in_app_or in H. destruct H as [H | H].
  - destruct (_ && _) in H; [|destruct H].
    apply in_app_or in H. destruct H as [H | H];
      apply option_entry_inv in H; destruct H as (z & Hz & Hf & ->).
    + apply ob_zone_inv in Hf. destruct Hf as (Ht & Hi & Hb & Htop).
      cbn [bullish_ob_entry sig_side sig_stop sig_meta meta_reason meta_strength grab_direction].
      split.
      * destruct (qmin_cases (ob_price_bottom z) (bv_low v)) as [[H1 ->] | [H1 ->]]; lra.
      * left. exists z. auto 10.
    + apply fvg_zone_inv in Hf. destruct Hf as (Ht & Hi & Hb & Htop).
      cbn [bullish_fvg_entry sig_side sig_stop sig_meta meta_reason meta_strength grab_direction].
      split; [lra|]. right. exists z. auto 10.
  - destruct (_ && _) in H; [|destruct H].
    apply in_app_or in H. destruct H as [H | H];
      apply option_entry_inv in H; destruct H as (z & Hz & Hf & ->).
    + apply ob_zone_inv in Hf. destruct Hf as (Ht & Hi & Hb & Htop).
      cbn [bearish_ob_entry sig_side sig_stop sig_meta meta_reason meta_strength grab_direction].
      split.
      * destruct (qmax_cases (ob_price_top z) (bv_high v)) as [[H1 ->] | [H1 ->]]; lra.
      * left. exists z. auto 10.
    + apply fvg_zone_inv in Hf. destruct Hf as (Ht & Hi & Hb & Htop).
      cbn [bearish_fvg_entry sig_side sig_stop sig_meta meta_reason meta_strength grab_direction].
      split; [lra|]. right. exists z. auto 10.
Qed.

(** X25.  Every row [generate_signals] returns entered on a zone of the
    matching direction that had ended strictly before the row's bar: an
    order block of [find_order_blocks] (reason OB+ChoCH/LQ, strength in the
    meta) or a gap of [find_fvg] (reason FVG+ChoCH/LQ, size in the meta),
    whose price interval contains the bar's low (buy) or high (sell).  The
    stop lies at least 0.3 ATR below the bar's low for a buy and at least
    0.3 ATR above the bar's high for a sell. *)
Theorem signals_enter_on_an_earlier_zone :
  forall (P : Params) (ohlc : list Bar),
    Forall (from_earlier_zone P ohlc) (generate_signals P ohlc).
Proof.
  intros P ohlc. apply List.Forall_forall. intros s Hs.
  unfold generate_signals in Hs.
  destruct (length ohlc <? min_bars P) eqn:Eshort; [destruct Hs|].
  apply Nat.ltb_ge in Eshort.
  apply signal_loop_in in Hs. destruct Hs as (i & Hi & Hs).
  unfold py_range in Hi. apply List.in_seq in Hi.
  assert (Hlen : i < length ohlc) by lia.
  pose proof (evaluate_bar_inv _ _ _ _ _ _ _ _ Hs) as ((Hts & _) & _).
  apply evaluate_bar_zone in Hs.
  destruct (bar_view_fields ohlc P (calculate_atr ohlc (atr_period P)) i Hlen)
    as (_ & Hlow & Hhigh & Hatr).
  assert (Hbts : bv_ts (bar_view ohlc P (calculate_atr ohlc (atr_period P)) i)
                 = bar_ts (iat ohlc i)).
  { unfold bar_view. cbn. rewrite (last_bar_firstn ohlc i Hlen). reflexivity. }
  rewrite Hlow, Hhigh, Hatr in Hs. destruct Hs as [Hstop Hzone].
  exists i. split; [exact Hlen|]. split; [rewrite Hts; exact Hbts|].
  split; [exact Hstop|].
  assert (Htouch : match sig_side s with
                   | buy => bar_low (iat ohlc i)
                   | sell => bar_high (iat ohlc i)
                   end = touch_price (sig_side s) (iat ohlc i)).
  { unfold touch_price. destruct (sig_side s); reflexivity. }
  rewrite Htouch in Hzone.
  destruct Hzone as [(ob & Hin & Hrest) | (g & Hin & Hrest)].
  - left. exists ob. destruct (use_order_blocks P); [|destruct Hin]. auto.
  - right. exists g. destruct (use_fvg P); [|destruct Hin]. auto.
Qed.

(** ** The curve ends where the account is depleted *)

Lemma run_trace_solvent (cfg : Config) sbt (bars : list Bar) :
  forall st, Forall (fun s => depleted s = false) (removelast (run_trace cfg sbt bars st)).
Proof.
  induction bars as [|bar rest IH]; intros st; cbn [run_trace]; [constructor|].
  destruct (depleted (process_bar cfg sbt bar st)) eqn:E; [constructor|].
  specialize (IH (process_bar cfg sbt bar st)).
  destruct (run_trace cfg sbt rest (process_bar cfg sbt bar st)) as [|s l] eqn:Et;
    [constructor|].
  change (removelast (process_bar cfg sbt bar st :: s :: l))
    with (process_bar cfg sbt bar st :: removelast (s :: l)).
  constructor; [exact E | exact IH].
Qed.

Lemma removelast_map {A B : Type} (f : A -> B) (l : list A) :
  removelast (map f l) = map f (removelast l).
Proof.
  induction l as [|a rest IH]; [reflexivity|].
  destruct rest as [|b rest']; [reflexivity|].
  change (removelast (map f (a :: b :: rest'))) with (f a :: removelast (map f (b :: rest'))).
  rewrite IH. reflexivity.
Qed.

Lemma run_curve_solvent (cfg : Config) sbt (ohlc : list Bar) (r : RandomState) :
  Forall (fun p : Z * Q => (0 < snd p)%Q)
         (removelast (equity_curve_points (run_loop cfg sbt ohlc (reset_state cfg r)))).
Proof.
  destruct (run_loop_curve cfg sbt ohlc (reset_state cfg r)) as (new & Hnew & _ & _ & Hsnd).
  rewrite Hnew. cbn [reset_state equity_curve_points app].
  pose proof (run_trace_solvent cfg sbt ohlc (reset_state cfg r)) as Hsol.
  assert (H : Forall (fun e => (0 < e)%Q) (removelast (map snd new))).
  { rewrite Hsnd, removelast_map. apply List.Forall_forall. intros e He.
    apply in_map_iff in He. destruct He as (s & <- & Hs).
    pose proof (proj1 (List.Forall_forall _ _) Hsol s Hs) as Hd.
    unfold depleted in Hd. apply orb_false_iff in Hd. destruct Hd as [_ Hd].
    apply Qleb_gt in Hd. exact Hd. }
  rewrite removelast_map in H. apply List.Forall_forall. intros p Hp.
  apply (proj1 (List.Forall_forall _ _) H). apply in_map. exact Hp.
Qed.

(** X26.  The loop of [run] stops at the first bar that leaves the balance or
    the equity at zero or below: at every processed bar but the last both
    are strictly positive, so every point of a returned equity curve except
    possibly the last one is strictly positive. *)
Theorem only_the_last_curve_point_can_be_depleted :
  forall (cfg : Config) (signals : list Signal) (ohlc : list Bar) (r : RandomState),
    Forall (fun s => (0 < balance s)%Q /\ (0 < equity s)%Q)
           (removelast (run_trace cfg (group_signals signals) ohlc (reset_state cfg r)))
    /\ (forall res,
          run_with_signals cfg signals ohlc r = Some res ->
          Forall (fun p : Z * Q => (0 < snd p)%Q) (removelast (res_equity_curve res))).
Proof.
  intros cfg signals ohlc r. split.
  - eapply List.Forall_impl; [|apply run_trace_solvent].
    intros s Hd. unfold depleted in Hd. apply orb_false_iff in Hd.
    destruct Hd as [H1 H2]. apply Qleb_gt in H1. apply Qleb_gt in H2. auto.
  - intros res Hres. unfold run_with_signals in Hres.
    destruct signals as [|s0 rest]; [injection Hres as <-; constructor|].
    pose proof (run_curve_solvent cfg (group_signals (s0 :: rest)) ohlc r) as Hsol.
    rewrite <- (force_close_curve cfg ohlc) in Hsol.
    destruct (equity_curve_points (force_close cfg ohlc _)) as [|p points]; [discriminate|].
    injection Hres as <-. exact Hsol.
Qed.
